(** * PigeonNS: the mDNS resolution engine

    A shallow embedding of [MDNSResolver] (index.js, and its older copy
    src/resolver.js) together with the properties of its cache, its
    pending-query table and its response handler.

    Conventions of the embedding.
    - JavaScript strings are modelled by [string] (byte strings);
      [toLowerCase] folds the ASCII letters only.
    - A JavaScript [Map] is an association list kept in insertion order
      ([JsMap]); [Map.prototype.set] on a present key updates the value in
      place, on an absent key it appends.
    - Promises and timers are objects with identity: a promise is an index
      in the promise store of the state, a timer an identifier in the table
      of armed timers.  Closures are records of what they capture.
    - [Date.now()] is the [clock] field of the state (milliseconds); it is
      advanced by the [Tick] event only.  *)

From Stdlib Require Import ZArith Ascii.
From stdpp Require Import ssreflect base option list strings gmap.

Set Warnings "-rewrite-rw,-deprecated-since-9.3,-clear-no-such-hyp".

Local Open Scope Z_scope.

(** ** Strings *)

Module Str.

(** [String.prototype.toLowerCase] on names of ASCII characters: it folds
    the letters A to Z and keeps every other character.  On other
    characters the built-in follows the Unicode tables, and for the capital
    sigma the context; the embedding leaves them out, and a statement that
    depends on which characters the folding changes says that the name
    [is_ascii]. *)
Definition lower_ascii (c : ascii) : ascii :=
  let n := N_of_ascii c in
  if ((65 <=? n) && (n <=? 90))%N then ascii_of_N (n + 32) else c.

Fixpoint toLowerCase (s : string) : string :=
  match s with
  | EmptyString => EmptyString
  | String c s' => String (lower_ascii c) (toLowerCase s')
  end.

(** [String.prototype.endsWith]: some suffix of [s] is [suffix]. *)
Fixpoint endsWith (s suffix : string) : bool :=
  if bool_decide (s = suffix) then true
  else match s with
       | EmptyString => false
       | String _ s' => endsWith s' suffix
       end.

(** A name of ASCII characters. *)
Fixpoint is_ascii (s : string) : bool :=
  match s with
  | EmptyString => true
  | String c s' => (N_of_ascii c <? 128)%N && is_ascii s'
  end.

End Str.

(** ** JavaScript [Map]

    Entries are kept in insertion order.  [set] on a present key replaces
    the value where the key stands, [set] on an absent key appends the
    entry, [delete] removes the entry of the key, and the first key of the
    key iterator is the key of the head entry. *)

Module JsMap.
Section JsMap.
Context {K V : Type} `{EqDecision K}.

Definition t : Type := list (K * V).

Fixpoint get (k : K) (m : t) : option V :=
  match m with
  | [] => None
  | (k', v) :: m' => if decide (k = k') then Some v else get k m'
  end.

Definition has (k : K) (m : t) : bool :=
  match get k m with Some _ => true | None => false end.

Fixpoint set (k : K) (v : V) (m : t) : t :=
  match m with
  | [] => [(k, v)]
  | (k', v') :: m' =>
      if decide (k = k') then (k, v) :: m' else (k', v') :: set k v m'
  end.

Fixpoint delete (k : K) (m : t) : t :=
  match m with
  | [] => []
  | (k', v') :: m' =>
      if decide (k = k') then m' else (k', v') :: delete k m'
  end.

Definition size (m : t) : nat := length m.

Definition keys (m : t) : list K := m.*1.

(** [m.keys().next().value] *)
Definition first_key (m : t) : option K := head (keys m).

(** A map holds a key once. *)
Definition wf (m : t) : Prop := NoDup (keys m).

End JsMap.
Global Arguments t : clear implicits.
End JsMap.

(** ** Data model *)

(** The repository holds the resolver twice: index.js, and the older copy
    src/resolver.js, which does not fold the case of names and rejects
    pending queries synchronously on stop.  The embedding follows both. *)
Inductive impl : Type := IndexJs | ResolverJs.

(** [this.options], after the constructor has merged the defaults. *)
Record Options : Type := {
  ttl : Z;        (* default cache TTL, seconds *)
  cacheSize : Z;  (* maximum number of cache entries *)
  timeout : Z     (* query timeout, milliseconds *)
}.

(** The options object handed to the constructor: a key is present or not. *)
Record RawOptions : Type := {
  raw_ttl : option Z;
  raw_cacheSize : option Z;
  raw_timeout : option Z
}.

(** [{ ttl: options.ttl || 120, cacheSize: options.cacheSize || 1000,
       timeout: options.timeout || 5000, ...options }]: the spread comes
    last, so a key that is present wins over its default, whatever its
    value. *)
Definition mkOptions (o : RawOptions) : Options :=
  {| ttl := default 120 (raw_ttl o);
     cacheSize := default 1000 (raw_cacheSize o);
     timeout := default 5000 (raw_timeout o) |}.

(** A cache value [{ address, expires }]. *)
Record CacheEntry : Type := {
  address : string;
  expires : Z   (* absolute time, milliseconds *)
}.

(** The outcome of a promise. *)
Inductive Outcome : Type :=
  | Pending
  | Fulfilled (addr : string)
  | Rejected (message : string).

(** A value of [pendingQueries]: [{ resolve, reject, promise }].  Both
    closures capture [timeout], [cacheKey] and the settling functions of
    [promise]. *)
Record PendingQuery : Type := {
  pq_key : string;     (* cacheKey captured by the closures *)
  pq_timer : nat;      (* the timeout handle captured by the closures *)
  pq_promise : nat     (* queryPromise *)
}.

(** An armed [setTimeout]: what its callback captures, and when it is due. *)
Record Timer : Type := {
  t_key : string;      (* cacheKey *)
  t_name : string;     (* name, as normalized by resolve *)
  t_promise : nat;     (* the promise promiseReject belongs to *)
  t_due : Z            (* earliest time of the callback *)
}.

(** An answer record as multicast-dns hands it over.  [ttl] is decoded from
    an unsigned 32-bit field of the packet; [None] stands for a record
    object without the property. *)
Record Answer : Type := {
  a_name : string;
  a_type : string;
  a_data : string;
  a_ttl : option N
}.

(** A response; [answers] may be missing or null. *)
Record Response : Type := { answers : option (list Answer) }.

(** The shape of the multicast-dns instance that [stop] of index.js
    inspects: whether [destroy] declares a callback parameter, and whether
    the instance exposes a socket with a [close] function. *)
Record Mdns : Type := {
  destroy_takes_callback : bool;
  socket_closes : bool
}.

(** Calls made on the transport collaborator. *)
Inductive TransportCall : Type :=
  | TQuery (name type : string)
  | TDestroy
  | TSocketClose
  | TRemoveAllListeners.

(** Events emitted by the resolver. *)
Inductive Emitted : Type :=
  | EvStarted
  | EvStopped
  | EvCacheHit (name type addr : string)
  | EvQuery (name type : string)
  | EvResolved (name type addr : string) (ttl : Z)
  | EvCacheCleared.

Record State : Type := {
  options : Options;
  cache : JsMap.t string CacheEntry;
  mdns : option Mdns;
  pendingQueries : JsMap.t string PendingQuery;
  promises : list Outcome;          (* promise store; a promise is an index *)
  timers : gmap nat Timer;          (* armed timers *)
  next_timer : nat;                 (* next timer handle *)
  immediates : list PendingQuery;   (* queued [setImmediate] callbacks, each
                                       rejecting its entry with "Resolver stopped" *)
  closing : list Mdns;              (* outstanding [destroy] callbacks *)
  transport : list TransportCall;   (* calls made on the transport, oldest first *)
  emitted : list Emitted;           (* events emitted, oldest first *)
  clock : Z                         (* Date.now() *)
}.

Global Instance Outcome_eq_dec : EqDecision Outcome.
Proof. solve_decision. Defined.

(** Field updates. *)
Definition set_cache (c : JsMap.t string CacheEntry) (st : State) : State :=
  {| options := options st; cache := c; mdns := mdns st;
     pendingQueries := pendingQueries st; promises := promises st;
     timers := timers st; next_timer := next_timer st;
     immediates := immediates st; closing := closing st;
     transport := transport st; emitted := emitted st; clock := clock st |}.

Definition set_mdns (m : option Mdns) (st : State) : State :=
  {| options := options st; cache := cache st; mdns := m;
     pendingQueries := pendingQueries st; promises := promises st;
     timers := timers st; next_timer := next_timer st;
     immediates := immediates st; closing := closing st;
     transport := transport st; emitted := emitted st; clock := clock st |}.

Definition set_pending (p : JsMap.t string PendingQuery) (st : State) : State :=
  {| options := options st; cache := cache st; mdns := mdns st;
     pendingQueries := p; promises := promises st;
     timers := timers st; next_timer := next_timer st;
     immediates := immediates st; closing := closing st;
     transport := transport st; emitted := emitted st; clock := clock st |}.

Definition set_promises (ps : list Outcome) (st : State) : State :=
  {| options := options st; cache := cache st; mdns := mdns st;
     pendingQueries := pendingQueries st; promises := ps;
     timers := timers st; next_timer := next_timer st;
     immediates := immediates st; closing := closing st;
     transport := transport st; emitted := emitted st; clock := clock st |}.

Definition set_timers (ts : gmap nat Timer) (st : State) : State :=
  {| options := options st; cache := cache st; mdns := mdns st;
     pendingQueries := pendingQueries st; promises := promises st;
     timers := ts; next_timer := next_timer st;
     immediates := immediates st; closing := closing st;
     transport := transport st; emitted := emitted st; clock := clock st |}.

Definition set_next_timer (n : nat) (st : State) : State :=
  {| options := options st; cache := cache st; mdns := mdns st;
     pendingQueries := pendingQueries st; promises := promises st;
     timers := timers st; next_timer := n;
     immediates := immediates st; closing := closing st;
     transport := transport st; emitted := emitted st; clock := clock st |}.

Definition set_immediates (q : list PendingQuery) (st : State) : State :=
  {| options := options st; cache := cache st; mdns := mdns st;
     pendingQueries := pendingQueries st; promises := promises st;
     timers := timers st; next_timer := next_timer st;
     immediates := q; closing := closing st;
     transport := transport st; emitted := emitted st; clock := clock st |}.

Definition set_closing (q : list Mdns) (st : State) : State :=
  {| options := options st; cache := cache st; mdns := mdns st;
     pendingQueries := pendingQueries st; promises := promises st;
     timers := timers st; next_timer := next_timer st;
     immediates := immediates st; closing := q;
     transport := transport st; emitted := emitted st; clock := clock st |}.

Definition call_transport (c : TransportCall) (st : State) : State :=
  {| options := options st; cache := cache st; mdns := mdns st;
     pendingQueries := pendingQueries st; promises := promises st;
     timers := timers st; next_timer := next_timer st;
     immediates := immediates st; closing := closing st;
     transport := transport st ++ [c]; emitted := emitted st; clock := clock st |}.

Definition emit (e : Emitted) (st : State) : State :=
  {| options := options st; cache := cache st; mdns := mdns st;
     pendingQueries := pendingQueries st; promises := promises st;
     timers := timers st; next_timer := next_timer st;
     immediates := immediates st; closing := closing st;
     transport := transport st; emitted := emitted st ++ [e]; clock := clock st |}.

Definition set_clock (now : Z) (st : State) : State :=
  {| options := options st; cache := cache st; mdns := mdns st;
     pendingQueries := pendingQueries st; promises := promises st;
     timers := timers st; next_timer := next_timer st;
     immediates := immediates st; closing := closing st;
     transport := transport st; emitted := emitted st; clock := now |}.

(** [new MDNSResolver(options)], created at time [now]. *)
Definition init (o : Options) (now : Z) : State :=
  {| options := o; cache := []; mdns := None; pendingQueries := [];
     promises := []; timers := ∅; next_timer := 0;
     immediates := []; closing := []; transport := []; emitted := [];
     clock := now |}.

(** ** Operations *)

(** Names and keys. *)

Definition local_suffix : string := ".local".

(** [resolve], first lines: index.js lower-cases the name, both copies
    append [.local] when the name does not end with it. *)
Definition normalizeName (i : impl) (name : string) : string :=
  let name := match i with
              | IndexJs => Str.toLowerCase name
              | ResolverJs => name
              end in
  if Str.endsWith name local_suffix then name else name +:+ local_suffix.

(** [_handleResponse]: index.js lower-cases the name of the answer. *)
Definition answerName (i : impl) (a : Answer) : string :=
  match i with
  | IndexJs => Str.toLowerCase (a_name a)
  | ResolverJs => a_name a
  end.

(** The template [`${name}:${type}`]. *)
Definition cacheKey (name type : string) : string := name +:+ ":" +:+ type.

(** Promises, timers and the pending table. *)

(** [promiseResolve] and [promiseReject]: a promise settles once; settling
    a settled promise does nothing. *)
Definition settle_in (p : nat) (o : Outcome) (ps : list Outcome) : list Outcome :=
  match ps !! p with
  | Some Pending => <[p := o]> ps
  | _ => ps
  end.

Definition settle (p : nat) (o : Outcome) (st : State) : State :=
  set_promises (settle_in p o (promises st)) st.

Definition clearTimeout (t : nat) (st : State) : State :=
  set_timers (delete t (timers st)) st.

(** [this.pendingQueries.delete(key)] *)
Definition pending_delete (key : string) (st : State) : State :=
  set_pending (JsMap.delete key (pendingQueries st)) st.

(** The [resolve] closure of a pending entry. *)
Definition pending_resolve (pq : PendingQuery) (addr : string) (st : State) : State :=
  settle (pq_promise pq) (Fulfilled addr)
    (pending_delete (pq_key pq) (clearTimeout (pq_timer pq) st)).

(** The [reject] closure of a pending entry, applied to [new Error(message)]. *)
Definition pending_reject (pq : PendingQuery) (message : string) (st : State) : State :=
  settle (pq_promise pq) (Rejected message)
    (pending_delete (pq_key pq) (clearTimeout (pq_timer pq) st)).

Definition timeout_message (name : string) : string := "Timeout resolving " +:+ name.
Definition stopped_message : string := "Resolver stopped".
Definition not_running_message : string := "Resolver is not running. Call start() first.".

(** The callback handed to [setTimeout] by [resolve]. *)
Definition timeout_callback (td : Timer) (st : State) : State :=
  settle (t_promise td) (Rejected (timeout_message (t_name td)))
    (pending_delete (t_key td) st).

(** The delay Node gives a timer: a delay below 1 or above 2^31-1 becomes 1. *)
Definition timer_delay (ms : Z) : Z :=
  if bool_decide (1 ≤ ms ≤ 2147483647) then ms else 1.

(** An armed timer runs once, not before it is due; a timer that was
    cleared, or has run, never runs. *)
Definition fire_timer (t : nat) (st : State) : State :=
  match timers st !! t with
  | Some td =>
      if bool_decide (t_due td ≤ clock st)
      then timeout_callback td (clearTimeout t st)
      else st
  | None => st
  end.

(** *** resolve *)

(** What an [async resolve] call hands back: it throws (the returned promise
    is rejected at once), it returns a value (fulfilled at once), or it
    returns a promise of the store, whose outcome the caller shares. *)
Inductive Resolution : Type :=
  | Throws (message : string)
  | Returns (addr : string)
  | ReturnsPromise (p : nat).

(** [cached && cached.expires > Date.now()] *)
Definition cache_fresh (key : string) (st : State) : option CacheEntry :=
  match JsMap.get key (cache st) with
  | Some cached => if bool_decide (clock st < expires cached) then Some cached else None
  | None => None
  end.

(** The tail of [resolve]: a new promise, its timer, the pending entry, the
    query on the transport and the [query] event. *)
Definition issue_query (name type key : string) (st : State) : Resolution * State :=
  let p := length (promises st) in
  let t := next_timer st in
  let st := set_promises (promises st ++ [Pending]) st in
  let st := set_next_timer (S t)
              (set_timers (<[t := {| t_key := key; t_name := name; t_promise := p;
                                     t_due := clock st + timer_delay (timeout (options st)) |}]>
                             (timers st)) st) in
  let st := set_pending (JsMap.set key {| pq_key := key; pq_timer := t; pq_promise := p |}
                           (pendingQueries st)) st in
  let st := call_transport (TQuery name type) st in
  let st := emit (EvQuery name type) st in
  (ReturnsPromise p, st).

Definition resolve (i : impl) (name type : string) (st : State) : Resolution * State :=
  match mdns st with
  | None => (Throws not_running_message, st)
  | Some _ =>
      let name := normalizeName i name in
      let key := cacheKey name type in
      match cache_fresh key st with
      | Some cached =>
          (Returns (address cached), emit (EvCacheHit name type (address cached)) st)
      | None =>
          match JsMap.get key (pendingQueries st) with
          | Some pending => (ReturnsPromise (pq_promise pending), st)
          | None => issue_query name type key st
          end
      end
  end.

(** *** _handleResponse *)

(** [answer.ttl || this.options.ttl]: a missing or zero TTL is falsy. *)
Definition answer_ttl (o : Options) (a : Answer) : Z :=
  match a_ttl a with
  | Some t => if bool_decide (t = 0%N) then ttl o else Z.of_N t
  | None => ttl o
  end.

(** [this.cache.set(key, entry)] followed by the size check: when the map
    has grown beyond [cacheSize], the first key of the map is deleted. *)
Definition cache_put (capacity : Z) (key : string) (e : CacheEntry)
    (c : JsMap.t string CacheEntry) : JsMap.t string CacheEntry :=
  let c := JsMap.set key e c in
  if bool_decide (capacity < Z.of_nat (JsMap.size c)) then
    match JsMap.first_key c with
    | Some firstKey => JsMap.delete firstKey c
    | None => c
    end
  else c.

Definition is_address_type (type : string) : bool :=
  bool_decide (type = "A") || bool_decide (type = "AAAA").

(** The body of the loop over [response.answers]. *)
Definition handle_answer (i : impl) (a : Answer) (st : State) : State :=
  if is_address_type (a_type a) then
    let name := answerName i a in
    let addr := a_data a in
    let ttl := answer_ttl (options st) a in
    let key := cacheKey name (a_type a) in
    let st := set_cache
                (cache_put (cacheSize (options st)) key
                   {| address := addr; expires := clock st + ttl * 1000 |} (cache st)) st in
    let st := match JsMap.get key (pendingQueries st) with
              | Some pending => pending_resolve pending addr st
              | None => st
              end in
    emit (EvResolved name (a_type a) addr ttl) st
  else st.

Definition _handleResponse (i : impl) (response : Response) (st : State) : State :=
  match answers response with
  | None => st
  | Some l => foldl (λ s a, handle_answer i a s) st l
  end.

(** *** start and stop *)

(** [start()]: [None] when it throws 'Resolver is already running'.  [m] is
    the instance [mdns()] returns. *)
Definition start (m : Mdns) (st : State) : option State :=
  match mdns st with
  | Some _ => None
  | None => Some (emit EvStarted (set_mdns (Some m) st))
  end.

(** The loops [for (const [name, pending] of this.pendingQueries.entries())]
    of [stop].  Every turn ends with [this.pendingQueries.delete(name)], so
    the iterator always stands at the head of what is left of the map; the
    fuel is the number of entries at the start. *)
Fixpoint each_pending (body : string → PendingQuery → State → State)
    (fuel : nat) (st : State) : State :=
  match fuel with
  | O => st
  | S fuel' =>
      match pendingQueries st with
      | [] => st
      | (name, pending) :: _ =>
          each_pending body fuel' (pending_delete name (body name pending st))
      end
  end.

(** index.js: [setImmediate(() => pending.reject(new Error('Resolver stopped')))] *)
Definition defer_reject (name : string) (pending : PendingQuery) (st : State) : State :=
  set_immediates (immediates st ++ [pending]) st.

(** src/resolver.js: [pending.reject(new Error('Resolver stopped'))] *)
Definition reject_now (name : string) (pending : PendingQuery) (st : State) : State :=
  pending_reject pending stopped_message st.

Definition socket_close (m : Mdns) (st : State) : State :=
  if socket_closes m then call_transport TSocketClose st else st.

(** [finish] of index.js.  The HTTP server is outside this model
    ([httpServer] is null), so the [stopped] event follows at once. *)
Definition finish (st : State) : State :=
  emit EvStopped (set_mdns None (call_transport TRemoveAllListeners st)).

Definition stop (i : impl) (st : State) : State :=
  match i with
  | IndexJs =>
      let st1 := each_pending defer_reject (JsMap.size (pendingQueries st)) st in
      match mdns st with
      | None => emit EvStopped st1
      | Some m =>
          if destroy_takes_callback m
          then set_closing (closing st1 ++ [m]) (call_transport TDestroy st1)
          else finish (socket_close m (call_transport TDestroy st1))
      end
  | ResolverJs =>
      let st1 := match mdns st with
                 | Some _ => set_mdns None (call_transport TDestroy st)
                 | None => st
                 end in
      emit EvStopped (each_pending reject_now (JsMap.size (pendingQueries st1)) st1)
  end.

(** The callback index.js hands to [destroy]. *)
Definition destroy_done (st : State) : State :=
  match closing st with
  | [] => st
  | m :: rest => finish (socket_close m (set_closing rest st))
  end.

(** The oldest queued [setImmediate] callback runs. *)
Definition run_immediate (st : State) : State :=
  match immediates st with
  | [] => st
  | pending :: rest => pending_reject pending stopped_message (set_immediates rest st)
  end.

(** All queued [setImmediate] callbacks run, oldest first. *)
Definition run_immediates (st : State) : State :=
  Nat.iter (length (immediates st)) run_immediate st.

(** [clearCache()] *)
Definition clearCache (st : State) : State :=
  emit EvCacheCleared (set_cache [] st).

(** ** The event loop *)

Inductive Event : Type :=
  | Start (m : Mdns)
  | Stop
  | Resolve (name type : string)
  | Receive (response : Response)
  | TimerFires (t : nat)
  | Immediate
  | DestroyDone
  | ClearCache
  | Tick (ms : N).

Definition step (i : impl) (ev : Event) (st : State) : State :=
  match ev with
  | Start m => default st (start m st)
  | Stop => stop i st
  | Resolve name type => (resolve i name type st).2
  | Receive response => _handleResponse i response st
  | TimerFires t => fire_timer t st
  | Immediate => run_immediate st
  | DestroyDone => destroy_done st
  | ClearCache => clearCache st
  | Tick ms => set_clock (clock st + Z.of_N ms) st
  end.

Definition run (i : impl) (evs : list Event) (st : State) : State :=
  foldl (λ s ev, step i ev s) st evs.

(** The states a resolver goes through. *)
Definition reachable (i : impl) (st : State) : Prop :=
  ∃ o now evs, st = run i evs (init o now).

(** *** Diagnostics *)

(** [getCacheSize()] *)
Definition getCacheSize (st : State) : nat := JsMap.size (cache st).

(** [getCache()]: for each key the address and the remaining TTL,
    [Math.max(0, Math.floor((expires - Date.now()) / 1000))]. *)
Definition getCache (st : State) : list (string * (string * Z)) :=
  (λ '(key, value), (key, (address value, Z.max 0 ((expires value - clock st) / 1000))))
    <$> cache st.

(** ** The vocabulary of the statements *)

(** *** Answers *)

(** The key and the entry [_handleResponse] computes for an answer. *)
Definition answer_key (i : impl) (a : Answer) : string :=
  cacheKey (answerName i a) (a_type a).

Definition answer_entry (st : State) (a : Answer) : CacheEntry :=
  {| address := a_data a;
     expires := clock st + answer_ttl (options st) a * 1000 |}.

(** The TTL in the words of the documentation: the TTL of the record when
    it is present and positive, the configured default otherwise. *)
Definition documented_ttl (o : Options) (a : Answer) : Z :=
  match a_ttl a with
  | Some t => if bool_decide (0 < t)%N then Z.of_N t else ttl o
  | None => ttl o
  end.

(** *** Settling, and the invariant of the resolver *)

(** Settling a pending query, whoever does it (the [resolve] closure, the
    [reject] closure or the timeout callback), clears or consumes the timer,
    deletes the key from the pending table and settles the promise. *)
Definition discard (key : string) (t p : nat) (o : Outcome) (st : State) : State :=
  settle p o (pending_delete key (clearTimeout t st)).

(** What holds in every state a resolver goes through. *)
Record Inv (st : State) : Prop := {
  inv_cache_wf : JsMap.wf (cache st);
  inv_pending_wf : JsMap.wf (pendingQueries st);
  (* the cache is bounded *)
  inv_cache_size :
    Z.of_nat (JsMap.size (cache st)) ≤ Z.max 0 (cacheSize (options st));
  (* promises and timers are created together *)
  inv_counter : next_timer st = length (promises st);
  (* an armed timer belongs to a promise that is not settled *)
  inv_timers : ∀ t td, timers st !! t = Some td →
    t_promise td = t ∧ (t < next_timer st)%nat ∧
    promises st !! t = Some Pending;
  (* an entry of the table is stored under the key its closures capture,
     its promise is pending and its timer is armed *)
  inv_pending : ∀ k pq, JsMap.get k (pendingQueries st) = Some pq →
    pq_key pq = k ∧ pq_promise pq = pq_timer pq ∧
    promises st !! pq_promise pq = Some Pending ∧
    ∃ td, timers st !! pq_timer pq = Some td ∧ t_key td = k;
  inv_immediates : ∀ pq, pq ∈ immediates st →
    pq_promise pq = pq_timer pq ∧ (pq_timer pq < next_timer st)%nat ∧
    ∀ td, timers st !! pq_timer pq = Some td → t_key td = pq_key pq;
  (* a key that is pending has no fresh cache entry *)
  inv_stale : ∀ k pq e, JsMap.get k (pendingQueries st) = Some pq →
    JsMap.get k (cache st) = Some e → expires e ≤ clock st
}.

(** What a closure captures is consistent: its promise and its timer were
    created together, and the timer, while armed, belongs to its key. *)
Definition closure_ok (st : State) (key : string) (t p : nat) : Prop :=
  p = t ∧ ∀ td, timers st !! t = Some td → t_key td = key.

(** What no event undoes: timer handles are never reused, an armed timer is
    never changed before it is cleared or runs, and a settled promise keeps
    its outcome. *)
Record ext (st st' : State) : Prop := {
  ext_next : (next_timer st ≤ next_timer st')%nat;
  ext_timers : ∀ t, (t < next_timer st)%nat →
    timers st' !! t = timers st !! t ∨ timers st' !! t = None;
  ext_promises : ∀ p o, promises st !! p = Some o → o ≠ Pending →
    promises st' !! p = Some o
}.

(** *** Names, keys and the claims that do not hold as they are stated *)

(** Two spellings of a name that differ in the case of letters only. *)
Definition case_variant (s s' : string) : Prop :=
  Str.toLowerCase s = Str.toLowerCase s'.

Fixpoint has_colon (s : string) : bool :=
  match s with
  | EmptyString => false
  | String c s' => bool_decide (c = ":"%char) || has_colon s'
  end.

(** One letter in whatever case, or one character: [c'] is [c], or one of
    the two is a letter from A to Z and the other one the letter from a to z
    that stands 32 places after it. *)
Definition same_letter (c c' : ascii) : bool :=
  let n := N_of_ascii c in
  let n' := N_of_ascii c' in
  ((n =? n') || ((65 <=? n) && (n <=? 90) && (n' =? n + 32)) ||
   ((65 <=? n') && (n' <=? 90) && (n =? n' + 32)))%N.

(** A case variant of a name: the same letters, each in whatever case. *)
Fixpoint same_spelling (s s' : string) : bool :=
  match s, s' with
  | EmptyString, EmptyString => true
  | String c s, String c' s' => same_letter c c' && same_spelling s s'
  | _, _ => false
  end.

(** C6 as it is stated, for a name of ASCII characters that is given
    without the suffix: in both copies the name, the name with the suffix
    added, and the case variants of both lead to one key. *)
Definition normalization_claim : Prop :=
  ∀ i h h' type,
    Str.is_ascii h = true →
    Str.endsWith (Str.toLowerCase h) local_suffix = false →
    same_spelling h h' = true ∨ same_spelling (h +:+ local_suffix) h' = true →
    cacheKey (normalizeName i h') type = cacheKey (normalizeName i h) type.


(** C10 as it is stated: a pending query of a type other than A and AAAA
    stays pending through every response. *)
Definition other_types_claim : Prop :=
  ∀ i st name type r pq,
    reachable i st → type ≠ "A" → type ≠ "AAAA" →
    JsMap.get (cacheKey (normalizeName i name) type) (pendingQueries st) = Some pq →
    promises (_handleResponse i r st) !! pq_promise pq = Some Pending.

(** *** Sample inputs *)

Definition no_options : RawOptions :=
  {| raw_ttl := None; raw_cacheSize := None; raw_timeout := None |}.

Definition sample_options : Options :=
  {| ttl := 120; cacheSize := 2; timeout := 5000 |}.

Definition sample_mdns : Mdns :=
  {| destroy_takes_callback := true; socket_closes := true |}.

Definition answer_A (name data : string) (t : N) : Answer :=
  {| a_name := name; a_type := "A"; a_data := data; a_ttl := Some t |}.

Definition answer_AAAA (name data : string) (t : N) : Answer :=
  {| a_name := name; a_type := "AAAA"; a_data := data; a_ttl := Some t |}.

(** A running resolver of capacity 2 whose cache is full. *)
Definition sample_full : State :=
  run IndexJs
    [Start sample_mdns;
     Receive {| answers := Some [answer_A "test1.local" "192.168.1.1" 120;
                                 answer_A "test2.local" "192.168.1.2" 120] |}]
    (init sample_options 1000).

(** A running resolver whose cache holds one entry that expires at 61000. *)
Definition sample_cached : State :=
  run IndexJs
    [Start sample_mdns;
     Receive {| answers := Some [answer_A "test.local" "192.168.1.100" 60] |}]
    (init sample_options 1000).

(** A running resolver with an entry in the cache and two pending queries. *)
Definition sample_pending : State :=
  run IndexJs [Resolve "x" "A"; Resolve "y" "AAAA"] sample_cached.

(** ** The rest of the resolver, its HTTP front and its command line *)

(** *** The constructor *)

(** [x || d] on a number that may be missing: undefined and 0 are falsy. *)
Definition num_or (x : option Z) (d : Z) : Z :=
  match x with
  | Some v => if bool_decide (v = 0) then d else v
  | None => d
  end.

(** [...options]: a key of [options] that is present replaces the value
    listed before the spread. *)
Definition spread (x : option Z) (listed : Z) : Z :=
  match x with
  | Some v => v
  | None => listed
  end.

(** The object literal of the constructor, key by key: the listed value
    [options.k || default], then the spread. *)
Definition constructor_options (o : RawOptions) : Options :=
  {| ttl := spread (raw_ttl o) (num_or (raw_ttl o) 120);
     cacheSize := spread (raw_cacheSize o) (num_or (raw_cacheSize o) 1000);
     timeout := spread (raw_timeout o) (num_or (raw_timeout o) 5000) |}.

(** [new MDNSResolver(options)] *)
Definition construct (o : RawOptions) (now : Z) : State :=
  init (constructor_options o) now.

(** *** Counting *)

(** The questions sent with [mdns.query], oldest first. *)
Fixpoint sent_queries (calls : list TransportCall) : list (string * string) :=
  match calls with
  | [] => []
  | TQuery name type :: calls' => (name, type) :: sent_queries calls'
  | _ :: calls' => sent_queries calls'
  end.

(** *** The HTTP front

    [_handleHttpRequest] of index.js and [_handleRequest] of src/server.js
    are the same function over their resolver ([IndexJs] and [ResolverJs]).
    The request comes parsed: the method, the path of [new URL(req.url, ...)]
    and its search parameters in the order of the query string.  The body
    that [JSON.stringify] prints is kept as a value. *)

Record HttpRequest : Type := {
  req_method : string;
  req_pathname : string;
  req_params : list (string * string)
}.

Inductive HttpBody : Type :=
  | NoBody
  | ErrorBody (error : string) (statusCode : nat)
  | HealthBody (size : nat) (entries : list (string * (string * Z)))
  | ResolvedBody (hostname type addr : string)
  | ApiInfoBody.

Record HttpReply : Type := {
  reply_status : nat;
  reply_headers : list (string * string);
  reply_body : HttpBody
}.

(** A request is answered at once, or waits for a promise of the store. *)
Inductive HttpResult : Type :=
  | Replied (r : HttpReply)
  | Awaits (p : nat) (hostname type : string).

(** [url.searchParams.get(key)]: the first value of the key, or null. *)
Fixpoint params_get (key : string) (params : list (string * string)) : option string :=
  match params with
  | [] => None
  | (k, v) :: params' => if decide (k = key) then Some v else params_get key params'
  end.

(** A string that may be null, as a condition: null and the empty string
    are falsy. *)
Definition truthy (x : option string) : option string :=
  match x with
  | Some EmptyString => None
  | _ => x
  end.

(** [a || b] on strings that may be null, as a condition. *)
Definition str_or (a b : option string) : option string :=
  match truthy a with
  | Some v => Some v
  | None => truthy b
  end.

(** The three [res.setHeader] calls made when [options.cors] is truthy. *)
Definition cors_headers (cors : bool) : list (string * string) :=
  if cors then
    [("Access-Control-Allow-Origin", "*");
     ("Access-Control-Allow-Methods", "GET, OPTIONS");
     ("Access-Control-Allow-Headers", "Content-Type")]
  else [].

(** [_sendJSON(res, statusCode, data)], on a response that carries the
    headers [set] already. *)
Definition _sendJSON (set : list (string * string)) (statusCode : nat) (data : HttpBody)
    : HttpReply :=
  {| reply_status := statusCode;
     reply_headers := set ++ [("Content-Type", "application/json")];
     reply_body := data |}.

(** [_sendError(res, statusCode, message)] *)
Definition _sendError (set : list (string * string)) (statusCode : nat) (message : string)
    : HttpReply :=
  _sendJSON set statusCode (ErrorBody message statusCode).

(** [hostname.endsWith('.local') ? hostname : `${hostname}.local`] *)
Definition reply_hostname (hostname : string) : string :=
  if Str.endsWith hostname local_suffix then hostname else hostname +:+ local_suffix.

(** The [then] and the [catch] of the [/resolve] branch. *)
Definition resolved_reply (set : list (string * string)) (hostname type addr : string)
    : HttpReply :=
  _sendJSON set 200 (ResolvedBody (reply_hostname hostname) type addr).

Definition failed_reply (set : list (string * string)) (message : string) : HttpReply :=
  _sendError set 404 message.

Definition _handleHttpRequest (i : impl) (cors : bool) (req : HttpRequest) (st : State)
    : HttpResult * State :=
  let set := cors_headers cors in
  if decide (req_method req = "OPTIONS") then
    (Replied {| reply_status := 204; reply_headers := set; reply_body := NoBody |}, st)
  else if decide (req_method req ≠ "GET") then
    (Replied (_sendError set 405 "Method not allowed"), st)
  else if decide (req_pathname req = "/health") then
    (Replied (_sendJSON set 200 (HealthBody (getCacheSize st) (getCache st))), st)
  else if decide (req_pathname req = "/resolve") then
    let hostname := str_or (params_get "name" (req_params req))
                           (params_get "hostname" (req_params req)) in
    let type := default "A" (truthy (params_get "type" (req_params req))) in
    match hostname with
    | None =>
        (Replied (_sendError set 400 "Missing required parameter: name or hostname"), st)
    | Some hostname =>
        match resolve i hostname type st with
        | (Throws message, st') => (Replied (failed_reply set message), st')
        | (Returns addr, st') => (Replied (resolved_reply set hostname type addr), st')
        | (ReturnsPromise p, st') => (Awaits p hostname type, st')
        end
    end
  else if decide (req_pathname req = "/") then
    (Replied (_sendJSON set 200 ApiInfoBody), st)
  else
    (Replied (_sendError set 404 "Not found"), st).

(** What a waiting request is answered once its promise has the outcome
    [o]; nothing while the promise is pending. *)
Definition http_complete (cors : bool) (hostname type : string) (o : Outcome)
    : option HttpReply :=
  match o with
  | Pending => None
  | Fulfilled addr => Some (resolved_reply (cors_headers cors) hostname type addr)
  | Rejected message => Some (failed_reply (cors_headers cors) message)
  end.

(** The reply of a request in the state [st]: the reply given at once, or
    the one that the outcome of the awaited promise gives. *)
Definition http_reply (cors : bool) (res : HttpResult) (st : State) : option HttpReply :=
  match res with
  | Replied r => Some r
  | Awaits p hostname type =>
      match promises st !! p with
      | Some o => http_complete cors hostname type o
      | None => None
      end
  end.

(** *** The command line (cli.js) *)

(** [parseInt(s, 10)], a built-in of the language, is a parameter of the
    model: it takes the argument, which is undefined past the end of the
    arguments, and gives an integer or NaN ([None]). *)
Record CliOptions : Type := {
  cli_type : option string;      (* undefined when absent or without value *)
  cli_timeout : option Z;        (* undefined or NaN: None *)
  cli_ttl : option Z;
  cli_port : option Z;
  cli_host : option string
}.

Definition no_cli_options : CliOptions :=
  {| cli_type := None; cli_timeout := None; cli_ttl := None;
     cli_port := None; cli_host := None |}.

Definition with_type (v : option string) (o : CliOptions) : CliOptions :=
  {| cli_type := v; cli_timeout := cli_timeout o; cli_ttl := cli_ttl o;
     cli_port := cli_port o; cli_host := cli_host o |}.

Definition with_timeout (v : option Z) (o : CliOptions) : CliOptions :=
  {| cli_type := cli_type o; cli_timeout := v; cli_ttl := cli_ttl o;
     cli_port := cli_port o; cli_host := cli_host o |}.

Definition with_ttl (v : option Z) (o : CliOptions) : CliOptions :=
  {| cli_type := cli_type o; cli_timeout := cli_timeout o; cli_ttl := v;
     cli_port := cli_port o; cli_host := cli_host o |}.

Definition with_port (v : option Z) (o : CliOptions) : CliOptions :=
  {| cli_type := cli_type o; cli_timeout := cli_timeout o; cli_ttl := cli_ttl o;
     cli_port := v; cli_host := cli_host o |}.

Definition with_host (v : option string) (o : CliOptions) : CliOptions :=
  {| cli_type := cli_type o; cli_timeout := cli_timeout o; cli_ttl := cli_ttl o;
     cli_port := cli_port o; cli_host := v |}.

(** The loop of [parseArgs] from the index it stands at: [args] is what is
    left of the arguments.  [args[++i]] takes the next argument, or
    undefined when there is none. *)
Fixpoint parse_loop (parseInt : option string → option Z) (args : list string)
    (hostname : option string) (o : CliOptions) : option string * CliOptions :=
  match args with
  | [] => (hostname, o)
  | arg :: rest =>
      if decide (arg = "--type") then
        match rest with
        | v :: rest' => parse_loop parseInt rest' hostname (with_type (Some v) o)
        | [] => (hostname, with_type None o)
        end
      else if decide (arg = "--timeout") then
        match rest with
        | v :: rest' => parse_loop parseInt rest' hostname (with_timeout (parseInt (Some v)) o)
        | [] => (hostname, with_timeout (parseInt None) o)
        end
      else if decide (arg = "--ttl") then
        match rest with
        | v :: rest' => parse_loop parseInt rest' hostname (with_ttl (parseInt (Some v)) o)
        | [] => (hostname, with_ttl (parseInt None) o)
        end
      else if decide (arg = "--port") then
        match rest with
        | v :: rest' => parse_loop parseInt rest' hostname (with_port (parseInt (Some v)) o)
        | [] => (hostname, with_port (parseInt None) o)
        end
      else if decide (arg = "--host") then
        match rest with
        | v :: rest' => parse_loop parseInt rest' hostname (with_host (Some v) o)
        | [] => (hostname, with_host None o)
        end
      else
        match truthy hostname with
        | None => parse_loop parseInt rest (Some arg) o
        | Some _ => parse_loop parseInt rest hostname o
        end
  end.

(** [parseArgs(args)]: the command, the hostname and the options. *)
Definition parseArgs (parseInt : option string → option Z) (args : list string)
    : option string * option string * CliOptions :=
  let '(hostname, o) := parse_loop parseInt (tail args) None no_cli_options in
  (head args, hostname, o).

(** What the main part of cli.js does with the arguments. *)
Inductive CliAction : Type :=
  | PrintUsage                       (* exit code 0 *)
  | HostnameRequired                 (* usage, exit code 1 *)
  | ResolveHostname (hostname : string) (resolver : RawOptions) (type : string)
  | Monitor
  | Serve (port : Z) (host : string) (resolver : RawOptions)
  | UnknownCommand (command : string). (* usage, exit code 1 *)

(** The options [resolveHostname] and [serve] hand to the resolver:
    [{ timeout: options.timeout || 5000, ttl: options.ttl || 120 }]. *)
Definition cli_resolver_options (o : CliOptions) : RawOptions :=
  {| raw_ttl := Some (num_or (cli_ttl o) 120);
     raw_cacheSize := None;
     raw_timeout := Some (num_or (cli_timeout o) 5000) |}.

Definition cli_main (parseInt : option string → option Z) (args : list string) : CliAction :=
  match args with
  | [] => PrintUsage
  | first :: _ =>
      if decide (first = "--help") then PrintUsage
      else if decide (first = "-h") then PrintUsage
      else
        let '(command, hostname, o) := parseArgs parseInt args in
        if decide (first = "resolve") then
          match truthy hostname with
          | None => HostnameRequired
          | Some hostname =>
              ResolveHostname hostname (cli_resolver_options o)
                (default "A" (truthy (cli_type o)))
          end
        else if decide (first = "monitor") then Monitor
        else if decide (first = "serve") then
          Serve (num_or (cli_port o) 5380) (default "localhost" (truthy (cli_host o)))
            (cli_resolver_options o)
        else UnknownCommand first
  end.

(** The exit code of the actions that end the process at once. *)
Definition exit_code (a : CliAction) : option nat :=
  match a with
  | PrintUsage => Some 0%nat
  | HostnameRequired | UnknownCommand _ => Some 1%nat
  | _ => None
  end.

(** ** The vocabulary of the further statements *)

(** A transition that keeps the options, creates no promise and sends no
    query. *)
Record quiet (st st' : State) : Prop := {
  quiet_options : options st' = options st;
  quiet_promises : length (promises st') = length (promises st);
  quiet_queries : sent_queries (transport st') = sent_queries (transport st)
}.

(** A transition that only fulfils pending promises. *)
Record fulfils (st st' : State) : Prop := {
  fulfils_mdns : mdns st' = mdns st;
  fulfils_transport : transport st' = transport st;
  fulfils_immediates : immediates st' = immediates st;
  fulfils_next_timer : next_timer st' = next_timer st;
  fulfils_timers : ∀ t td, timers st' !! t = Some td → timers st !! t = Some td;
  fulfils_promises : ∀ p,
    promises st' !! p = promises st !! p ∨
    promises st !! p = Some Pending ∧ ∃ addr, promises st' !! p = Some (Fulfilled addr)
}.

(** A request that reaches the resolver: [GET /resolve] with a host name
    under [name] or [hostname], and the type it asks for. *)
Definition asks (req : HttpRequest) (hostname type : string) : Prop :=
  req_method req = "GET" ∧ req_pathname req = "/resolve" ∧
  str_or (params_get "name" (req_params req))
         (params_get "hostname" (req_params req)) = Some hostname ∧
  default "A" (truthy (params_get "type" (req_params req))) = type.

(** The promise [p] belongs to a query for the name [n]: its timer, while
    armed, carries the name, and if the promise is rejected, the error is
    the timeout of the name or the stop of the resolver. *)
Record named (p : nat) (n : string) (st : State) : Prop := {
  named_lt : (p < length (promises st))%nat;
  named_timer : ∀ td, timers st !! p = Some td → t_name td = n;
  named_rejected : ∀ message, promises st !! p = Some (Rejected message) →
    message = timeout_message n ∨ message = stopped_message
}.

(** The outcomes the code settles the promise [p] with. *)
Definition fair (st : State) (p : nat) (o : Outcome) : Prop :=
  match o with
  | Pending => False
  | Fulfilled _ => True
  | Rejected message =>
      message = stopped_message ∨
      ∃ td, timers st !! p = Some td ∧ message = timeout_message (t_name td)
  end.

(** The flags [parseArgs] knows. *)
Definition cli_flags : list string := ["--type"; "--timeout"; "--ttl"; "--port"; "--host"].

(** A command line as its author means it: options with their values and
    positional arguments, in any order. *)
Inductive CliItem : Type :=
  | Opt (flag value : string)
  | Pos (arg : string).

Definition render_item (it : CliItem) : list string :=
  match it with
  | Opt flag value => [flag; value]
  | Pos arg => [arg]
  end.

Definition render (items : list CliItem) : list string := items ≫= render_item.

Definition positionals (items : list CliItem) : list string :=
  items ≫= (λ it, match it with Pos arg => [arg] | Opt _ _ => [] end).

(** An option is one of the known flags, with any value; a positional
    argument is not empty and is not a flag. *)
Definition wf_item (it : CliItem) : Prop :=
  match it with
  | Opt flag _ => flag ∈ cli_flags
  | Pos arg => (arg ∉ cli_flags) ∧ arg ≠ EmptyString
  end.

(** What an option means. *)
Definition set_flag (parseInt : option string → option Z) (it : CliItem) (o : CliOptions)
    : CliOptions :=
  match it with
  | Pos _ => o
  | Opt flag value =>
      if decide (flag = "--type") then with_type (Some value) o
      else if decide (flag = "--timeout") then with_timeout (parseInt (Some value)) o
      else if decide (flag = "--ttl") then with_ttl (parseInt (Some value)) o
      else if decide (flag = "--port") then with_port (parseInt (Some value)) o
      else with_host (Some value) o
  end.

(** The [resolved] event that [_handleResponse] emits for an address
    record. *)
Definition resolved_event (i : impl) (o : Options) (a : Answer) : Emitted :=
  EvResolved (answerName i a) (a_type a) (a_data a) (answer_ttl o a).

(** A name that [toLowerCase] leaves as it is. *)
Definition lower_case (s : string) : Prop := Str.toLowerCase s = s.

(** The events on which the copies can be compared: [stop] apart, with
    names in lower case. *)
Definition lower_case_event (ev : Event) : Prop :=
  match ev with
  | Stop => False
  | Resolve name _ => lower_case name
  | Receive r => ∀ l, answers r = Some l → Forall (λ a, lower_case (a_name a)) l
  | _ => True
  end.

(** A transition that leaves the cache and the clock alone. *)
Record still (st st' : State) : Prop := {
  still_cache : cache st' = cache st;
  still_clock : clock st' = clock st
}.

(** Every key of the cache was made from an address record. *)
Definition address_key (i : impl) (k : string) : Prop :=
  ∃ name type, k = cacheKey name type ∧ is_address_type type = true ∧
    (i = IndexJs → lower_case name).

(** Every armed timer is the timer of the entry the table holds under its
    key, and no deferred callback is queued. *)
Record timers_listed (st : State) : Prop := {
  listed_immediates : immediates st = [];
  listed_timers : ∀ t td, timers st !! t = Some td →
    ∃ pq, JsMap.get (t_key td) (pendingQueries st) = Some pq ∧ pq_timer pq = t
}.

(** ** Queries in flight, and stopping *)

(** The promise [p] of a query for [key] is in the table for as long as it
    is pending. *)
Definition listed (p : nat) (key : string) (st : State) : Prop :=
  promises st !! p = Some Pending →
  ∃ pq, JsMap.get key (pendingQueries st) = Some pq ∧ pq_promise pq = p.

(** Every pending promise has its timer armed. *)
Definition armed (st : State) : Prop :=
  ∀ p, promises st !! p = Some Pending → is_Some (timers st !! p).

(** Once a query for a key is under way, and until its promise is settled,
    no call for the key sends anything; [clean] restricts the state the
    query starts in and [allowed] what happens after. *)
Definition single_flight (i : impl) (clean : State → Prop)
    (allowed : list Event → Prop) : Prop :=
  ∀ st name type evs name2 type2,
    reachable i st → is_Some (mdns st) → clean st → allowed evs →
    cache_fresh (cacheKey (normalizeName i name) type) st = None →
    JsMap.get (cacheKey (normalizeName i name) type) (pendingQueries st) = None →
    let st2 := run i evs (resolve i name type st).2 in
    promises st2 !! length (promises st) = Some Pending →
    cacheKey (normalizeName i name2) type2 = cacheKey (normalizeName i name) type →
    transport (resolve i name2 type2 st2).2 = transport st2.

(** In both copies, from every state and whatever happens after. *)
Definition single_flight_claim : Prop :=
  ∀ i, single_flight i (λ _, True) (λ _, True).

(** A transport whose [destroy] takes no callback: [stop()] completes at once. *)
Definition sync_mdns : Mdns :=
  {| destroy_takes_callback := false; socket_closes := true |}.

(** The promise [p] of a query for the name [n] that [stop()] of index.js
    took out of the table: no entry holds it, and it is pending with its
    rejection queued, or rejected by that rejection, or, when [timed],
    rejected by its timeout. *)
Record deferred (p : nat) (n : string) (timed : bool) (st : State) : Prop := {
  deferred_lt : (p < length (promises st))%nat;
  deferred_free : ∀ k pq, JsMap.get k (pendingQueries st) = Some pq → pq_promise pq ≠ p;
  deferred_outcome :
    (promises st !! p = Some Pending ∧
     (∃ pq, pq ∈ immediates st ∧ pq_promise pq = p) ∧
     ∀ td, timers st !! p = Some td → t_name td = n) ∨
    promises st !! p = Some (Rejected stopped_message) ∨
    (timed = true ∧ promises st !! p = Some (Rejected (timeout_message n)))
}.

(** Every query that was pending when the resolver was stopped is rejected
    with 'Resolver stopped' once the deferred callbacks have run, whatever
    the order of the events in between. *)
Definition stop_claim : Prop :=
  ∀ i st k pq evs,
    reachable i st → JsMap.get k (pendingQueries st) = Some pq →
    let st' := run i evs (stop i st) in
    immediates st' = [] →
    promises st' !! pq_promise pq = Some (Rejected stopped_message).

(** ** Facts about strings *)

Module StrFacts.
Import Str.

Lemma app_nil_l (t : string) : EmptyString +:+ t = t.
Proof. reflexivity. Qed.

Lemma app_cons (a : ascii) (s t : string) :
  String a s +:+ t = String a (s +:+ t).
Proof. reflexivity. Qed.

Lemma app_nil_r (s : string) : s +:+ EmptyString = s.
Proof. induction s as [|a s IH]; [done|]. by rewrite app_cons IH. Qed.

Lemma app_assoc (s t u : string) : (s +:+ t) +:+ u = s +:+ (t +:+ u).
Proof. induction s as [|a s IH]; [done|]. by rewrite !app_cons IH. Qed.

Lemma app_inv_head (s t u : string) : s +:+ t = s +:+ u → t = u.
Proof.
  induction s as [|a s IH]; [done|].
  rewrite !app_cons. intros [= H]. by apply IH.
Qed.

Lemma app_length (s t : string) :
  String.length (s +:+ t) = (String.length s + String.length t)%nat.
Proof. induction s as [|a s IH]; [done|]. rewrite app_cons /=. by rewrite IH. Qed.

(** Two ways of cutting one string: one of the cuts is inside the other
    one's right part. *)
Lemma app_eq_app (a b c d : string) :
  a +:+ b = c +:+ d →
  (∃ x, c = a +:+ x ∧ b = x +:+ d) ∨ (∃ x, a = c +:+ x ∧ d = x +:+ b).
Proof.
  revert c. induction a as [|ch a IH]; intros c H.
  - left. exists c. by rewrite app_nil_l in H |- *.
  - destruct c as [|ch' c].
    + right. exists (String ch a). by rewrite app_nil_l in H |- *.
    + rewrite !app_cons in H. injection H as -> H.
      destruct (IH _ H) as [[x [-> ->]]|[x [-> ->]]]; [left|right];
        exists x; by rewrite app_cons.
Qed.

Lemma lower_ascii_idemp (c : ascii) : lower_ascii (lower_ascii c) = lower_ascii c.
Proof. by destruct c as [[] [] [] [] [] [] [] []]. Qed.

Lemma toLowerCase_idemp (s : string) : toLowerCase (toLowerCase s) = toLowerCase s.
Proof. induction s as [|c s IH]; [done|]. by rewrite /= lower_ascii_idemp IH. Qed.

Lemma toLowerCase_app (s t : string) :
  toLowerCase (s +:+ t) = toLowerCase s +:+ toLowerCase t.
Proof. induction s as [|c s IH]; [done|]. by rewrite app_cons /= IH app_cons. Qed.

Lemma endsWith_spec (s suffix : string) :
  endsWith s suffix = true ↔ ∃ p, s = p +:+ suffix.
Proof.
  induction s as [|c s IH]; simpl.
  - case_bool_decide as E.
    + split; [|done]. intros _. exists EmptyString. by rewrite app_nil_l.
    + split; [done|]. intros [[|c p] Hp]; [by rewrite app_nil_l in Hp|done].
  - case_bool_decide as E.
    + split; [|done]. intros _. exists EmptyString. by rewrite app_nil_l.
    + rewrite IH. split.
      * intros [p ->]. exists (String c p). by rewrite app_cons.
      * intros [[|c' p] Hp]; [by rewrite app_nil_l in Hp|].
        rewrite app_cons in Hp. injection Hp as -> ->. by exists p.
Qed.

Lemma endsWith_app (p suffix : string) : endsWith (p +:+ suffix) suffix = true.
Proof. apply endsWith_spec. by exists p. Qed.

End StrFacts.

(** ** Facts about maps *)

Module JsMapFacts.
Import JsMap.
Section JsMapFacts.
Context {K V : Type} `{EqDecision K}.

Lemma get_None (k : K) (m : t K V) : get k m = None ↔ k ∉ keys m.
Proof.
  induction m as [|[k' v] m IH]; simpl.
  - split; [|done]. intros _. apply not_elem_of_nil.
  - rewrite not_elem_of_cons. case_decide; [|rewrite IH]; naive_solver.
Qed.

Lemma get_Some_elem (k : K) (v : V) (m : t K V) : get k m = Some v → (k, v) ∈ m.
Proof.
  induction m as [|[k' v'] m IH]; simpl; [done|].
  case_decide.
  - intros [= ->]. subst. apply list_elem_of_here.
  - intros. apply list_elem_of_further. auto.
Qed.

Lemma elem_get (k : K) (v : V) (m : t K V) : wf m → (k, v) ∈ m → get k m = Some v.
Proof.
  induction m as [|[k' v'] m IH]; simpl.
  - intros _ Hin. by apply elem_of_nil in Hin.
  - rewrite /wf /= NoDup_cons. intros [Hk Hm] Hin.
    apply elem_of_cons in Hin as [[= -> ->]|Hin].
    + by rewrite decide_True.
    + rewrite decide_False; [by apply IH|].
      intros ->. apply Hk. apply list_elem_of_fmap. by exists (k', v).
Qed.

Lemma get_set_eq (k : K) (v : V) (m : t K V) : get k (set k v m) = Some v.
Proof.
  induction m as [|[k' v'] m IH]; simpl.
  - by rewrite decide_True.
  - case_decide; simpl; [by rewrite decide_True|by rewrite decide_False].
Qed.

Lemma get_set_ne (k k' : K) (v : V) (m : t K V) :
  k ≠ k' → get k' (set k v m) = get k' m.
Proof.
  intros Hne. induction m as [|[k0 v0] m IH]; simpl.
  - by rewrite decide_False.
  - case_decide; simpl.
    + subst. rewrite !decide_False; auto.
    + case_decide; auto.
Qed.

Lemma get_delete_ne (k k' : K) (m : t K V) :
  k ≠ k' → get k' (delete k m) = get k' m.
Proof.
  intros Hne. induction m as [|[k0 v0] m IH]; simpl; [done|].
  case_decide; simpl.
  - subst. by rewrite decide_False.
  - case_decide; auto.
Qed.

Lemma delete_absent (k : K) (m : t K V) : get k m = None → delete k m = m.
Proof.
  induction m as [|[k0 v0] m IH]; simpl; [done|].
  case_decide; [done|]. intros. f_equal. auto.
Qed.

Lemma get_delete_eq (k : K) (m : t K V) : wf m → get k (delete k m) = None.
Proof.
  induction m as [|[k0 v0] m IH]; simpl; [done|].
  rewrite /wf /= NoDup_cons. intros [Hk Hm]. case_decide.
  - subst. by apply get_None.
  - simpl. rewrite decide_False; auto.
Qed.

Lemma set_absent (k : K) (v : V) (m : t K V) :
  get k m = None → set k v m = m ++ [(k, v)].
Proof.
  induction m as [|[k0 v0] m IH]; simpl; [done|].
  case_decide; [done|]. intros. f_equal. auto.
Qed.

Lemma keys_set_present (k : K) (v : V) (m : t K V) :
  is_Some (get k m) → keys (set k v m) = keys m.
Proof.
  induction m as [|[k0 v0] m IH]; simpl.
  - by intros [? ?].
  - case_decide; simpl; [by subst|]. intros. f_equal. by apply IH.
Qed.

Lemma size_set_present (k : K) (v : V) (m : t K V) :
  is_Some (get k m) → size (set k v m) = size m.
Proof.
  intros Hk. rewrite /size -!(length_fmap fst). by rewrite -/(keys _) keys_set_present.
Qed.

Lemma size_set_absent (k : K) (v : V) (m : t K V) :
  get k m = None → size (set k v m) = S (size m).
Proof. intros Hk. rewrite set_absent // /size length_app /=. lia. Qed.

Lemma size_set_le (k : K) (v : V) (m : t K V) :
  (size (set k v m) ≤ S (size m))%nat.
Proof.
  destruct (get k m) eqn:E.
  - rewrite size_set_present; [lia|by eauto].
  - rewrite size_set_absent; [lia|done].
Qed.

Lemma keys_delete_sub (k k' : K) (m : t K V) : k' ∈ keys (delete k m) → k' ∈ keys m.
Proof.
  induction m as [|[k0 v0] m IH]; simpl; [done|].
  case_decide; simpl.
  - intros. by apply list_elem_of_further.
  - rewrite !elem_of_cons. naive_solver.
Qed.

Lemma wf_set (k : K) (v : V) (m : t K V) : wf m → wf (set k v m).
Proof.
  intros Hm. destruct (get k m) eqn:E.
  - rewrite /wf keys_set_present; [done|by eauto].
  - rewrite /wf set_absent // /keys fmap_app /=.
    apply NoDup_app. split_and!; [done| |apply NoDup_singleton].
    intros x Hx Hx'. apply list_elem_of_singleton in Hx'. subst.
    by apply get_None in E.
Qed.

Lemma wf_delete (k : K) (m : t K V) : wf m → wf (delete k m).
Proof.
  induction m as [|[k0 v0] m IH]; simpl; [done|].
  rewrite /wf /= NoDup_cons. intros [Hk Hm]. case_decide; [done|].
  simpl. apply NoDup_cons. split; [|by apply IH].
  intros Hin. apply Hk. by eapply keys_delete_sub.
Qed.

Lemma wf_tail (e : K * V) (m : t K V) : wf (e :: m) → wf m.
Proof. rewrite /wf /= NoDup_cons. naive_solver. Qed.

Lemma size_delete_present (k : K) (m : t K V) :
  is_Some (get k m) → S (size (delete k m)) = size m.
Proof.
  induction m as [|[k0 v0] m IH]; simpl.
  - by intros [? ?].
  - case_decide; [done|]. intros. simpl. f_equal. by apply IH.
Qed.

Lemma size_delete_le (k : K) (m : t K V) : (size (delete k m) ≤ size m)%nat.
Proof.
  destruct (get k m) eqn:E.
  - rewrite -(size_delete_present k m); [lia|by eauto].
  - by rewrite delete_absent.
Qed.

Lemma has_true (k : K) (m : t K V) : has k m = true ↔ is_Some (get k m).
Proof.
  rewrite /has. by destruct (get k m) as [v|]; split; intros Hk.
Qed.

End JsMapFacts.
End JsMapFacts.

(** ** Basic facts *)

Section Promises.
Implicit Types (ps : list Outcome) (p q : nat) (o : Outcome).

Lemma settle_in_length p o ps : length (settle_in p o ps) = length ps.
Proof.
  rewrite /settle_in. destruct (ps !! p) as [[]|]; try done.
  by rewrite length_insert.
Qed.

Lemma settle_in_other p q o ps : p ≠ q → settle_in p o ps !! q = ps !! q.
Proof.
  intros Hne. rewrite /settle_in. destruct (ps !! p) as [[]|]; try done.
  by rewrite list_lookup_insert_ne.
Qed.

Lemma settle_in_pending p o ps :
  ps !! p = Some Pending → settle_in p o ps !! p = Some o.
Proof.
  intros Hp. rewrite /settle_in Hp. apply list_lookup_insert_eq.
  by eapply lookup_lt_Some.
Qed.

(** A settled promise keeps its outcome. *)
Lemma settle_in_settled p q o o' ps :
  ps !! q = Some o' → o' ≠ Pending → settle_in p o ps !! q = Some o'.
Proof.
  intros Hq Ho'. destruct (decide (p = q)) as [->|Hne].
  - rewrite /settle_in Hq. by destruct o'.
  - by rewrite settle_in_other.
Qed.

Lemma settle_in_idemp p o o' ps :
  o ≠ Pending → settle_in p o' (settle_in p o ps) = settle_in p o ps.
Proof.
  intros Ho. rewrite {1}/settle_in.
  destruct (settle_in p o ps !! p) as [[]|] eqn:E; try done.
  exfalso. revert E. rewrite /settle_in.
  destruct (ps !! p) as [[]|] eqn:E'; rewrite ?E'; try done.
  rewrite list_lookup_insert_eq; [|by eapply lookup_lt_Some]. by intros [= ->].
Qed.
End Promises.

Section CachePut.
Implicit Types (c : JsMap.t string CacheEntry) (e : CacheEntry) (k : string).

Lemma first_key_delete {V} (m : JsMap.t string V) (k : string) :
  JsMap.first_key m = Some k → JsMap.delete k m = tail m.
Proof.
  destruct m as [|[k0 v0] m]; simpl; [done|].
  intros [= ->]. by rewrite decide_True.
Qed.

(** The size check removes the head of the map. *)
Lemma cache_put_eq cap k e c :
  cache_put cap k e c =
    if bool_decide (cap < Z.of_nat (JsMap.size (JsMap.set k e c)))
    then tail (JsMap.set k e c) else JsMap.set k e c.
Proof.
  rewrite /cache_put. case_bool_decide; [|done].
  destruct (JsMap.first_key (JsMap.set k e c)) as [k0|] eqn:E.
  - by apply first_key_delete.
  - by destruct (JsMap.set k e c) as [|[??]?].
Qed.

Lemma get_tail {V} (m : JsMap.t string V) (k : string) (v : V) :
  JsMap.wf m → JsMap.get k (tail m) = Some v → JsMap.get k m = Some v.
Proof.
  destruct m as [|[k0 v0] m]; simpl; [done|].
  intros Hwf Hk. rewrite decide_False; [done|].
  intros ->. apply JsMapFacts.get_Some_elem in Hk.
  rewrite /JsMap.wf /= NoDup_cons in Hwf. destruct Hwf as [Hk0 _].
  apply Hk0. apply list_elem_of_fmap. by exists (k0, v).
Qed.

Lemma cache_put_wf cap k e c : JsMap.wf c → JsMap.wf (cache_put cap k e c).
Proof.
  intros Hc. rewrite cache_put_eq. pose proof (JsMapFacts.wf_set k e c Hc) as H1.
  case_bool_decide; [|done].
  destruct (JsMap.set k e c) as [|x m]; [done|]. by eapply JsMapFacts.wf_tail.
Qed.

Lemma cache_put_size cap cap' k e c :
  cap ≤ cap' → 0 ≤ cap' →
  Z.of_nat (JsMap.size c) ≤ cap' →
  Z.of_nat (JsMap.size (cache_put cap k e c)) ≤ cap'.
Proof.
  intros Hcap Hpos Hc. rewrite cache_put_eq.
  pose proof (JsMapFacts.size_set_le k e c) as Hle.
  rewrite /JsMap.size in Hc Hle |- *.
  case_bool_decide as Hgt; [|lia].
  destruct (JsMap.set k e c) as [|x m]; simpl in *; lia.
Qed.

(** An entry found under another key after a put was there before. *)
Lemma cache_put_get_other cap k k' e e' c :
  JsMap.wf c → k ≠ k' →
  JsMap.get k' (cache_put cap k e c) = Some e' → JsMap.get k' c = Some e'.
Proof.
  intros Hc Hne. rewrite cache_put_eq.
  pose proof (JsMapFacts.wf_set k e c Hc) as H1.
  case_bool_decide.
  - intros Hk'. apply get_tail in Hk'; [|done]. by rewrite JsMapFacts.get_set_ne in Hk'.
  - by rewrite JsMapFacts.get_set_ne.
Qed.
End CachePut.

(** ** The invariant of the resolver *)

Lemma pending_resolve_discard pq addr st :
  pending_resolve pq addr st =
    discard (pq_key pq) (pq_timer pq) (pq_promise pq) (Fulfilled addr) st.
Proof. reflexivity. Qed.

Lemma pending_reject_discard pq message st :
  pending_reject pq message st =
    discard (pq_key pq) (pq_timer pq) (pq_promise pq) (Rejected message) st.
Proof. reflexivity. Qed.

Lemma fire_timer_discard t td st :
  timers st !! t = Some td → t_due td ≤ clock st →
  fire_timer t st =
    discard (t_key td) t (t_promise td) (Rejected (timeout_message (t_name td))) st.
Proof. intros Ht Hdue. by rewrite /fire_timer Ht bool_decide_true. Qed.

Lemma Inv_init o now : Inv (init o now).
Proof.
  split; simpl; try done.
  - apply NoDup_nil_2.
  - apply NoDup_nil_2.
  - rewrite /JsMap.size /=. lia.
  - intros pq Hpq. by apply elem_of_nil in Hpq.
Qed.

Lemma closure_ok_pending st k pq :
  Inv st → JsMap.get k (pendingQueries st) = Some pq →
  closure_ok st (pq_key pq) (pq_timer pq) (pq_promise pq).
Proof.
  intros HI Hk. destruct (inv_pending st HI k pq Hk) as (-> & Hpt & _ & td & Htd & Hkey).
  split; [done|]. intros td' Htd'. congruence.
Qed.

Lemma closure_ok_timer st t td :
  Inv st → timers st !! t = Some td → closure_ok st (t_key td) t (t_promise td).
Proof.
  intros HI Ht. destruct (inv_timers st HI t td Ht) as (Hp & _).
  split; [done|]. intros td' Htd'. congruence.
Qed.

Lemma closure_ok_immediate st pq :
  Inv st → pq ∈ immediates st →
  closure_ok st (pq_key pq) (pq_timer pq) (pq_promise pq).
Proof.
  intros HI Hpq. destruct (inv_immediates st HI pq Hpq) as (Hpt & _ & Hkey).
  by split.
Qed.

Lemma Inv_discard key t p o st :
  Inv st → closure_ok st key t p → Inv (discard key t p o st).
Proof.
  intros HI [-> Hkey]. split; simpl.
  - apply HI.
  - apply JsMapFacts.wf_delete, HI.
  - apply HI.
  - rewrite settle_in_length. apply HI.
  - intros t' td' [Hne Ht']%lookup_delete_Some.
    destruct (inv_timers st HI t' td' Ht') as (? & ? & ?).
    split_and!; [done..|]. by rewrite settle_in_other.
  - intros k pq Hk.
    destruct (decide (key = k)) as [->|Hne].
    { rewrite JsMapFacts.get_delete_eq in Hk; [done|apply HI]. }
    rewrite JsMapFacts.get_delete_ne in Hk; [|done].
    destruct (inv_pending st HI k pq Hk) as (Hk1 & Hpt & Hp & td & Htd & Htk).
    assert (t ≠ pq_timer pq) as Hnt.
    { intros ->. apply Hne. rewrite -Htk. symmetry. by apply Hkey. }
    split_and!; try done.
    + rewrite settle_in_other; [done|congruence].
    + exists td. by rewrite lookup_delete_ne.
  - intros pq Hpq. destruct (inv_immediates st HI pq Hpq) as (Hpt & Hlt & Hk).
    split_and!; try done. intros td [_ Htd]%lookup_delete_Some. by apply Hk.
  - intros k pq e Hk Hc.
    destruct (decide (key = k)) as [->|Hne].
    { rewrite JsMapFacts.get_delete_eq in Hk; [done|apply HI]. }
    rewrite JsMapFacts.get_delete_ne in Hk; [|done]. by eapply (inv_stale st HI).
Qed.

Lemma Inv_pending_delete key st : Inv st → Inv (pending_delete key st).
Proof.
  intros HI. split; simpl; try apply HI.
  - apply JsMapFacts.wf_delete, HI.
  - intros k pq Hk.
    destruct (decide (key = k)) as [->|Hne].
    { rewrite JsMapFacts.get_delete_eq in Hk; [done|apply HI]. }
    rewrite JsMapFacts.get_delete_ne in Hk; [|done]. by apply HI.
  - intros k pq e Hk Hc.
    destruct (decide (key = k)) as [->|Hne].
    { rewrite JsMapFacts.get_delete_eq in Hk; [done|apply HI]. }
    rewrite JsMapFacts.get_delete_ne in Hk; [|done]. by eapply (inv_stale st HI).
Qed.

(** The invariant reads the fields below only, and the clock may advance. *)
Lemma Inv_same st st' :
  options st' = options st → cache st' = cache st →
  pendingQueries st' = pendingQueries st → promises st' = promises st →
  timers st' = timers st → next_timer st' = next_timer st →
  immediates st' = immediates st → clock st ≤ clock st' →
  Inv st → Inv st'.
Proof.
  intros Ho Hc Hp Hps Ht Hn Hi Hclk HI.
  split; rewrite ?Ho ?Hc ?Hp ?Hps ?Ht ?Hn ?Hi; try apply HI.
  intros k pq e Hk He. pose proof (inv_stale st HI k pq e Hk He). lia.
Qed.

Ltac inv_same := eapply Inv_same; [..|eassumption]; simpl; (done || lia).

Lemma Inv_emit e st : Inv st → Inv (emit e st).
Proof. intros. inv_same. Qed.

Lemma Inv_call_transport c st : Inv st → Inv (call_transport c st).
Proof. intros. inv_same. Qed.

Lemma Inv_set_mdns m st : Inv st → Inv (set_mdns m st).
Proof. intros. inv_same. Qed.

Lemma Inv_set_closing q st : Inv st → Inv (set_closing q st).
Proof. intros. inv_same. Qed.

Lemma Inv_socket_close m st : Inv st → Inv (socket_close m st).
Proof. intros. rewrite /socket_close. destruct (socket_closes m); [inv_same|done]. Qed.

Lemma Inv_finish st : Inv st → Inv (finish st).
Proof. intros. inv_same. Qed.

Lemma Inv_tick ms st : Inv st → Inv (set_clock (clock st + Z.of_N ms) st).
Proof. intros. inv_same. Qed.

Lemma Inv_clearCache st : Inv st → Inv (clearCache st).
Proof.
  intros HI. split; simpl; try apply HI.
  - apply NoDup_nil_2.
  - rewrite /JsMap.size /=. lia.
  - done.
Qed.

Lemma cache_fresh_None key st e :
  cache_fresh key st = None → JsMap.get key (cache st) = Some e →
  expires e ≤ clock st.
Proof.
  rewrite /cache_fresh. intros Hf He. rewrite He in Hf.
  case_bool_decide; [done|lia].
Qed.

Lemma Inv_issue_query name type key st :
  Inv st → cache_fresh key st = None →
  JsMap.get key (pendingQueries st) = None →
  Inv (issue_query name type key st).2.
Proof.
  intros HI Hfresh Hnone. split; simpl.
  - apply HI.
  - apply JsMapFacts.wf_set, HI.
  - apply HI.
  - rewrite length_app /= (inv_counter st HI). lia.
  - intros t td [[<- <-]|[Hne Ht]]%lookup_insert_Some; simpl.
    + rewrite (inv_counter st HI). split_and!; [done|lia|].
      by apply list_lookup_middle.
    + destruct (inv_timers st HI t td Ht) as (? & ? & Hp). split_and!; [done|lia|].
      rewrite lookup_app_l; [done|by eapply lookup_lt_Some].
  - intros k pq. destruct (decide (key = k)) as [->|Hne].
    + rewrite JsMapFacts.get_set_eq. intros [= <-]. simpl.
      split_and!; try done.
      * by rewrite (inv_counter st HI).
      * by apply list_lookup_middle.
      * eexists. by rewrite lookup_insert_eq.
    + rewrite JsMapFacts.get_set_ne; [|done]. intros Hk.
      destruct (inv_pending st HI k pq Hk) as (Hk1 & Hpt & Hp & td & Htd & Htk).
      split_and!; try done.
      * rewrite lookup_app_l; [done|by eapply lookup_lt_Some].
      * exists td. split; [|done]. rewrite lookup_insert_ne; [done|].
        destruct (inv_timers st HI _ td Htd) as (? & ? & ?). lia.
  - intros pq Hpq. destruct (inv_immediates st HI pq Hpq) as (Hpt & Hlt & Hk).
    split_and!; [done|lia|].
    intros td. rewrite lookup_insert_ne; [|lia]. apply Hk.
  - intros k pq e. destruct (decide (key = k)) as [->|Hne].
    + intros _ He. by eapply cache_fresh_None.
    + rewrite JsMapFacts.get_set_ne; [|done]. apply HI.
Qed.

Lemma Inv_resolve i name type st : Inv st → Inv (resolve i name type st).2.
Proof.
  intros HI. rewrite /resolve. destruct (mdns st); [|done].
  destruct (cache_fresh _ st) eqn:Hf; [by apply Inv_emit|].
  destruct (JsMap.get _ (pendingQueries st)) eqn:Hp; [done|].
  by apply Inv_issue_query.
Qed.

Lemma Inv_cache_put key e st :
  Inv st → JsMap.get key (pendingQueries st) = None →
  Inv (set_cache (cache_put (cacheSize (options st)) key e (cache st)) st).
Proof.
  intros HI Hnone. split; simpl; try apply HI.
  - apply cache_put_wf, HI.
  - apply cache_put_size; [lia|lia|apply HI].
  - intros k pq e' Hk He'.
    assert (key ≠ k) as Hne by (intros ->; congruence).
    apply cache_put_get_other in He'; [|apply HI|done].
    by eapply (inv_stale st HI).
Qed.

Lemma discard_set_cache key t p o c st :
  discard key t p o (set_cache c st) = set_cache c (discard key t p o st).
Proof. reflexivity. Qed.

Lemma Inv_handle_answer i a st : Inv st → Inv (handle_answer i a st).
Proof.
  intros HI. rewrite /handle_answer. destruct (is_address_type _); [|done].
  apply Inv_emit. simpl.
  destruct (JsMap.get _ (pendingQueries st)) as [pq|] eqn:Hp.
  - rewrite pending_resolve_discard discard_set_cache.
    pose proof (closure_ok_pending st _ pq HI Hp) as Hok.
    destruct (inv_pending st HI _ pq Hp) as (Hkey & _).
    pose proof (Inv_discard _ _ _ (Fulfilled (a_data a)) st HI Hok) as HI'.
    apply (Inv_cache_put _ _ _ HI'). simpl.
    rewrite Hkey. apply JsMapFacts.get_delete_eq, HI.
  - by apply Inv_cache_put.
Qed.

Lemma Inv_handleResponse i r st : Inv st → Inv (_handleResponse i r st).
Proof.
  rewrite /_handleResponse. destruct (answers r) as [l|]; [|done].
  revert st. induction l as [|a l IH]; intros st HI; [done|].
  simpl. by apply IH, Inv_handle_answer.
Qed.

Lemma Inv_fire_timer t st : Inv st → Inv (fire_timer t st).
Proof.
  intros HI. rewrite /fire_timer. destruct (timers st !! t) as [td|] eqn:Ht; [|done].
  case_bool_decide; [|done].
  apply Inv_discard; [done|]. by apply closure_ok_timer.
Qed.

Lemma Inv_run_immediate st : Inv st → Inv (run_immediate st).
Proof.
  intros HI. rewrite /run_immediate.
  destruct (immediates st) as [|pq rest] eqn:Hq; [done|].
  rewrite pending_reject_discard. apply Inv_discard.
  - split; simpl; try apply HI.
    intros pq' Hpq'. apply (inv_immediates st HI). rewrite Hq. by right.
  - apply (closure_ok_immediate st pq HI). rewrite Hq. by left.
Qed.

Lemma Inv_each_pending body fuel st :
  (∀ name pq st, Inv st → JsMap.get name (pendingQueries st) = Some pq →
                 Inv (body name pq st)) →
  Inv st → Inv (each_pending body fuel st).
Proof.
  intros Hbody. revert st. induction fuel as [|fuel IH]; intros st HI; [done|].
  simpl. destruct (pendingQueries st) as [|[name pq] rest] eqn:Hp; [done|].
  apply IH, Inv_pending_delete, Hbody; [done|].
  by rewrite Hp /= decide_True.
Qed.

Lemma Inv_defer_reject name pq st :
  Inv st → JsMap.get name (pendingQueries st) = Some pq →
  Inv (defer_reject name pq st).
Proof.
  intros HI Hk. split; simpl; try apply HI.
  intros pq' [Hpq'| ->%list_elem_of_singleton]%elem_of_app; [by apply HI|].
  destruct (inv_pending st HI _ _ Hk) as (Hk1 & Hpt & Hp & td & Htd & Htk).
  destruct (inv_timers st HI _ td Htd) as (_ & Hlt & _).
  split_and!; [done..|]. intros td'. rewrite Htd. by intros [= <-]; subst.
Qed.

Lemma Inv_reject_now name pq st :
  Inv st → JsMap.get name (pendingQueries st) = Some pq →
  Inv (reject_now name pq st).
Proof.
  intros HI Hk. rewrite /reject_now pending_reject_discard.
  apply Inv_discard; [done|]. by eapply closure_ok_pending.
Qed.

Lemma Inv_stop i st : Inv st → Inv (stop i st).
Proof.
  intros HI. destruct i; simpl.
  - pose proof (Inv_each_pending defer_reject (JsMap.size (pendingQueries st)) st
                  Inv_defer_reject HI) as HI1.
    destruct (mdns st) as [m|]; [|by apply Inv_emit].
    destruct (destroy_takes_callback m).
    + by apply Inv_set_closing, Inv_call_transport.
    + by apply Inv_finish, Inv_socket_close, Inv_call_transport.
  - apply Inv_emit, Inv_each_pending; [apply Inv_reject_now|].
    destruct (mdns st); [|done]. by apply Inv_set_mdns, Inv_call_transport.
Qed.

Lemma Inv_destroy_done st : Inv st → Inv (destroy_done st).
Proof.
  intros HI. rewrite /destroy_done. destruct (closing st) as [|m rest]; [done|].
  by apply Inv_finish, Inv_socket_close, Inv_set_closing.
Qed.

Lemma Inv_start m st : Inv st → Inv (default st (start m st)).
Proof.
  intros HI. rewrite /start. destruct (mdns st); [done|].
  by apply Inv_emit, Inv_set_mdns.
Qed.

Lemma Inv_step i ev st : Inv st → Inv (step i ev st).
Proof.
  intros HI. destruct ev; simpl.
  - by apply Inv_start.
  - by apply Inv_stop.
  - by apply Inv_resolve.
  - by apply Inv_handleResponse.
  - by apply Inv_fire_timer.
  - by apply Inv_run_immediate.
  - by apply Inv_destroy_done.
  - by apply Inv_clearCache.
  - by apply Inv_tick.
Qed.

Lemma Inv_run i evs st : Inv st → Inv (run i evs st).
Proof.
  revert st. induction evs as [|ev evs IH]; intros st HI; [done|].
  simpl. by apply IH, Inv_step.
Qed.

Lemma reachable_Inv i st : reachable i st → Inv st.
Proof. intros (o & now & evs & ->). apply Inv_run, Inv_init. Qed.

Lemma reachable_run i evs st : reachable i st → reachable i (run i evs st).
Proof.
  intros (o & now & evs0 & ->). exists o, now, (evs0 ++ evs).
  by rewrite /run foldl_app.
Qed.

(** ** What no event undoes *)

Lemma ext_refl st : ext st st.
Proof. split; auto. Qed.

Lemma ext_trans st1 st2 st3 : ext st1 st2 → ext st2 st3 → ext st1 st3.
Proof.
  intros [Hn1 Ht1 Hp1] [Hn2 Ht2 Hp2]. split.
  - lia.
  - intros t Hlt. destruct (Ht2 t) as [->| ->]; [lia|by apply Ht1|by right].
  - eauto.
Qed.

Lemma ext_same st st' :
  promises st' = promises st → timers st' = timers st →
  next_timer st' = next_timer st → ext st st'.
Proof. intros Hp Ht Hn. split; rewrite ?Hp ?Ht ?Hn; auto. Qed.

Lemma ext_discard key t p o st : ext st (discard key t p o st).
Proof.
  split; simpl.
  - done.
  - intros t' _. destruct (decide (t = t')) as [->|Hne].
    + right. apply lookup_delete_eq.
    + left. by apply lookup_delete_ne.
  - intros q o' Hq Ho'. by apply settle_in_settled.
Qed.

Lemma ext_issue_query name type key st : ext st (issue_query name type key st).2.
Proof.
  split; simpl.
  - lia.
  - intros t Hlt. left. apply lookup_insert_ne. lia.
  - intros p o Hp _. rewrite lookup_app_l; [done|by eapply lookup_lt_Some].
Qed.

Lemma ext_resolve i name type st : ext st (resolve i name type st).2.
Proof.
  rewrite /resolve. destruct (mdns st); [|apply ext_refl].
  destruct (cache_fresh _ st); [by apply ext_same|].
  destruct (JsMap.get _ (pendingQueries st)); [apply ext_refl|].
  apply ext_issue_query.
Qed.

Lemma ext_handle_answer i a st : ext st (handle_answer i a st).
Proof.
  rewrite /handle_answer. destruct (is_address_type _); [|apply ext_refl].
  simpl. destruct (JsMap.get _ (pendingQueries st)) as [pq|].
  - eapply ext_trans; [|by apply ext_same].
    rewrite pending_resolve_discard discard_set_cache.
    eapply ext_trans; [apply ext_discard|by apply ext_same].
  - by apply ext_same.
Qed.

Lemma ext_handleResponse i r st : ext st (_handleResponse i r st).
Proof.
  rewrite /_handleResponse. destruct (answers r) as [l|]; [|apply ext_refl].
  revert st. induction l as [|a l IH]; intros st; [apply ext_refl|].
  simpl. eapply ext_trans; [apply ext_handle_answer|apply IH].
Qed.

Lemma ext_fire_timer t st : ext st (fire_timer t st).
Proof.
  rewrite /fire_timer. destruct (timers st !! t) as [td|]; [|apply ext_refl].
  case_bool_decide; [|apply ext_refl].
  apply (ext_discard (t_key td) t (t_promise td)).
Qed.

Lemma ext_run_immediate st : ext st (run_immediate st).
Proof.
  rewrite /run_immediate. destruct (immediates st) as [|pq rest]; [apply ext_refl|].
  rewrite pending_reject_discard.
  eapply ext_trans; [|apply ext_discard]. by apply ext_same.
Qed.

Lemma ext_each_pending body fuel st :
  (∀ name pq st, ext st (body name pq st)) → ext st (each_pending body fuel st).
Proof.
  intros Hbody. revert st. induction fuel as [|fuel IH]; intros st; [apply ext_refl|].
  simpl. destruct (pendingQueries st) as [|[name pq] rest]; [apply ext_refl|].
  eapply ext_trans; [|apply IH].
  eapply ext_trans; [apply (Hbody name pq)|by apply ext_same].
Qed.

Lemma ext_stop i st : ext st (stop i st).
Proof.
  destruct i; simpl.
  - eapply ext_trans.
    + apply (ext_each_pending defer_reject). intros. by apply ext_same.
    + destruct (mdns st) as [m|]; [|by apply ext_same].
      destruct (destroy_takes_callback m); [by apply ext_same|].
      rewrite /socket_close. destruct (socket_closes m); by apply ext_same.
  - set (st1 := match mdns st with
                | Some _ => set_mdns None (call_transport TDestroy st)
                | None => st
                end).
    apply (ext_trans _ st1).
    { rewrite /st1. destruct (mdns st); [by apply ext_same|apply ext_refl]. }
    apply (ext_trans _ (each_pending reject_now (JsMap.size (pendingQueries st1)) st1));
      [|by apply ext_same].
    apply ext_each_pending. intros.
    rewrite /reject_now pending_reject_discard. apply ext_discard.
Qed.

Lemma ext_step i ev st : ext st (step i ev st).
Proof.
  destruct ev; simpl.
  - rewrite /start. destruct (mdns st); [apply ext_refl|by apply ext_same].
  - apply ext_stop.
  - apply ext_resolve.
  - apply ext_handleResponse.
  - apply ext_fire_timer.
  - apply ext_run_immediate.
  - rewrite /destroy_done. destruct (closing st) as [|m rest]; [apply ext_refl|].
    rewrite /socket_close. destruct (socket_closes m); by apply ext_same.
  - by apply ext_same.
  - by apply ext_same.
Qed.

Lemma ext_run i evs st : ext st (run i evs st).
Proof.
  revert st. induction evs as [|ev evs IH]; intros st; [apply ext_refl|].
  simpl. eapply ext_trans; [apply ext_step|apply IH].
Qed.

(** ** The cache *)

Lemma handle_answer_ignored i a st :
  is_address_type (a_type a) = false → handle_answer i a st = st.
Proof. intros H. by rewrite /handle_answer H. Qed.

Lemma handle_answer_cache i a st :
  is_address_type (a_type a) = true →
  cache (handle_answer i a st) =
    cache_put (cacheSize (options st)) (answer_key i a) (answer_entry st a) (cache st).
Proof.
  intros H. rewrite /handle_answer H /=.
  by destruct (JsMap.get _ (pendingQueries st)).
Qed.

Lemma handle_answer_options i a st : options (handle_answer i a st) = options st.
Proof.
  rewrite /handle_answer. destruct (is_address_type _); [|done]. simpl.
  by destruct (JsMap.get _ (pendingQueries st)).
Qed.

Lemma handle_answer_clock i a st : clock (handle_answer i a st) = clock st.
Proof.
  rewrite /handle_answer. destruct (is_address_type _); [|done]. simpl.
  by destruct (JsMap.get _ (pendingQueries st)).
Qed.

(** A lookup, also a cache hit, leaves the cache as it is. *)
Lemma resolve_cache i name type st : cache (resolve i name type st).2 = cache st.
Proof.
  rewrite /resolve. destruct (mdns st); [|done].
  destruct (cache_fresh _ st); [done|].
  by destruct (JsMap.get _ (pendingQueries st)).
Qed.

Lemma get_app_absent {V} (k k' : string) (v : V) (m : JsMap.t string V) :
  JsMap.get k m = None → k ≠ k' → JsMap.get k (m ++ [(k', v)]) = None.
Proof.
  intros Hk Hne. apply JsMapFacts.get_None. rewrite /JsMap.keys fmap_app /=.
  apply JsMapFacts.get_None in Hk. rewrite elem_of_app list_elem_of_singleton. tauto.
Qed.

Lemma is_address_type_true type :
  is_address_type type = true ↔ type = "A" ∨ type = "AAAA".
Proof.
  rewrite /is_address_type orb_true_iff !bool_decide_eq_true. tauto.
Qed.

(** C2.  A put of an address record into a cache whose size is at most
    the capacity leaves the size at most the capacity.  When the cache is
    full and the key is
    new, the put removes exactly the head of the map, the key inserted
    earliest among those present, whatever the expiry of the entries, and
    the size stays equal to the capacity: the new cache is the old one
    without its first entry, followed by the new entry.  Using the cache
    (a lookup by [resolve]) does not change the order. *)
Theorem cache_bounded_fifo (i : impl) (a : Answer) (st : State) :
  JsMap.wf (cache st) →
  Z.of_nat (JsMap.size (cache st)) ≤ cacheSize (options st) →
  let st' := handle_answer i a st in
  Z.of_nat (JsMap.size (cache st')) ≤ cacheSize (options st) ∧
  (is_address_type (a_type a) = true →
   Z.of_nat (JsMap.size (cache st)) = cacheSize (options st) →
   JsMap.get (answer_key i a) (cache st) = None →
     cache st' = tail (cache st ++ [(answer_key i a, answer_entry st a)]) ∧
     Z.of_nat (JsMap.size (cache st')) = cacheSize (options st) ∧
     ∀ k0 e0 rest, cache st = (k0, e0) :: rest →
       cache st' = rest ++ [(answer_key i a, answer_entry st a)] ∧
       JsMap.get k0 (cache st') = None) ∧
  (∀ name type, cache (resolve i name type st).2 = cache st).
Proof.
  intros Hwf Hsize st'. split_and!.
  - rewrite /st'. destruct (is_address_type (a_type a)) eqn:Ha.
    + rewrite handle_answer_cache //.
      apply cache_put_size; [lia| |done].
      pose proof (Nat2Z.is_nonneg (JsMap.size (cache st))). lia.
    + by rewrite handle_answer_ignored.
  - intros Ha Hfull Hnew.
    assert (cache st' = tail (cache st ++ [(answer_key i a, answer_entry st a)])) as Heq.
    { rewrite /st' handle_answer_cache // cache_put_eq JsMapFacts.set_absent //.
      rewrite bool_decide_true //. rewrite /JsMap.size length_app /= -Hfull.
      rewrite /JsMap.size. lia. }
    split_and!; [done| |].
    + rewrite Heq -Hfull /JsMap.size.
      destruct (cache st); simpl; [done|]. rewrite length_app /=. lia.
    + intros k0 e0 rest Hc. rewrite Heq Hc /=. split; [done|].
      rewrite Hc in Hwf Hnew. simpl in Hnew.
      destruct (decide (answer_key i a = k0)) as [|Hne]; [done|].
      apply get_app_absent; [|done].
      rewrite /JsMap.wf /= NoDup_cons in Hwf. destruct Hwf as [Hk0 _].
      by apply JsMapFacts.get_None.
  - intros. apply resolve_cache.
Qed.

Lemma sample_full_reachable : reachable IndexJs sample_full.
Proof. by eexists _, _, _. Qed.

Lemma cache_bounded_fifo_witness :
  let st := sample_full in
  let a := answer_A "test3.local" "192.168.1.3" 120 in
  JsMap.wf (cache st) ∧
  Z.of_nat (JsMap.size (cache st)) ≤ cacheSize (options st) ∧
  cache (handle_answer IndexJs a st) =
    [("test2.local:A", {| address := "192.168.1.2"; expires := 121000 |});
     ("test3.local:A", {| address := "192.168.1.3"; expires := 121000 |})].
Proof.
  intros st a.
  assert (JsMap.wf (cache st)) as Hwf.
  { apply (bool_decide_unpack _). by vm_compute. }
  assert (Z.of_nat (JsMap.size (cache st)) ≤ cacheSize (options st)) as Hsize.
  { by vm_compute. }
  split_and!; [done..|].
  destruct (cache_bounded_fifo IndexJs a st Hwf Hsize) as (_ & Hevict & _).
  destruct Hevict as (-> & _); by vm_compute.
Defined.

Lemma get_Some_size {V} (k : string) (v : V) (m : JsMap.t string V) :
  JsMap.get k m = Some v → (1 ≤ JsMap.size m)%nat.
Proof. destruct m; [done|]. rewrite /JsMap.size /=. lia. Qed.

(** From a reachable state the cache is within the configured capacity as
    soon as it holds an entry. *)
Lemma Inv_cache_within st :
  Inv st → (1 ≤ JsMap.size (cache st))%nat ∨ 0 ≤ cacheSize (options st) →
  Z.of_nat (JsMap.size (cache st)) ≤ cacheSize (options st).
Proof. intros HI H. pose proof (inv_cache_size st HI). lia. Qed.

Lemma cache_put_no_eviction cap k e c :
  is_Some (JsMap.get k c) → Z.of_nat (JsMap.size c) ≤ cap →
  cache_put cap k e c = JsMap.set k e c.
Proof.
  intros Hk Hsize. rewrite cache_put_eq bool_decide_false //.
  rewrite JsMapFacts.size_set_present //. lia.
Qed.

Lemma cache_put_get_same cap k e c :
  JsMap.wf c → 1 ≤ cap → Z.of_nat (JsMap.size c) ≤ cap →
  JsMap.get k (cache_put cap k e c) = Some e.
Proof.
  intros Hwf Hcap Hsize. destruct (JsMap.get k c) as [old|] eqn:Hk.
  - rewrite cache_put_no_eviction //. apply JsMapFacts.get_set_eq.
  - rewrite cache_put_eq. case_bool_decide as Hgt; [|apply JsMapFacts.get_set_eq].
    pose proof (JsMapFacts.get_set_eq k e c) as Hget.
    rewrite JsMapFacts.set_absent // in Hget Hgt |- *.
    destruct c as [|[k0 e0] rest]; simpl in *.
    { rewrite /JsMap.size /= in Hgt. lia. }
    by destruct (decide (k = k0)).
Qed.

Lemma cache_put_get_same_inv cap k e e' c :
  JsMap.wf c → JsMap.get k (cache_put cap k e c) = Some e' → e' = e.
Proof.
  intros Hwf. rewrite cache_put_eq. pose proof (JsMapFacts.wf_set k e c Hwf) as Hwf'.
  pose proof (JsMapFacts.get_set_eq k e c) as Hget.
  case_bool_decide; intros Hk.
  - apply get_tail in Hk; [|done]. congruence.
  - congruence.
Qed.

(** C9.  Ingesting an answer whose key is already in the cache replaces
    the address and the expiry of that key where it stands: nothing is
    evicted, the size is unchanged, the order of the keys (the eviction
    order) is unchanged, and the entries of the other keys are untouched. *)
Theorem reingest_in_place (i : impl) (a : Answer) (st : State) (old : CacheEntry) :
  reachable i st →
  is_address_type (a_type a) = true →
  JsMap.get (answer_key i a) (cache st) = Some old →
  let st' := handle_answer i a st in
  cache st' = JsMap.set (answer_key i a) (answer_entry st a) (cache st) ∧
  JsMap.get (answer_key i a) (cache st') = Some (answer_entry st a) ∧
  JsMap.size (cache st') = JsMap.size (cache st) ∧
  JsMap.keys (cache st') = JsMap.keys (cache st) ∧
  (∀ k, k ≠ answer_key i a → JsMap.get k (cache st') = JsMap.get k (cache st)).
Proof.
  intros HI%reachable_Inv Ha Hold st'.
  assert (cache st' = JsMap.set (answer_key i a) (answer_entry st a) (cache st)) as Heq.
  { rewrite /st' handle_answer_cache // cache_put_no_eviction //.
    apply Inv_cache_within; [done|]. left. by eapply get_Some_size. }
  rewrite Heq. split_and!.
  - done.
  - apply JsMapFacts.get_set_eq.
  - by apply JsMapFacts.size_set_present.
  - by apply JsMapFacts.keys_set_present.
  - intros k Hk. by apply JsMapFacts.get_set_ne.
Qed.

Lemma reingest_in_place_witness :
  let a := answer_A "TEST1.local" "10.0.0.7" 30 in
  cache (handle_answer IndexJs a sample_full) =
    [("test1.local:A", {| address := "10.0.0.7"; expires := 31000 |});
     ("test2.local:A", {| address := "192.168.1.2"; expires := 121000 |})].
Proof.
  intros a.
  destruct (reingest_in_place IndexJs a sample_full
              {| address := "192.168.1.1"; expires := 121000 |}
              sample_full_reachable eq_refl eq_refl) as (-> & _).
  by vm_compute.
Defined.

Lemma answer_ttl_documented o a : answer_ttl o a = documented_ttl o a.
Proof.
  rewrite /answer_ttl /documented_ttl. destruct (a_ttl a) as [t|]; [|done].
  repeat case_bool_decide; try done; lia.
Qed.

(** C7.  The entry written for an answer record carries the TTL of the
    record when that is present and positive and the configured default
    TTL otherwise, and its expiry is the time of ingestion plus that many
    seconds (the clock counts milliseconds).  The entry found under the key
    afterwards is that entry; it is found whenever the capacity is at least
    one.  The [resolved] event reports the same TTL. *)
Theorem ttl_and_expiry (i : impl) (a : Answer) (st : State) :
  reachable i st →
  is_address_type (a_type a) = true →
  let seconds := documented_ttl (options st) a in
  let entry := {| address := a_data a; expires := clock st + seconds * 1000 |} in
  let st' := handle_answer i a st in
  cache st' = cache_put (cacheSize (options st)) (answer_key i a) entry (cache st) ∧
  (∀ e, JsMap.get (answer_key i a) (cache st') = Some e → e = entry) ∧
  (1 ≤ cacheSize (options st) →
     JsMap.get (answer_key i a) (cache st') = Some entry) ∧
  emitted st' =
    emitted st ++ [EvResolved (answerName i a) (a_type a) (a_data a) seconds].
Proof.
  intros HI%reachable_Inv Ha seconds entry st'.
  assert (cache st' = cache_put (cacheSize (options st)) (answer_key i a) entry (cache st))
    as Heq.
  { rewrite /st' handle_answer_cache // /answer_entry answer_ttl_documented //. }
  rewrite Heq. split_and!.
  - done.
  - intros e. apply cache_put_get_same_inv, HI.
  - intros Hcap. apply cache_put_get_same; [apply HI|done|].
    apply Inv_cache_within; [done|]. right. lia.
  - rewrite /st' /handle_answer Ha /= answer_ttl_documented.
    by destruct (JsMap.get _ (pendingQueries st)).
Qed.

Lemma ttl_and_expiry_witness :
  let a0 := {| a_name := "zero.local"; a_type := "AAAA"; a_data := "fe80::1";
               a_ttl := Some 0%N |} in
  JsMap.get "zero.local:AAAA" (cache (handle_answer ResolverJs a0 (init sample_options 5))) =
    Some {| address := "fe80::1"; expires := 120005 |}.
Proof.
  intros a0.
  assert (reachable ResolverJs (init sample_options 5)) as Hr by (by exists sample_options, 5, []).
  destruct (ttl_and_expiry ResolverJs a0 _ Hr eq_refl) as (_ & _ & Hget & _).
  apply Hget. by vm_compute.
Defined.

(** ** resolve *)

Lemma cache_fresh_Some key st e :
  cache_fresh key st = Some e ↔
  JsMap.get key (cache st) = Some e ∧ clock st < expires e.
Proof.
  rewrite /cache_fresh. destruct (JsMap.get key (cache st)) as [c|]; [|naive_solver].
  case_bool_decide; naive_solver.
Qed.

Lemma cache_fresh_None_iff key st :
  cache_fresh key st = None ↔
  ∀ e, JsMap.get key (cache st) = Some e → expires e ≤ clock st.
Proof.
  rewrite /cache_fresh. destruct (JsMap.get key (cache st)) as [c|]; [|naive_solver].
  case_bool_decide as Hc; split; try done.
  - intros He. specialize (He c eq_refl). lia.
  - intros _ e [= <-]. lia.
Qed.

(** A key that is pending has no fresh cache entry. *)
Lemma pending_not_fresh st key pq :
  Inv st → JsMap.get key (pendingQueries st) = Some pq → cache_fresh key st = None.
Proof.
  intros HI Hp. apply cache_fresh_None_iff. intros e He.
  by eapply (inv_stale st HI).
Qed.

(** ** Settlement *)

Lemma handle_answer_pending_hit i a st pq :
  is_address_type (a_type a) = true →
  JsMap.get (answer_key i a) (pendingQueries st) = Some pq →
  promises (handle_answer i a st) =
    settle_in (pq_promise pq) (Fulfilled (a_data a)) (promises st) ∧
  pendingQueries (handle_answer i a st) =
    JsMap.delete (pq_key pq) (pendingQueries st) ∧
  timers (handle_answer i a st) = delete (pq_timer pq) (timers st).
Proof.
  intros Ha Hp. rewrite /handle_answer Ha /=.
  rewrite /answer_key in Hp. by rewrite Hp.
Qed.

Lemma handle_answer_pending_miss i a st :
  JsMap.get (answer_key i a) (pendingQueries st) = None →
  promises (handle_answer i a st) = promises st ∧
  pendingQueries (handle_answer i a st) = pendingQueries st ∧
  timers (handle_answer i a st) = timers st.
Proof.
  intros Hp. rewrite /handle_answer. destruct (is_address_type _); [|done].
  simpl. rewrite /answer_key in Hp. by rewrite Hp.
Qed.

(** C3.  While the resolver runs, [resolve] returns the cached address at
    once, without a call on the transport and without touching the pending
    table, the promises or the timers, if and only if the cache holds an
    entry for the key with [now < expires].  When the entry is missing or
    its expiry is at or before now, the entry is not returned (it stays in
    the cache as it is) and the call goes through the query cycle: when the
    table holds a pending query for the key it returns the promise of that
    query, which is pending, and changes nothing; otherwise it creates one
    pending promise, arms one timer for it, due after the timeout, lists one
    entry under the key, sends one query for the normalized name and the
    type, emits [query] and returns the promise.  Either way the caller
    waits: the promise it holds is pending, and an address record for the
    key that arrives next fulfils it with its address. *)
Theorem cache_freshness (i : impl) (name type : string) (st : State) (m : Mdns) :
  reachable i st → mdns st = Some m →
  let name' := normalizeName i name in
  let key := cacheKey name' type in
  let r := resolve i name type st in
  (∀ e, JsMap.get key (cache st) = Some e → clock st < expires e →
     r = (Returns (address e), emit (EvCacheHit name' type (address e)) st) ∧
     transport r.2 = transport st ∧ pendingQueries r.2 = pendingQueries st ∧
     promises r.2 = promises st ∧ timers r.2 = timers st) ∧
  ((∀ e, JsMap.get key (cache st) = Some e → expires e ≤ clock st) →
     cache r.2 = cache st ∧
     (∀ pending, JsMap.get key (pendingQueries st) = Some pending →
        r = (ReturnsPromise (pq_promise pending), st)) ∧
     (JsMap.get key (pendingQueries st) = None →
        let p := length (promises st) in
        let t := next_timer st in
        r.1 = ReturnsPromise p ∧
        promises r.2 = promises st ++ [Pending] ∧
        timers st !! t = None ∧
        timers r.2 =
          <[t := {| t_key := key; t_name := name'; t_promise := p;
                    t_due := clock st + timer_delay (timeout (options st)) |}]> (timers st) ∧
        pendingQueries r.2 =
          pendingQueries st ++ [(key, {| pq_key := key; pq_timer := t; pq_promise := p |})] ∧
        transport r.2 = transport st ++ [TQuery name' type] ∧
        emitted r.2 = emitted st ++ [EvQuery name' type]) ∧
     ∃ p, r.1 = ReturnsPromise p ∧ promises r.2 !! p = Some Pending ∧
       ∀ a, is_address_type (a_type a) = true → answer_key i a = key →
         promises (handle_answer i a r.2) !! p = Some (Fulfilled (a_data a))) ∧
  ((∃ addr, r.1 = Returns addr) ↔
   (∃ e, JsMap.get key (cache st) = Some e ∧ clock st < expires e)).
Proof.
  intros HI%reachable_Inv Hrun name' key r.
  assert (∀ e, JsMap.get key (cache st) = Some e → clock st < expires e →
            r = (Returns (address e), emit (EvCacheHit name' type (address e)) st)) as Hhit.
  { intros e He Hlt. rewrite /r /resolve Hrun -/name' -/key.
    by rewrite (proj2 (cache_fresh_Some key st e)). }
  assert ((∀ e, JsMap.get key (cache st) = Some e → expires e ≤ clock st) →
            r = match JsMap.get key (pendingQueries st) with
                | Some pending => (ReturnsPromise (pq_promise pending), st)
                | None => issue_query name' type key st
                end) as Hmiss.
  { intros Hstale%cache_fresh_None_iff. by rewrite /r /resolve Hrun -/name' -/key Hstale. }
  assert (Inv r.2) as HIr by (by apply Inv_resolve).
  split_and!.
  - intros e He Hlt. by rewrite (Hhit e He Hlt).
  - intros Hstale. specialize (Hmiss Hstale).
    assert (∀ p pq, r.1 = ReturnsPromise p →
              JsMap.get key (pendingQueries r.2) = Some pq → pq_promise pq = p →
              promises r.2 !! p = Some Pending ∧
              ∀ a, is_address_type (a_type a) = true → answer_key i a = key →
                promises (handle_answer i a r.2) !! p = Some (Fulfilled (a_data a)))
      as Hwait.
    { intros p pq Hp Hpq <-.
      destruct (inv_pending r.2 HIr key pq Hpq) as (_ & _ & Hpend & _).
      split; [done|]. intros a Ha Hk. rewrite -Hk in Hpq.
      destruct (handle_answer_pending_hit i a r.2 pq Ha Hpq) as (-> & _).
      by apply settle_in_pending. }
    destruct (JsMap.get key (pendingQueries st)) as [pending|] eqn:Hp.
    + split_and!; [by rewrite Hmiss|by intros ? [= <-]|done|].
      exists (pq_promise pending).
      destruct (Hwait (pq_promise pending) pending) as [Hw1 Hw2];
        [by rewrite Hmiss..|done|].
      split_and!; [by rewrite Hmiss|done..].
    + split_and!; [by rewrite Hmiss|done| |].
      * intros _. rewrite Hmiss /=. split_and!; try done.
        -- destruct (timers st !! next_timer st) as [td|] eqn:Htd; [|done].
           destruct (inv_timers st HI _ td Htd) as (_ & ? & _). lia.
        -- by apply JsMapFacts.set_absent.
      * exists (length (promises st)).
        destruct (Hwait (length (promises st))
                    {| pq_key := key; pq_timer := next_timer st;
                       pq_promise := length (promises st) |}) as [Hw1 Hw2].
        -- by rewrite Hmiss.
        -- rewrite Hmiss /=. apply JsMapFacts.get_set_eq.
        -- done.
        -- split_and!; [by rewrite Hmiss|done..].
  - split.
    + intros [addr Hr]. destruct (cache_fresh key st) as [e|] eqn:Hf.
      { exists e. by apply cache_fresh_Some. }
      rewrite (Hmiss (proj1 (cache_fresh_None_iff key st) Hf)) in Hr.
      by destruct (JsMap.get key (pendingQueries st)).
    + intros (e & He & Hlt). exists (address e). by rewrite (Hhit e He Hlt).
Qed.

Lemma cache_freshness_witness :
  resolve IndexJs "Test" "A" sample_cached =
    (Returns "192.168.1.100",
     emit (EvCacheHit "test.local" "A" "192.168.1.100") sample_cached) ∧
  (let st := step IndexJs (Tick 60000) sample_cached in
   (resolve IndexJs "Test" "A" st).1 = ReturnsPromise 0 ∧
   transport (resolve IndexJs "Test" "A" st).2 = [TQuery "test.local" "A"]).
Proof.
  assert (reachable IndexJs sample_cached) as Hr by (by eexists _, _, _).
  split.
  - destruct (cache_freshness IndexJs "Test" "A" sample_cached sample_mdns Hr eq_refl)
      as (Hhit & _).
    apply (Hhit {| address := "192.168.1.100"; expires := 61000 |}); by vm_compute.
  - intros st.
    assert (reachable IndexJs st) as Hr'.
    { apply (reachable_run IndexJs [Tick 60000]), Hr. }
    destruct (cache_freshness IndexJs "Test" "A" st sample_mdns Hr' eq_refl)
      as (_ & Hmiss & _).
    destruct Hmiss as (_ & _ & Hnew & _).
    { intros e He. vm_compute in He. injection He as <-. by vm_compute. }
    destruct Hnew as (Hp & _ & _ & _ & _ & Ht & _); [by vm_compute|].
    split; [exact Hp|]. rewrite Ht. by vm_compute.
Defined.

(** A settled promise keeps its outcome, whatever happens next. *)
Lemma settled_stays i evs st p o :
  promises st !! p = Some o → o ≠ Pending → promises (run i evs st) !! p = Some o.
Proof. intros. by eapply (ext_promises st _ (ext_run i evs st)). Qed.

(** A timer that was cleared, or has run, never runs again. *)
Lemma cleared_stays i evs st t :
  (t < next_timer st)%nat → timers st !! t = None →
  fire_timer t (run i evs st) = run i evs st.
Proof.
  intros Hlt Hnone. rewrite /fire_timer.
  destruct (ext_timers st _ (ext_run i evs st) t Hlt) as [-> | ->]; by rewrite ?Hnone.
Qed.

(** An armed timer is cleared or left as it is. *)
Lemma armed_fate i evs st t td :
  (t < next_timer st)%nat → timers st !! t = Some td →
  timers (run i evs st) !! t = Some td ∨ timers (run i evs st) !! t = None.
Proof.
  intros Hlt Htd.
  destruct (ext_timers st _ (ext_run i evs st) t Hlt) as [-> | ->]; auto.
Qed.

Lemma discard_promise_pending key t p o st :
  promises st !! p = Some Pending → promises (discard key t p o st) !! p = Some o.
Proof. intros Hp. by apply settle_in_pending. Qed.

(** C4.  Let a [resolve] call create the pending query of a key, with
    promise [p] and timer [t].  The timer does not run before the timeout
    has elapsed.  If, after any events, the timer is still armed (nothing has
    settled the query) and the timeout has elapsed, the timer runs: the
    promise, until then pending, is rejected with the timeout error that
    names the normalized name of the query, the key leaves the pending
    table and the timer is gone.  From then on nothing settles the promise
    again: the timer never runs a second time, the outcome stays whatever
    follows, and a matching answer ingested right then finds no pending
    entry, settles nothing and leaves the table alone.  The other way
    round, when a matching answer settles the query first, the promise is
    fulfilled with the address, the timer is cleared and its callback never
    runs, and the outcome stays. *)
Theorem timeout_settles_once (i : impl) (name type : string) (st0 : State) :
  reachable i st0 → is_Some (mdns st0) →
  let name' := normalizeName i name in
  let key := cacheKey name' type in
  cache_fresh key st0 = None → JsMap.get key (pendingQueries st0) = None →
  let st1 := (resolve i name type st0).2 in
  let p := length (promises st0) in
  let t := next_timer st0 in
  let due := clock st0 + timer_delay (timeout (options st0)) in
  (resolve i name type st0).1 = ReturnsPromise p ∧
  (∃ pq, JsMap.get key (pendingQueries st1) = Some pq ∧
         pq_promise pq = p ∧ pq_timer pq = t) ∧
  (∀ evs, let st2 := run i evs st1 in clock st2 < due → fire_timer t st2 = st2) ∧
  (∀ evs, let st2 := run i evs st1 in
     is_Some (timers st2 !! t) → due ≤ clock st2 →
     let st3 := fire_timer t st2 in
     promises st2 !! p = Some Pending ∧
     promises st3 !! p = Some (Rejected (timeout_message name')) ∧
     JsMap.get key (pendingQueries st3) = None ∧
     timers st3 !! t = None ∧
     (∀ evs', let st4 := run i evs' st3 in
        promises st4 !! p = Some (Rejected (timeout_message name')) ∧
        fire_timer t st4 = st4) ∧
     (∀ a, answer_key i a = key →
        promises (handle_answer i a st3) = promises st3 ∧
        pendingQueries (handle_answer i a st3) = pendingQueries st3)) ∧
  (∀ evs a pq, let st2 := run i evs st1 in
     JsMap.get key (pendingQueries st2) = Some pq → pq_promise pq = p →
     is_address_type (a_type a) = true → answer_key i a = key →
     let st3 := handle_answer i a st2 in
     promises st3 !! p = Some (Fulfilled (a_data a)) ∧
     JsMap.get key (pendingQueries st3) = None ∧
     timers st3 !! t = None ∧
     (∀ evs', let st4 := run i evs' st3 in
        promises st4 !! p = Some (Fulfilled (a_data a)) ∧
        fire_timer t st4 = st4)).
Proof.
  intros Hreach [m Hrun] name' key Hf Hnone st1 p t due.
  pose proof (reachable_Inv i st0 Hreach) as HI0.
  assert (resolve i name type st0 = issue_query name' type key st0) as Hres.
  { by rewrite /resolve Hrun -/name' -/key Hf Hnone. }
  assert (p = t) as Hpt by (symmetry; apply HI0).
  set (td0 := {| t_key := key; t_name := name'; t_promise := p; t_due := due |}).
  assert (timers st1 !! t = Some td0) as Ht1.
  { rewrite /st1 Hres /=. by rewrite lookup_insert_eq. }
  assert (next_timer st1 = S t) as Hn1 by (by rewrite /st1 Hres).
  assert (∀ evs, Inv (run i evs st1)) as HI2.
  { intros evs. apply (reachable_Inv i), reachable_run.
    destruct Hreach as (o & now & evs0 & ->).
    exists o, now, (evs0 ++ [Resolve name type]). by rewrite /run foldl_app. }
  assert (∀ evs, (S t ≤ next_timer (run i evs st1))%nat) as Hn2.
  { intros evs. rewrite -Hn1. apply (ext_next _ _ (ext_run i evs st1)). }
  split_and!.
  - by rewrite Hres.
  - rewrite /st1 Hres /=. eexists. by rewrite JsMapFacts.get_set_eq.
  - intros evs st2 Hclk. subst st2. rewrite /fire_timer.
    destruct (armed_fate i evs st1 t td0) as [-> | ->]; [lia|done| |done].
    rewrite bool_decide_false //=. lia.
  - intros evs st2 [td Htd] Hdue st3.
    assert (td = td0) as ->.
    { destruct (armed_fate i evs st1 t td0) as [H|H]; [lia|done|..];
        rewrite -/st2 Htd in H; congruence. }
    destruct (inv_timers st2 (HI2 evs) t td0 Htd) as (_ & _ & Hp2).
    rewrite -Hpt in Hp2.
    assert (st3 = discard key t p (Rejected (timeout_message name')) st2) as Hst3.
    { by rewrite /st3 (fire_timer_discard t td0). }
    assert (promises st3 !! p = Some (Rejected (timeout_message name'))) as Hp3.
    { rewrite Hst3. by apply discard_promise_pending. }
    assert (timers st3 !! t = None) as Ht3.
    { rewrite Hst3 /=. apply lookup_delete_eq. }
    assert (JsMap.get key (pendingQueries st3) = None) as Hk3.
    { rewrite Hst3 /=. apply JsMapFacts.get_delete_eq, (HI2 evs). }
    split_and!; try done.
    + intros evs' st4. split.
      * by apply settled_stays.
      * apply cleared_stays; [|done]. rewrite Hst3 /= /st2. specialize (Hn2 evs). lia.
    + intros a Ha. rewrite -Ha in Hk3.
      by destruct (handle_answer_pending_miss i a st3 Hk3) as (? & ? & ?).
  - intros evs a pq st2 Hpq Hpp Ha Hkey st3.
    destruct (inv_pending st2 (HI2 evs) key pq Hpq) as (Hk & Hpt' & Hp2 & _).
    rewrite -Hkey in Hpq.
    destruct (handle_answer_pending_hit i a st2 pq Ha Hpq) as (Hps & Hq & Hts).
    assert (promises st3 !! p = Some (Fulfilled (a_data a))) as Hp3.
    { rewrite /st3 Hps -Hpp. by apply settle_in_pending. }
    assert (timers st3 !! t = None) as Ht3.
    { rewrite /st3 Hts -Hpt' Hpp Hpt. apply lookup_delete_eq. }
    split_and!; try done.
    + rewrite /st3 Hq Hk. apply JsMapFacts.get_delete_eq, (HI2 evs).
    + intros evs' st4. split.
      * by apply settled_stays.
      * apply cleared_stays; [|done]. rewrite /st3.
        pose proof (ext_next _ _ (ext_handle_answer i a st2)) as Hn3.
        specialize (Hn2 evs). rewrite /st2 in Hn3 |- *. lia.
Qed.

Lemma timeout_settles_once_witness :
  let st0 := run IndexJs [Start sample_mdns] (init sample_options 1000) in
  let st1 := (resolve IndexJs "Nonexistent" "A" st0).2 in
  promises (fire_timer 0 (run IndexJs [Tick 5000] st1)) !! 0%nat =
    Some (Rejected "Timeout resolving nonexistent.local").
Proof.
  intros st0 st1.
  assert (reachable IndexJs st0) as Hr by (by eexists _, _, _).
  assert (is_Some (mdns st0)) as Hm by (by eexists).
  assert (cache_fresh (cacheKey (normalizeName IndexJs "Nonexistent") "A") st0 = None)
    as Hf by (by vm_compute).
  assert (JsMap.get (cacheKey (normalizeName IndexJs "Nonexistent") "A")
            (pendingQueries st0) = None) as Hp by (by vm_compute).
  destruct (timeout_settles_once IndexJs "Nonexistent" "A" st0 Hr Hm Hf Hp)
    as (_ & _ & _ & Htimeout & _).
  destruct (Htimeout [Tick 5000]) as (_ & H & _);
    [by vm_compute; eexists|by vm_compute|].
  exact H.
Defined.

(** ** stop *)

(** The loop of index.js moves every entry of the table to the queue of
    immediates. *)
Lemma each_pending_defer_list l st :
  pendingQueries st = l →
  each_pending defer_reject (length l) st =
    set_pending [] (set_immediates (immediates st ++ l.*2) st).
Proof.
  revert st. induction l as [|[name pq] rest IH]; intros st Hl.
  - destruct st; simpl in *; subst. by rewrite /set_pending /set_immediates /= app_nil_r.
  - simpl. rewrite Hl. rewrite IH; [|by rewrite /= Hl /= decide_True].
    rewrite /set_pending /set_immediates /=. f_equal. by rewrite -app_assoc.
Qed.

Lemma each_pending_defer st :
  each_pending defer_reject (JsMap.size (pendingQueries st)) st =
    set_pending [] (set_immediates (immediates st ++ (pendingQueries st).*2) st).
Proof. by apply each_pending_defer_list. Qed.

(** The loop of src/resolver.js rejects every entry of the table. *)
Lemma each_pending_reject_list l st :
  Inv st → pendingQueries st = l →
  let st' := each_pending reject_now (length l) st in
  pendingQueries st' = [] ∧ cache st' = cache st ∧ mdns st' = mdns st ∧
  transport st' = transport st ∧
  ∀ k pq, (k, pq) ∈ l → promises st' !! pq_promise pq = Some (Rejected stopped_message).
Proof.
  revert st. induction l as [|[name pq] rest IH]; intros st HI Hl; simpl.
  - split_and!; try done. intros k pq Hin. by apply elem_of_nil in Hin.
  - rewrite Hl.
    set (st1 := pending_delete name (reject_now name pq st)).
    assert (JsMap.get name (pendingQueries st) = Some pq) as Hget.
    { by rewrite Hl /= decide_True. }
    destruct (inv_pending st HI name pq Hget) as (Hkey & _ & Hpend & _).
    assert (Inv st1) as HI1 by (by apply Inv_pending_delete, Inv_reject_now).
    assert (pendingQueries st1 = rest) as Hl1.
    { rewrite /st1 /= Hkey Hl /= decide_True //.
      apply JsMapFacts.delete_absent, JsMapFacts.get_None.
      pose proof (inv_pending_wf st HI) as Hwf.
      rewrite /JsMap.wf Hl /= NoDup_cons in Hwf. by destruct Hwf. }
    destruct (IH st1 HI1 Hl1) as (Hp & Hc & Hm & Htr & Hrej).
    split_and!; try done.
    intros k pq' [[= -> ->]|Hin]%elem_of_cons; [|by eapply Hrej].
    eapply (ext_promises st1); [|by apply settle_in_pending|done].
    apply ext_each_pending. intros.
    rewrite /reject_now pending_reject_discard. apply ext_discard.
Qed.

Lemma run_immediates_run i st :
  run_immediates st = run i (replicate (length (immediates st)) Immediate) st.
Proof.
  rewrite /run_immediates. generalize (length (immediates st)) as n.
  intros n. revert st. induction n as [|n IH]; intros st; [done|].
  by rewrite Nat.iter_succ_r IH.
Qed.

(** Running the queue rejects the promise of every queued entry that is
    still pending; it touches neither the cache nor the transport, and an
    empty pending table stays empty. *)
Lemma run_immediates_list q st :
  immediates st = q →
  let st' := Nat.iter (length q) run_immediate st in
  cache st' = cache st ∧ mdns st' = mdns st ∧ transport st' = transport st ∧
  closing st' = closing st ∧
  (pendingQueries st = [] → pendingQueries st' = []) ∧
  ∀ pq, pq ∈ q → promises st !! pq_promise pq = Some Pending →
    promises st' !! pq_promise pq = Some (Rejected stopped_message).
Proof.
  revert st. induction q as [|pq0 rest IH]; intros st Hq st'; subst st'.
  - split_and!; try done. intros pq Hin. by apply elem_of_nil in Hin.
  - change (length (pq0 :: rest)) with (S (length rest)). rewrite Nat.iter_succ_r.
    set (st1 := run_immediate st).
    assert (st1 = pending_reject pq0 stopped_message (set_immediates rest st)) as Hst1.
    { by rewrite /st1 /run_immediate Hq. }
    assert (immediates st1 = rest) as Hq1 by (by rewrite Hst1).
    destruct (IH st1 Hq1) as (Hc & Hm & Htr & Hcl & Hemp & Hrej).
    rewrite Hc Hm Htr Hcl. split_and!; try by rewrite Hst1.
    + intros Hnil. apply Hemp. by rewrite Hst1 /= Hnil.
    + intros pq Hin Hpend.
      assert (promises st1 !! pq_promise pq = Some Pending ∨
              promises st1 !! pq_promise pq = Some (Rejected stopped_message)) as [H1|H1].
      { rewrite Hst1 /=. destruct (decide (pq_promise pq0 = pq_promise pq)) as [He|Hne].
        - right. rewrite He. by apply settle_in_pending.
        - left. by rewrite settle_in_other. }
      * apply elem_of_cons in Hin as [->|Hin]; [|by apply Hrej].
        rewrite Hst1 /= in H1. rewrite settle_in_pending // in H1.
      * pose proof (run_immediates_run IndexJs st1) as Hr.
        rewrite /run_immediates Hq1 in Hr. rewrite Hr.
        by apply settled_stays.
Qed.

Lemma destroy_done_fields st :
  let st' := destroy_done st in
  promises st' = promises st ∧ pendingQueries st' = pendingQueries st ∧
  cache st' = cache st ∧
  (mdns st' = None ∨ closing st = [] ∧ mdns st' = mdns st).
Proof.
  rewrite /destroy_done. destruct (closing st) as [|m rest]; simpl.
  { split_and!; try done. by right. }
  rewrite /socket_close. destruct (socket_closes m); simpl;
    split_and!; try done; by left.
Qed.

Lemma stop_index_fields st :
  let st' := stop IndexJs st in
  promises st' = promises st ∧ pendingQueries st' = [] ∧ cache st' = cache st ∧
  immediates st' = immediates st ++ (pendingQueries st).*2 ∧
  (mdns st' = None ∨ closing st' ≠ []) ∧
  (∀ m, mdns st = Some m → ∃ calls, transport st' = transport st ++ TDestroy :: calls).
Proof.
  rewrite /stop each_pending_defer. destruct (mdns st) as [m|] eqn:Hm; simpl.
  - destruct (destroy_takes_callback m); simpl.
    + split_and!; try done.
      * right. by destruct (closing st).
      * intros _ _. by exists [].
    + rewrite /socket_close. destruct (socket_closes m); simpl;
        split_and!; try done; try (by left);
        intros _ _; eexists; by rewrite -!app_assoc.
  - split_and!; try done. by left.
Qed.

Lemma stop_resolver_fields st :
  Inv st →
  let st' := stop ResolverJs st in
  pendingQueries st' = [] ∧ cache st' = cache st ∧ mdns st' = None ∧
  (∀ m, mdns st = Some m → transport st' = transport st ++ [TDestroy]) ∧
  ∀ k pq, JsMap.get k (pendingQueries st) = Some pq →
    promises st' !! pq_promise pq = Some (Rejected stopped_message).
Proof.
  intros HI. rewrite /stop.
  set (st1 := match mdns st with
              | Some _ => set_mdns None (call_transport TDestroy st)
              | None => st
              end).
  assert (Inv st1) as HI1.
  { rewrite /st1. destruct (mdns st); [|done]. by apply Inv_set_mdns, Inv_call_transport. }
  assert (pendingQueries st1 = pendingQueries st) as Hp1.
  { rewrite /st1. by destruct (mdns st). }
  destruct (each_pending_reject_list (pendingQueries st1) st1 HI1 eq_refl)
    as (Hp & Hc & Hm & Htr & Hrej).
  simpl. rewrite Hp Hc Hm Htr. split_and!.
  - done.
  - rewrite /st1. by destruct (mdns st).
  - rewrite /st1. by destruct (mdns st) eqn:E.
  - intros m Hm'. by rewrite /st1 Hm'.
  - intros k pq Hget. apply (Hrej k). rewrite Hp1. by apply JsMapFacts.get_Some_elem.
Qed.

(** ** Names and keys *)

Lemma normalizeName_idemp i x : normalizeName i (normalizeName i x) = normalizeName i x.
Proof.
  assert (∀ l, Str.toLowerCase l = l ∨ i = ResolverJs →
            normalizeName i (if Str.endsWith l local_suffix then l else l +:+ local_suffix)
            = (if Str.endsWith l local_suffix then l else l +:+ local_suffix)) as H.
  { intros l Hl. destruct (Str.endsWith l local_suffix) eqn:E.
    - rewrite /normalizeName. destruct i, Hl as [Hl|?]; try done; by rewrite ?Hl E.
    - rewrite /normalizeName.
      destruct i, Hl as [Hl|?]; try done;
        by rewrite ?StrFacts.toLowerCase_app ?Hl StrFacts.endsWith_app. }
  rewrite {2 3}/normalizeName. destruct i.
  - apply H. left. apply StrFacts.toLowerCase_idemp.
  - apply H. by right.
Qed.

(** [resolve] reads its name argument through [normalizeName] only. *)
Lemma resolve_normalized i h h' type st :
  normalizeName i h = normalizeName i h' → resolve i h type st = resolve i h' type st.
Proof. intros H. by rewrite /resolve H. Qed.

(** The copies differ: src/resolver.js does not fold the case, so a name
    and the same name in capitals get two keys. *)
Lemma normalization_claim_fails : ¬ normalization_claim.
Proof.
  intros H. specialize (H ResolverJs "a" "A" "A" eq_refl eq_refl (or_introl eq_refl)).
  by vm_compute in H.
Qed.

(** The older copy does not fold the case at all. *)
Lemma resolver_js_is_case_sensitive :
  cacheKey (normalizeName ResolverJs "Test") "A" ≠
  cacheKey (normalizeName ResolverJs "test") "A".
Proof. by vm_compute. Qed.

Lemma same_letter_lower c c' :
  same_letter c c' = true → Str.lower_ascii c = Str.lower_ascii c'.
Proof.
  rewrite /same_letter /Str.lower_ascii.
  rewrite !orb_true_iff !andb_true_iff !N.eqb_eq !N.leb_le.
  intros Hcase.
  assert (N_of_ascii c = N_of_ascii c' → c = c') as Hinj.
  { intros Heq. by rewrite -(ascii_N_embedding c) -(ascii_N_embedding c') Heq. }
  destruct (N.leb_spec 65 (N_of_ascii c)), (N.leb_spec (N_of_ascii c) 90),
    (N.leb_spec 65 (N_of_ascii c')), (N.leb_spec (N_of_ascii c') 90); simpl;
    destruct Hcase as [[Heq|[[Hlo Hhi] Hup]]|[[Hlo Hhi] Hup]]; try lia;
    first [ by rewrite (Hinj Heq)
          | by apply Hinj
          | by rewrite -Hup ascii_N_embedding ].
Qed.

Lemma same_spelling_lower s s' :
  same_spelling s s' = true → Str.toLowerCase s = Str.toLowerCase s'.
Proof.
  revert s'. induction s as [|c s IH]; intros [|c' s']; simpl; try done.
  intros [Hc Hs]%andb_true_iff. by rewrite (same_letter_lower c c' Hc) (IH s' Hs).
Qed.

Lemma str_app_inv_tail (s t u : string) : s +:+ u = t +:+ u → s = t.
Proof.
  intros H.
  assert (∀ x : string, x +:+ u = u → x = EmptyString) as Hnil.
  { intros x Hx. apply (f_equal String.length) in Hx.
    rewrite StrFacts.app_length in Hx. destruct x; [done|simpl in Hx; lia]. }
  destruct (StrFacts.app_eq_app _ _ _ _ H) as [(x & -> & Hx)|(x & -> & Hx)];
    symmetry in Hx; apply Hnil in Hx; subst x; by rewrite StrFacts.app_nil_r.
Qed.

Lemma cacheKey_inj_name name name' type :
  cacheKey name type = cacheKey name' type → name = name'.
Proof. rewrite /cacheKey. apply str_app_inv_tail. Qed.

(** C6, amended.  [resolve] appends [.local] to a name that does not end
    with it; index.js lower-cases the name first, src/resolver.js does not
    fold the case.  Let [h] be a name of ASCII characters that does not end
    with the suffix, whatever the case of its letters.  In index.js [h],
    [h] with the suffix added, and every case variant of either lead to the
    same normalized name, the lower-cased [h] with the suffix, hence to the
    same key of the cache and of the pending table, and [resolve] behaves
    the same on all of them.  In src/resolver.js [h] and [h] with the
    suffix added lead to the same key, and no other spelling does.
    Normalizing is idempotent in both copies. *)
Theorem normalization_keys (h h' type : string) (st : State) :
  Str.is_ascii h = true →
  Str.endsWith (Str.toLowerCase h) local_suffix = false →
  same_spelling h h' = true ∨ same_spelling (h +:+ local_suffix) h' = true →
  normalizeName IndexJs h' = Str.toLowerCase h +:+ local_suffix ∧
  normalizeName IndexJs h' = normalizeName IndexJs h ∧
  cacheKey (normalizeName IndexJs h') type = cacheKey (normalizeName IndexJs h) type ∧
  resolve IndexJs h' type st = resolve IndexJs h type st ∧
  normalizeName ResolverJs (h +:+ local_suffix) = normalizeName ResolverJs h ∧
  resolve ResolverJs (h +:+ local_suffix) type st = resolve ResolverJs h type st ∧
  (∀ x, cacheKey (normalizeName ResolverJs x) type =
          cacheKey (normalizeName ResolverJs h) type ↔
        x = h ∨ x = h +:+ local_suffix) ∧
  (∀ i x, normalizeName i (normalizeName i x) = normalizeName i x).
Proof.
  intros _ Hbare Hvar.
  assert (normalizeName IndexJs h = Str.toLowerCase h +:+ local_suffix) as Hh.
  { by rewrite /normalizeName Hbare. }
  assert (normalizeName IndexJs h' = Str.toLowerCase h +:+ local_suffix) as Hh'.
  { rewrite /normalizeName. destruct Hvar as [<-%same_spelling_lower|<-%same_spelling_lower].
    - by rewrite Hbare.
    - by rewrite StrFacts.toLowerCase_app StrFacts.endsWith_app. }
  assert (Str.endsWith h local_suffix = false) as Hbare'.
  { destruct (Str.endsWith h local_suffix) eqn:E; [|done].
    apply StrFacts.endsWith_spec in E as [x ->].
    by rewrite StrFacts.toLowerCase_app StrFacts.endsWith_app in Hbare. }
  assert (normalizeName ResolverJs h = h +:+ local_suffix) as Hr.
  { by rewrite /normalizeName Hbare'. }
  assert (normalizeName ResolverJs (h +:+ local_suffix) = h +:+ local_suffix) as Hr'.
  { by rewrite /normalizeName StrFacts.endsWith_app. }
  split_and!.
  - done.
  - by rewrite Hh Hh'.
  - by rewrite Hh Hh'.
  - apply resolve_normalized. by rewrite Hh Hh'.
  - by rewrite Hr Hr'.
  - apply resolve_normalized. by rewrite Hr Hr'.
  - intros x. split.
    + intros Hk%cacheKey_inj_name. rewrite Hr in Hk. revert Hk. rewrite /normalizeName.
      destruct (Str.endsWith x local_suffix); [by right|].
      intros Hk%str_app_inv_tail. by left.
    + intros [->| ->]; [done|]. by rewrite Hr Hr'.
  - apply normalizeName_idemp.
Qed.

Lemma normalization_keys_witness :
  cacheKey (normalizeName IndexJs "TestHost.LOCAL") "A" =
  cacheKey (normalizeName IndexJs "testhost") "A".
Proof.
  destruct (normalization_keys "testhost" "TestHost.LOCAL" "A" (init sample_options 0))
    as (_ & _ & H & _); [by vm_compute|by vm_compute|by right; vm_compute|exact H].
Defined.

(** ** Responses *)

Lemma handleResponse_app i l1 l2 st :
  _handleResponse i {| answers := Some (l1 ++ l2) |} st =
  _handleResponse i {| answers := Some l2 |} (_handleResponse i {| answers := Some l1 |} st).
Proof. by rewrite /_handleResponse /= foldl_app. Qed.


Lemma cache_put_room cap k e c :
  Z.of_nat (JsMap.size c) + 1 ≤ cap → cache_put cap k e c = JsMap.set k e c.
Proof.
  intros Hroom. rewrite cache_put_eq bool_decide_false //.
  pose proof (JsMapFacts.size_set_le k e c). lia.
Qed.








(** ** Record types other than A and AAAA *)

Lemma has_colon_app x t : has_colon (x +:+ String ":" t) = true.
Proof.
  induction x as [|c x IH]; [done|].
  rewrite StrFacts.app_cons /= IH. apply orb_true_r.
Qed.

(** The key of an address record equals the key of a query only when the
    type of the query is the type of the record, or ends with a colon
    followed by it. *)
Lemma cacheKey_collision name name' type ty :
  ty = "A" ∨ ty = "AAAA" →
  cacheKey name type = cacheKey name' ty →
  type = ty ∨ Str.endsWith type (String ":" ty) = true.
Proof.
  intros Hty. rewrite /cacheKey.
  intros [(x & _ & Hx)|(x & _ & Hx)]%StrFacts.app_eq_app.
  - destruct x as [|c x].
    + left. rewrite StrFacts.app_nil_l in Hx. by apply (StrFacts.app_inv_head ":").
    + right. rewrite !StrFacts.app_cons StrFacts.app_nil_l in Hx. injection Hx as _ ->.
      apply StrFacts.endsWith_spec. by exists x.
  - destruct x as [|c x].
    + left. rewrite StrFacts.app_nil_l in Hx. symmetry. by apply (StrFacts.app_inv_head ":").
    + exfalso. rewrite !StrFacts.app_cons !StrFacts.app_nil_l in Hx. injection Hx as _ Hx.
      pose proof (has_colon_app x type) as Hc. rewrite -Hx in Hc.
      by destruct Hty as [-> | ->].
Qed.

Lemma answer_key_distinct i a name type :
  is_address_type (a_type a) = true →
  type ≠ "A" → type ≠ "AAAA" →
  Str.endsWith type ":A" = false → Str.endsWith type ":AAAA" = false →
  answer_key i a ≠ cacheKey name type.
Proof.
  intros Ha%is_address_type_true HA HAAAA HcA HcAAAA Heq. symmetry in Heq.
  apply cacheKey_collision in Heq; [|done].
  destruct Ha as [Ha|Ha]; rewrite Ha in Heq; destruct Heq; congruence.
Qed.

(** An answer under another key leaves a pending entry where it is. *)
Lemma handle_answer_other_key i a st key :
  Inv st → answer_key i a ≠ key ∨ is_address_type (a_type a) = false →
  JsMap.get key (pendingQueries (handle_answer i a st)) =
    JsMap.get key (pendingQueries st).
Proof.
  intros HI Hne. destruct (is_address_type (a_type a)) eqn:Ha.
  - destruct Hne as [Hne|?]; [|done].
    destruct (JsMap.get (answer_key i a) (pendingQueries st)) as [pq|] eqn:Hp.
    + destruct (handle_answer_pending_hit i a st pq Ha Hp) as (_ & -> & _).
      destruct (inv_pending st HI _ pq Hp) as (-> & _).
      by apply JsMapFacts.get_delete_ne.
    + by destruct (handle_answer_pending_miss i a st Hp) as (_ & -> & _).
  - by rewrite handle_answer_ignored.
Qed.

(** The key is the name, a colon and the type, put together: the query
    [("x.local", "b:A")] and the A record of the name ["x.local:b"] share
    the key ["x.local:b:A"], and the record settles the query. *)
Lemma other_types_claim_fails : ¬ other_types_claim.
Proof.
  intros H.
  set (st := run IndexJs [Start sample_mdns; Resolve "x" "b:A"] (init sample_options 0)).
  assert (reachable IndexJs st) as Hr by (by eexists _, _, _).
  assert (JsMap.get (cacheKey (normalizeName IndexJs "x") "b:A") (pendingQueries st) =
            Some {| pq_key := "x.local:b:A"; pq_timer := 0; pq_promise := 0 |}) as Hp.
  { by vm_compute. }
  pose proof (H IndexJs st "x" "b:A"
                {| answers := Some [answer_A "x.local:b" "10.6.6.6" 60] |} _
                Hr ltac:(done) ltac:(done) Hp) as Hclaim.
  by vm_compute in Hclaim.
Qed.

(** C10, amended.  [resolve] takes any string as the record type and
    creates a pending query for it.  A response only handles records whose
    type is exactly ["A"] or ["AAAA"] and builds their key from the type as
    it is.  So a pending query whose type is neither ["A"] nor ["AAAA"] and
    does not end with [":A"] or [":AAAA"] (for instance ["a"], ["aaaa"] or
    ["TXT"]) is left alone by every response: its entry stays in the table,
    its promise stays pending and its timer stays armed; only the timeout
    or [stop] settles it. *)
Theorem other_types_never_answered
    (i : impl) (st : State) (name type : string) (r : Response) (pq : PendingQuery) :
  reachable i st →
  type ≠ "A" → type ≠ "AAAA" →
  Str.endsWith type ":A" = false → Str.endsWith type ":AAAA" = false →
  let key := cacheKey (normalizeName i name) type in
  JsMap.get key (pendingQueries st) = Some pq →
  let st' := _handleResponse i r st in
  JsMap.get key (pendingQueries st') = Some pq ∧
  promises st' !! pq_promise pq = Some Pending ∧
  is_Some (timers st' !! pq_timer pq) ∧
  (∀ a st0, a_type a ≠ "A" → a_type a ≠ "AAAA" → handle_answer i a st0 = st0) ∧
  (∀ st0 m, mdns st0 = Some m → cache_fresh key st0 = None →
     is_Some (JsMap.get key (pendingQueries (resolve i name type st0).2))).
Proof.
  intros HI%reachable_Inv HA HAAAA HcA HcAAAA key Hpq st'.
  assert (Inv st') as HI' by (by apply Inv_handleResponse).
  assert (∀ l st0, Inv st0 → JsMap.get key (pendingQueries st0) = Some pq →
            JsMap.get key (pendingQueries (foldl (λ s a, handle_answer i a s) st0 l))
            = Some pq) as Hfold.
  { induction l as [|a l IH]; intros st0 HI0 Hpq0; [done|].
    simpl. apply IH; [by apply Inv_handle_answer|].
    rewrite handle_answer_other_key //.
    destruct (is_address_type (a_type a)) eqn:Ha; [left|by right].
    by apply answer_key_distinct. }
  assert (JsMap.get key (pendingQueries st') = Some pq) as Hpq'.
  { rewrite /st' /_handleResponse. destruct (answers r) as [l|]; [|done].
    by apply Hfold. }
  destruct (inv_pending st' HI' key pq Hpq') as (_ & _ & Hpend & td & Htd & _).
  split_and!; [done|done|by exists td| |].
  { intros a st0 Ha1 Ha2. apply handle_answer_ignored.
    destruct (is_address_type (a_type a)) eqn:Ha; [|done].
    apply is_address_type_true in Ha. tauto. }
  intros st0 m Hrun Hf. rewrite /resolve Hrun -/key Hf.
  destruct (JsMap.get key (pendingQueries st0)) as [pq0|] eqn:Hp0.
  - by exists pq0.
  - rewrite /= JsMapFacts.get_set_eq. by eexists.
Qed.

Lemma other_types_never_answered_witness :
  let st := run IndexJs [Start sample_mdns; Resolve "test" "a"] (init sample_options 0) in
  promises (_handleResponse IndexJs
              {| answers := Some [answer_A "test.local" "192.168.1.100" 120] |} st)
    !! 0%nat = Some Pending.
Proof.
  intros st.
  assert (reachable IndexJs st) as Hr by (by eexists _, _, _).
  destruct (other_types_never_answered IndexJs st "test" "a"
              {| answers := Some [answer_A "test.local" "192.168.1.100" 120] |}
              {| pq_key := "test.local:a"; pq_timer := 0; pq_promise := 0 |} Hr)
    as (_ & H & _); [done|done|by vm_compute|by vm_compute|by vm_compute|].
  vm_compute in H. vm_compute. exact H.
Defined.

(** ** The scenarios of the test suite *)

(** 'should create resolver with default options' *)
Example default_options :
  mkOptions no_options = {| ttl := 120; cacheSize := 1000; timeout := 5000 |}.
Proof. reflexivity. Qed.

(** 'should limit cache size' *)
Example limit_cache_size :
  getCacheSize
    (run ResolverJs
       [Start sample_mdns;
        Receive {| answers := Some [answer_A "test1.local" "192.168.1.1" 120;
                                    answer_A "test2.local" "192.168.1.2" 120;
                                    answer_A "test3.local" "192.168.1.3" 120] |}]
       (init (mkOptions {| raw_ttl := None; raw_cacheSize := Some 2;
                           raw_timeout := None |}) 0)) = 2%nat.
Proof. by vm_compute. Qed.

(** 'should handle multiple simultaneous queries for same host' *)
Example simultaneous_queries :
  let st0 := run ResolverJs [Start sample_mdns] (init (mkOptions no_options) 0) in
  let r1 := resolve ResolverJs "test.local" "A" st0 in
  let r2 := resolve ResolverJs "test.local" "A" r1.2 in
  let st := _handleResponse ResolverJs
              {| answers := Some [answer_A "test.local" "192.168.1.100" 120] |} r2.2 in
  r1.1 = ReturnsPromise 0 ∧ r2.1 = ReturnsPromise 0 ∧
  promises st = [Fulfilled "192.168.1.100"] ∧
  transport st = [TQuery "test.local" "A"].
Proof. by vm_compute. Qed.

(** 'should handle TTL expiration correctly': an entry with a TTL of one
    second answers at once; 1100 ms later the same call sends a query, and
    times out when no response comes. *)
Example ttl_expiration :
  let o := mkOptions {| raw_ttl := Some 1; raw_cacheSize := None;
                        raw_timeout := Some 1000 |} in
  let st0 := run ResolverJs
               [Start sample_mdns;
                Receive {| answers := Some [answer_A "ttl-test.local" "192.168.1.99" 1] |}]
               (init o 0) in
  let st1 := run ResolverJs [Tick 1100] st0 in
  let r := resolve ResolverJs "ttl-test.local" "A" st1 in
  (resolve ResolverJs "ttl-test.local" "A" st0).1 = Returns "192.168.1.99" ∧
  r.1 = ReturnsPromise 0 ∧
  transport r.2 = [TQuery "ttl-test.local" "A"] ∧
  promises (run ResolverJs [Tick 1000; TimerFires 0] r.2) =
    [Rejected "Timeout resolving ttl-test.local"].
Proof. by vm_compute. Qed.

(** 'should reject pending queries on stop' and 'should clean up on stop' *)
Example clean_up_on_stop :
  let st := run ResolverJs
              [Start sample_mdns;
               Receive {| answers := Some [answer_A "test1.local" "192.168.1.1" 120;
                                           answer_A "test2.local" "192.168.1.2" 120] |};
               Resolve "pending.local" "A"; Stop]
              (init (mkOptions no_options) 0) in
  mdns st = None ∧ getCacheSize st = 2%nat ∧
  promises st = [Rejected "Resolver stopped"] ∧ pendingQueries st = [].
Proof. by vm_compute. Qed.

(** ** What the operations leave alone *)

Lemma sent_queries_app l l' : sent_queries (l ++ l') = sent_queries l ++ sent_queries l'.
Proof.
  induction l as [|c l IH]; [done|]. destruct c; simpl; by rewrite IH.
Qed.

Lemma quiet_refl st : quiet st st.
Proof. by split. Qed.

Lemma quiet_trans st1 st2 st3 : quiet st1 st2 → quiet st2 st3 → quiet st1 st3.
Proof. intros [] []. split; congruence. Qed.

Lemma quiet_same st st' :
  options st' = options st → promises st' = promises st →
  sent_queries (transport st') = sent_queries (transport st) → quiet st st'.
Proof. intros Ho Hp Hq. split; [done| |done]. by rewrite Hp. Qed.

Lemma quiet_discard key t p o st : quiet st (discard key t p o st).
Proof. split; simpl; [done| |done]. apply settle_in_length. Qed.

Lemma quiet_handle_answer i a st : quiet st (handle_answer i a st).
Proof.
  rewrite /handle_answer. destruct (is_address_type _); [|apply quiet_refl].
  simpl. destruct (JsMap.get _ (pendingQueries st)) as [pq|]; [|by apply quiet_same].
  split; simpl; [done| |done]. apply settle_in_length.
Qed.

Lemma quiet_handleResponse i r st : quiet st (_handleResponse i r st).
Proof.
  rewrite /_handleResponse. destruct (answers r) as [l|]; [|apply quiet_refl].
  revert st. induction l as [|a l IH]; intros st; [apply quiet_refl|].
  simpl. eapply quiet_trans; [apply quiet_handle_answer|apply IH].
Qed.

Lemma quiet_fire_timer t st : quiet st (fire_timer t st).
Proof.
  rewrite /fire_timer. destruct (timers st !! t) as [td|]; [|apply quiet_refl].
  case_bool_decide; [|apply quiet_refl].
  apply (quiet_discard (t_key td) t (t_promise td)).
Qed.

Lemma quiet_run_immediate st : quiet st (run_immediate st).
Proof.
  rewrite /run_immediate. destruct (immediates st) as [|pq rest]; [apply quiet_refl|].
  split; simpl; [done| |done]. apply settle_in_length.
Qed.

Lemma quiet_each_pending body fuel st :
  (∀ name pq st, quiet st (body name pq st)) → quiet st (each_pending body fuel st).
Proof.
  intros Hbody. revert st. induction fuel as [|fuel IH]; intros st; [apply quiet_refl|].
  simpl. destruct (pendingQueries st) as [|[name pq] rest]; [apply quiet_refl|].
  eapply quiet_trans; [|apply IH].
  eapply quiet_trans; [apply (Hbody name pq)|by apply quiet_same].
Qed.

Lemma quiet_tail_calls st st' calls :
  options st' = options st → promises st' = promises st →
  transport st' = transport st ++ calls → sent_queries calls = [] → quiet st st'.
Proof.
  intros Ho Hp Ht Hc. split; [done|by rewrite Hp|].
  by rewrite Ht sent_queries_app Hc app_nil_r.
Qed.

Lemma quiet_stop i st : quiet st (stop i st).
Proof.
  destruct i; simpl.
  - rewrite each_pending_defer. destruct (mdns st) as [m|]; [|by apply quiet_same].
    destruct (destroy_takes_callback m).
    + by apply (quiet_tail_calls _ _ [TDestroy]).
    + rewrite /socket_close. destruct (socket_closes m).
      * apply (quiet_tail_calls _ _ [TDestroy; TSocketClose; TRemoveAllListeners]);
          try done. by rewrite /= -!app_assoc.
      * apply (quiet_tail_calls _ _ [TDestroy; TRemoveAllListeners]); try done.
        by rewrite /= -!app_assoc.
  - set (st1 := match mdns st with
                | Some _ => set_mdns None (call_transport TDestroy st)
                | None => st
                end).
    apply (quiet_trans _ st1).
    { rewrite /st1. destruct (mdns st); [|apply quiet_refl].
      by apply (quiet_tail_calls _ _ [TDestroy]). }
    apply (quiet_trans _ (each_pending reject_now (JsMap.size (pendingQueries st1)) st1));
      [|by apply quiet_same].
    apply quiet_each_pending. intros.
    rewrite /reject_now pending_reject_discard. apply quiet_discard.
Qed.

Lemma quiet_destroy_done st : quiet st (destroy_done st).
Proof.
  rewrite /destroy_done. destruct (closing st) as [|m rest]; [apply quiet_refl|].
  rewrite /socket_close. destruct (socket_closes m).
  - apply (quiet_tail_calls _ _ [TSocketClose; TRemoveAllListeners]); try done.
    by rewrite /= -!app_assoc.
  - by apply (quiet_tail_calls _ _ [TRemoveAllListeners]).
Qed.

(** [resolve] is quiet too, unless it creates a pending query: then it adds
    one promise and sends one query, for the normalized name. *)
Lemma resolve_queries i name type st :
  let r := resolve i name type st in
  options r.2 = options st ∧
  (quiet st r.2 ∨
   r.1 = ReturnsPromise (length (promises st)) ∧
   length (promises r.2) = S (length (promises st)) ∧
   sent_queries (transport r.2) =
     sent_queries (transport st) ++ [(normalizeName i name, type)]).
Proof.
  rewrite /resolve. destruct (mdns st); [|split; [done|left; apply quiet_refl]].
  destruct (cache_fresh _ st).
  { split; [done|]. left. by apply quiet_same. }
  destruct (JsMap.get _ (pendingQueries st)) as [pq|] eqn:Hp.
  - split; [done|]. left. apply quiet_refl.
  - split; [done|]. right. simpl. split_and!; [done| |].
    + rewrite length_app /=. lia.
    + by rewrite sent_queries_app.
Qed.

Lemma options_step i ev st : options (step i ev st) = options st.
Proof.
  destruct ev; simpl.
  - rewrite /start. by destruct (mdns st).
  - apply quiet_stop.
  - apply resolve_queries.
  - apply quiet_handleResponse.
  - apply quiet_fire_timer.
  - apply quiet_run_immediate.
  - apply quiet_destroy_done.
  - done.
  - done.
Qed.

Lemma options_run i evs st : options (run i evs st) = options st.
Proof.
  revert st. induction evs as [|ev evs IH]; intros st; [done|].
  by rewrite /= IH options_step.
Qed.

(** X1.  The resolver sends a query only from a [resolve] call that creates
    a pending query, one query per created promise, for the normalized name
    and the type of the call: every other event (a response, a timer, a
    stop, a cache hit, a call that joins a pending query) leaves the list
    of sent queries as it is.  So in every state the number of queries sent
    is the number of promises created: nothing is ever sent again. *)
Theorem queries_only_from_new_resolve (i : impl) (st : State) (ev : Event) :
  reachable i st →
  let st' := step i ev st in
  length (sent_queries (transport st)) = length (promises st) ∧
  (sent_queries (transport st') = sent_queries (transport st) ∧
   length (promises st') = length (promises st) ∨
   ∃ name type, ev = Resolve name type ∧
     (resolve i name type st).1 = ReturnsPromise (length (promises st)) ∧
     length (promises st') = S (length (promises st)) ∧
     sent_queries (transport st') =
       sent_queries (transport st) ++ [(normalizeName i name, type)]).
Proof.
  intros (o & now & evs & ->) st'. split.
  - clear st' ev. induction evs as [|ev evs IH] using rev_ind; [done|].
    rewrite /run foldl_app /= -/(run i evs (init o now)).
    set (st := run i evs (init o now)) in *.
    assert (quiet st (step i ev st) ∨
            length (promises (step i ev st)) = S (length (promises st)) ∧
            length (sent_queries (transport (step i ev st))) =
              S (length (sent_queries (transport st)))) as [Hq|[Hp Hs]].
    { destruct ev; simpl;
        try (left; first [apply quiet_stop | apply quiet_handleResponse
                         | apply quiet_fire_timer | apply quiet_run_immediate
                         | apply quiet_destroy_done | by apply quiet_same]).
      - left. rewrite /start. destruct (mdns st); [apply quiet_refl|by apply quiet_same].
      - destruct (resolve_queries i name type st) as (_ & [?|(_ & Hp & Hs)]); [by left|].
        right. split; [done|]. rewrite Hs length_app /=. lia. }
    + destruct Hq as [_ Hp Hs]. by rewrite Hp Hs.
    + by rewrite Hp Hs IH.
  - set (st := run i evs (init o now)) in *.
    destruct ev; simpl in st'; subst st';
      try (left; split;
           first [apply quiet_stop | apply quiet_handleResponse
                 | apply quiet_fire_timer | apply quiet_run_immediate
                 | apply quiet_destroy_done | done]).
    + left. rewrite /= /start. by destruct (mdns st).
    + simpl. destruct (resolve_queries i name type st) as (_ & [Hq|(Hr & Hp & Hs)]).
      * left. split; apply Hq.
      * right. by exists name, type.
Qed.

Lemma queries_only_from_new_resolve_witness :
  length (sent_queries (transport sample_pending)) = 2%nat ∧
  sent_queries (transport (step IndexJs (Resolve "X.local" "A") sample_pending)) =
    sent_queries (transport sample_pending).
Proof.
  assert (reachable IndexJs sample_pending) as Hr.
  { apply reachable_run. by eexists _, _, _. }
  destruct (queries_only_from_new_resolve IndexJs sample_pending (Resolve "X.local" "A") Hr)
    as [Hn [[Hs _]|(name & type & _ & _ & Hp & _)]].
  - split; [|exact Hs]. rewrite Hn. by vm_compute.
  - exfalso. by vm_compute in Hp.
Defined.

(** ** What a response does *)

Lemma fulfils_refl st : fulfils st st.
Proof. split; auto. Qed.

Lemma fulfils_trans st1 st2 st3 : fulfils st1 st2 → fulfils st2 st3 → fulfils st1 st3.
Proof.
  intros [Hm1 Ht1 Hi1 Hn1 Htm1 Hp1] [Hm2 Ht2 Hi2 Hn2 Htm2 Hp2].
  split; try congruence; [by auto|].
  intros p. destruct (Hp2 p) as [E2|[E2 [addr Ha]]], (Hp1 p) as [E1|[E1 [addr' Ha']]].
  - left. congruence.
  - right. split; [done|]. exists addr'. congruence.
  - right. split; [congruence|]. by exists addr.
  - congruence.
Qed.

Lemma fulfils_handle_answer i a st : fulfils st (handle_answer i a st).
Proof.
  rewrite /handle_answer. destruct (is_address_type _); [|apply fulfils_refl].
  simpl. destruct (JsMap.get _ (pendingQueries st)) as [pq|]; [|by split; auto].
  split; simpl; try done.
  - intros t td [_ ?]%lookup_delete_Some. done.
  - intros p. destruct (decide (pq_promise pq = p)) as [<-|Hne].
    + destruct (promises st !! pq_promise pq) as [[]|] eqn:E.
      * right. split; [done|]. eexists. by apply settle_in_pending.
      * left. by rewrite /settle_in E.
      * left. by rewrite /settle_in E.
      * left. by rewrite /settle_in E.
    + left. by apply settle_in_other.
Qed.

(** X2.  A response never rejects a promise, never creates one, never arms
    a timer, never queues a callback and never calls the transport: all it
    does to the promises is to fulfil pending ones. *)
Theorem response_only_fulfils (i : impl) (r : Response) (st : State) :
  let st' := _handleResponse i r st in
  mdns st' = mdns st ∧ transport st' = transport st ∧
  immediates st' = immediates st ∧
  length (promises st') = length (promises st) ∧
  (∀ t td, timers st' !! t = Some td → timers st !! t = Some td) ∧
  (∀ p, promises st' !! p = promises st !! p ∨
        promises st !! p = Some Pending ∧
        ∃ addr, promises st' !! p = Some (Fulfilled addr)).
Proof.
  intros st'.
  assert (fulfils st st') as [].
  { rewrite /st' /_handleResponse. destruct (answers r) as [l|]; [|apply fulfils_refl].
    clear st'. revert st. induction l as [|a l IH]; intros st; [apply fulfils_refl|].
    simpl. eapply fulfils_trans; [apply fulfils_handle_answer|apply IH]. }
  split_and!; try done. apply quiet_handleResponse.
Qed.

(** The answers of a response are handled in a state with the clock and
    the options of the state the response arrives in. *)
Lemma handle_answers_clock i l st :
  clock (foldl (λ s a, handle_answer i a s) st l) = clock st ∧
  options (foldl (λ s a, handle_answer i a s) st l) = options st.
Proof.
  revert st. induction l as [|a l IH]; intros st; [done|].
  simpl. destruct (IH (handle_answer i a st)) as [-> ->].
  by rewrite handle_answer_clock handle_answer_options.
Qed.

Lemma Inv_handle_answers i l st :
  Inv st → Inv (foldl (λ s a, handle_answer i a s) st l).
Proof. intros HI. by apply (Inv_handleResponse i {| answers := Some l |}). Qed.

(** Answers under other keys leave a pending entry where it is. *)
Lemma handle_answers_other_keys i l st key :
  Inv st →
  (∀ a, a ∈ l → is_address_type (a_type a) = true → answer_key i a ≠ key) →
  JsMap.get key (pendingQueries (foldl (λ s a, handle_answer i a s) st l)) =
    JsMap.get key (pendingQueries st).
Proof.
  revert st. induction l as [|a l IH]; intros st HI Hl; [done|].
  simpl. rewrite IH.
  - apply handle_answer_other_key; [done|].
    destruct (is_address_type (a_type a)) eqn:Ha; [left|by right].
    apply Hl; [by left|done].
  - by apply Inv_handle_answer.
  - intros a' Ha'. apply Hl. by right.
Qed.

(** X3.  A response settles only the keys it carries: a pending query
    whose key is the key of none of the address records of the response
    keeps its entry in the table, its pending promise and its armed
    timer. *)
Theorem response_leaves_other_keys
    (i : impl) (st : State) (l : list Answer) (key : string) (pq : PendingQuery) :
  reachable i st →
  JsMap.get key (pendingQueries st) = Some pq →
  (∀ a, a ∈ l → is_address_type (a_type a) = true → answer_key i a ≠ key) →
  let st' := _handleResponse i {| answers := Some l |} st in
  JsMap.get key (pendingQueries st') = Some pq ∧
  promises st' !! pq_promise pq = Some Pending ∧
  is_Some (timers st' !! pq_timer pq).
Proof.
  intros HI%reachable_Inv Hpq Hl st'.
  assert (JsMap.get key (pendingQueries st') = Some pq) as Hpq'.
  { rewrite /st' /_handleResponse /=. by rewrite handle_answers_other_keys. }
  assert (Inv st') as HI' by (by apply Inv_handleResponse).
  destruct (inv_pending st' HI' key pq Hpq') as (_ & _ & Hpend & td & Htd & _).
  split_and!; [done..|]. by exists td.
Qed.

Lemma response_leaves_other_keys_witness :
  let st' := _handleResponse IndexJs
               {| answers := Some [answer_A "x.local" "10.0.0.1" 60;
                                   answer_A "y.local" "10.0.0.2" 60] |}
               sample_pending in
  JsMap.get "y.local:AAAA" (pendingQueries st') =
    Some {| pq_key := "y.local:AAAA"; pq_timer := 1; pq_promise := 1 |} ∧
  promises st' !! 1%nat = Some Pending.
Proof.
  intros st'.
  assert (reachable IndexJs sample_pending) as Hr.
  { apply reachable_run. by eexists _, _, _. }
  destruct (response_leaves_other_keys IndexJs sample_pending
              [answer_A "x.local" "10.0.0.1" 60; answer_A "y.local" "10.0.0.2" 60]
              "y.local:AAAA"
              {| pq_key := "y.local:AAAA"; pq_timer := 1; pq_promise := 1 |} Hr)
    as (H1 & H2 & _).
  - by vm_compute.
  - intros a Ha _. repeat (apply elem_of_cons in Ha as [->|Ha]; [by vm_compute|]).
    by apply elem_of_nil in Ha.
  - split; [exact H1|exact H2].
Defined.

(** X4.  The first answer wins the promise, the last answer wins the
    cache.  When a response carries several address records of one key,
    the pending query of the key is fulfilled with the address of the first
    of them and leaves the table; the later ones do not change the
    outcome.  The cache, of a capacity of at least one, holds under the key
    of the last record of a response the entry of that record, whatever
    the records before it are. *)
Theorem first_answer_wins
    (i : impl) (st : State) (l1 l2 : list Answer) (a : Answer) :
  reachable i st →
  is_address_type (a_type a) = true →
  (∀ pq,
     (∀ a', a' ∈ l1 → is_address_type (a_type a') = true →
            answer_key i a' ≠ answer_key i a) →
     JsMap.get (answer_key i a) (pendingQueries st) = Some pq →
     promises (_handleResponse i {| answers := Some (l1 ++ a :: l2) |} st)
       !! pq_promise pq = Some (Fulfilled (a_data a)) ∧
     JsMap.get (answer_key i a)
       (pendingQueries (_handleResponse i {| answers := Some (l1 ++ [a]) |} st)) = None) ∧
  (1 ≤ cacheSize (options st) →
   JsMap.get (answer_key i a)
     (cache (_handleResponse i {| answers := Some (l1 ++ [a]) |} st)) =
     Some (answer_entry st a)).
Proof.
  intros HI%reachable_Inv Ha.
  set (st1 := _handleResponse i {| answers := Some l1 |} st).
  assert (Inv st1) as HI1 by (by apply Inv_handleResponse).
  destruct (handle_answers_clock i l1 st) as [Hclk Hopt].
  split.
  - intros pq Hl1 Hpq.
    assert (JsMap.get (answer_key i a) (pendingQueries st1) = Some pq) as Hpq1.
    { rewrite /st1 /_handleResponse /=. by rewrite handle_answers_other_keys. }
    destruct (inv_pending st1 HI1 _ pq Hpq1) as (Hk & _ & Hpend & _).
    destruct (handle_answer_pending_hit i a st1 pq Ha Hpq1) as (Hps & Hq & _).
    split.
    + rewrite (handleResponse_app i l1 (a :: l2)) -/st1.
      change (_handleResponse i {| answers := Some (a :: l2) |} st1)
        with (_handleResponse i {| answers := Some l2 |} (handle_answer i a st1)).
      apply (ext_promises _ _ (ext_handleResponse i _ _)); [|done].
      rewrite Hps. by apply settle_in_pending.
    + rewrite (handleResponse_app i l1 [a]) -/st1.
      change (_handleResponse i {| answers := Some [a] |} st1) with (handle_answer i a st1).
      rewrite Hq Hk. apply JsMapFacts.get_delete_eq, HI1.
  - intros Hcap. rewrite (handleResponse_app i l1 [a]) -/st1.
    change (_handleResponse i {| answers := Some [a] |} st1) with (handle_answer i a st1).
    rewrite handle_answer_cache //.
    assert (answer_entry st1 a = answer_entry st a) as ->.
    { rewrite /answer_entry /st1 /_handleResponse /=. by rewrite Hclk Hopt. }
    assert (options st1 = options st) as Ho1 by (by rewrite /st1 /_handleResponse /=).
    apply cache_put_get_same; [apply HI1|by rewrite Ho1|].
    apply Inv_cache_within; [done|]. right. rewrite Ho1. lia.
Qed.

Lemma first_answer_wins_witness :
  let st := (resolve IndexJs "host" "A" sample_cached).2 in
  let st' := _handleResponse IndexJs
               {| answers := Some [answer_A "host.local" "10.0.0.1" 60;
                                   answer_A "host.local" "10.0.0.2" 60] |} st in
  promises st' !! 0%nat = Some (Fulfilled "10.0.0.1") ∧
  JsMap.get "host.local:A" (cache st') =
    Some (answer_entry st (answer_A "host.local" "10.0.0.2" 60)).
Proof.
  intros st st'.
  assert (reachable IndexJs st) as Hr.
  { apply (reachable_run IndexJs [Resolve "host" "A"]). by eexists _, _, _. }
  split.
  - destruct (first_answer_wins IndexJs st [] [answer_A "host.local" "10.0.0.2" 60]
                (answer_A "host.local" "10.0.0.1" 60) Hr eq_refl) as (H & _).
    destruct (H {| pq_key := "host.local:A"; pq_timer := 0; pq_promise := 0 |})
      as (H1 & _).
    + intros a' Ha'. by apply elem_of_nil in Ha'.
    + by vm_compute.
    + exact H1.
  - destruct (first_answer_wins IndexJs st [answer_A "host.local" "10.0.0.1" 60] []
                (answer_A "host.local" "10.0.0.2" 60) Hr eq_refl) as (_ & H).
    apply H. by vm_compute.
Defined.

(** ** From a response to the next call *)




(** X6.  [resolve] never hands out a promise that is settled: the promise
    it returns is pending, it is the promise of the entry the table holds
    under the key of the call, and the timer of that entry is armed.  So a
    name whose query timed out, was answered or was rejected by a stop is
    asked again by the next call. *)
Theorem resolve_hands_out_pending (i : impl) (name type : string) (st : State) (p : nat) :
  reachable i st →
  (resolve i name type st).1 = ReturnsPromise p →
  let st' := (resolve i name type st).2 in
  promises st' !! p = Some Pending ∧
  ∃ pq, JsMap.get (cacheKey (normalizeName i name) type) (pendingQueries st') = Some pq ∧
        pq_promise pq = p ∧ is_Some (timers st' !! pq_timer pq).
Proof.
  intros HI%reachable_Inv Hp st'.
  assert (Inv st') as HI' by (by apply Inv_resolve).
  assert (∃ pq, JsMap.get (cacheKey (normalizeName i name) type) (pendingQueries st') = Some pq ∧
                pq_promise pq = p) as (pq & Hpq & <-).
  { revert Hp. rewrite /st' /resolve. destruct (mdns st); [|done].
    destruct (cache_fresh _ st); [done|].
    destruct (JsMap.get _ (pendingQueries st)) as [pq|] eqn:E; simpl.
    - intros [= <-]. by exists pq.
    - intros [= <-]. eexists. split; [apply JsMapFacts.get_set_eq|done]. }
  destruct (inv_pending st' HI' _ pq Hpq) as (_ & _ & Hpend & td & Htd & _).
  split; [done|]. exists pq. split_and!; [done..|]. by exists td.
Qed.

Lemma resolve_hands_out_pending_witness :
  let st := run IndexJs [Resolve "x" "A"; Tick 5000; TimerFires 0] sample_cached in
  promises st !! 0%nat = Some (Rejected "Timeout resolving x.local") ∧
  promises (resolve IndexJs "x" "A" st).2 !! 1%nat = Some Pending.
Proof.
  intros st. split; [by vm_compute|].
  assert (reachable IndexJs st) as Hr.
  { apply reachable_run. by eexists _, _, _. }
  destruct (resolve_hands_out_pending IndexJs "x" "A" st 1 Hr) as [H _];
    [by vm_compute|exact H].
Defined.

(** ** The constructor *)

(** X7.  The constructor takes a given option as it is: the spread comes
    after the [||] defaults and overrides them, so a default applies to an
    absent key only, and a given 0 stays 0. *)
Theorem constructor_takes_given_options (o : RawOptions) :
  constructor_options o = mkOptions o ∧
  (∀ v, raw_ttl o = Some v → ttl (constructor_options o) = v) ∧
  (∀ v, raw_cacheSize o = Some v → cacheSize (constructor_options o) = v) ∧
  (∀ v, raw_timeout o = Some v → timeout (constructor_options o) = v) ∧
  (raw_ttl o = None → ttl (constructor_options o) = 120) ∧
  (raw_cacheSize o = None → cacheSize (constructor_options o) = 1000) ∧
  (raw_timeout o = None → timeout (constructor_options o) = 5000).
Proof.
  destruct o as [[t|] [c|] [tm|]]; rewrite /constructor_options /mkOptions /=;
    split_and!; try done; by intros ? [= <-].
Qed.

(** X8.  A resolver constructed with a [cacheSize] of 0 or less caches
    nothing: whatever happens, its cache is empty and no [resolve] call is
    answered from the cache. *)
Theorem nonpositive_cache_size_disables_cache
    (i : impl) (o : RawOptions) (now c : Z) (evs : list Event) :
  raw_cacheSize o = Some c → c ≤ 0 →
  let st := run i evs (construct o now) in
  cache st = [] ∧ getCacheSize st = 0%nat ∧
  ∀ name type addr, (resolve i name type st).1 ≠ Returns addr.
Proof.
  intros Hc Hle st.
  assert (Inv st) as HI by apply Inv_run, Inv_init.
  assert (cache st = []) as Hcache.
  { pose proof (inv_cache_size st HI) as Hsz.
    rewrite /st options_run /construct /= Hc /= -/(construct o now) -/st in Hsz.
    destruct (cache st); [done|]. rewrite /JsMap.size /= in Hsz. lia. }
  split_and!; [done|by rewrite /getCacheSize Hcache|].
  intros name type addr. rewrite /resolve. destruct (mdns st); [|done].
  rewrite /cache_fresh Hcache /=.
  by destruct (JsMap.get _ (pendingQueries st)).
Qed.

Lemma nonpositive_cache_size_disables_cache_witness :
  let st := run IndexJs
              [Start sample_mdns;
               Receive {| answers := Some [answer_A "a.local" "10.0.0.1" 60] |}]
              (construct {| raw_ttl := None; raw_cacheSize := Some 0;
                            raw_timeout := None |} 0) in
  cache st = [] ∧ (resolve IndexJs "a" "A" st).1 ≠ Returns "10.0.0.1".
Proof.
  intros st.
  destruct (nonpositive_cache_size_disables_cache IndexJs
              {| raw_ttl := None; raw_cacheSize := Some 0; raw_timeout := None |} 0 0
              [Start sample_mdns;
               Receive {| answers := Some [answer_A "a.local" "10.0.0.1" 60] |}]
              eq_refl) as (H1 & _ & H2); [lia|].
  split; [exact H1|apply H2].
Defined.

(** ** The cache over a whole response *)

Lemma get_drop_absent {V} (k : string) (n : nat) (m : JsMap.t string V) :
  JsMap.get k m = None → JsMap.get k (drop n m) = None.
Proof.
  rewrite !JsMapFacts.get_None /JsMap.keys. intros Hk Hin. apply Hk.
  apply list_elem_of_fmap in Hin as (x & -> & Hx).
  apply list_elem_of_fmap. exists x. split; [done|].
  rewrite -(take_drop n m). apply elem_of_app. by right.
Qed.

Lemma cache_put_absent cap k e (c : JsMap.t string CacheEntry) :
  JsMap.get k c = None → 0 ≤ cap → Z.of_nat (JsMap.size c) ≤ cap →
  cache_put cap k e c = drop (S (length c) - Z.to_nat cap) (c ++ [(k, e)]).
Proof.
  intros Hk Hcap Hsz. rewrite cache_put_eq JsMapFacts.set_absent //.
  rewrite /JsMap.size length_app /= in Hsz |- *. case_bool_decide as Hd.
  - replace (S (length c) - Z.to_nat cap)%nat with 1%nat by lia.
    by destruct (c ++ [(k, e)]).
  - by replace (S (length c) - Z.to_nat cap)%nat with 0%nat by lia.
Qed.

Lemma cache_put_seq cap (l : list (string * CacheEntry)) (c : JsMap.t string CacheEntry) :
  0 ≤ cap → Z.of_nat (JsMap.size c) ≤ cap →
  NoDup l.*1 → (∀ k, k ∈ l.*1 → JsMap.get k c = None) →
  foldl (λ c x, cache_put cap x.1 x.2 c) c l =
    drop (length (c ++ l) - Z.to_nat cap) (c ++ l).
Proof.
  intros Hcap. revert c. induction l as [|[k e] l IH]; intros c Hsz Hnd Hnew.
  - rewrite app_nil_r. rewrite /JsMap.size in Hsz.
    by replace (length c - Z.to_nat cap)%nat with 0%nat by lia.
  - simpl. apply NoDup_cons in Hnd as [Hk Hnd].
    rewrite cache_put_absent; [|apply Hnew; by left|done..].
    set (m := c ++ [(k, e)]). set (j := (S (length c) - Z.to_nat cap)%nat).
    assert (length m = S (length c)) as Hm by (rewrite /m length_app /=; lia).
    rewrite IH.
    + rewrite -drop_app_le; [|rewrite /j /m length_app /=; lia].
      rewrite drop_drop. f_equal; [|by rewrite /m -app_assoc].
      rewrite /j /m length_drop !length_app /=. lia.
    + rewrite /JsMap.size /j /m length_drop length_app /=. lia.
    + done.
    + intros k' Hk'. apply get_drop_absent, get_app_absent.
      * apply Hnew. by right.
      * intros ->. done.
Qed.

Lemma handle_answers_cache i l st0 st :
  clock st = clock st0 → options st = options st0 →
  cache (foldl (λ s a, handle_answer i a s) st l) =
    foldl (λ c x, cache_put (cacheSize (options st0)) x.1 x.2 c) (cache st)
      ((λ a, (answer_key i a, answer_entry st0 a)) <$>
         filter (λ a, is_address_type (a_type a) = true) l).
Proof.
  revert st. induction l as [|a l IH]; intros st Hclk Hopt; [done|].
  simpl. destruct (is_address_type (a_type a)) eqn:Ha.
  - rewrite filter_cons_True //= IH.
    + by rewrite handle_answer_cache // /answer_entry Hclk Hopt.
    + by rewrite handle_answer_clock.
    + by rewrite handle_answer_options.
  - rewrite filter_cons_False; [|by rewrite Ha].
    rewrite handle_answer_ignored //. by apply IH.
Qed.

(** X9.  First in, first out over a whole response.  When the address
    records of a response have keys that are new to the cache and differ
    from each other, the cache after the response is the old cache followed
    by the entries of the records in the order of the response, cut at the
    front down to [cacheSize] entries.  Records of other types take no
    part. *)
Theorem response_fifo (i : impl) (st : State) (l : list Answer) :
  reachable i st → 0 ≤ cacheSize (options st) →
  let new := (λ a, (answer_key i a, answer_entry st a)) <$>
               filter (λ a, is_address_type (a_type a) = true) l in
  NoDup new.*1 → (∀ k, k ∈ new.*1 → JsMap.get k (cache st) = None) →
  cache (_handleResponse i {| answers := Some l |} st) =
    drop (length (cache st ++ new) - Z.to_nat (cacheSize (options st))) (cache st ++ new).
Proof.
  intros HI%reachable_Inv Hcap new Hnd Hnew.
  rewrite /_handleResponse /= (handle_answers_cache i l st st) // -/new.
  apply cache_put_seq; [done| |done..].
  apply Inv_cache_within; [done|by right].
Qed.

Lemma response_fifo_witness :
  JsMap.keys (cache (_handleResponse IndexJs
    {| answers := Some [answer_A "a.local" "10.0.0.1" 60;
                        {| a_name := "a.local"; a_type := "TXT"; a_data := "x";
                           a_ttl := None |};
                        answer_AAAA "a.local" "fe80::1" 60;
                        answer_A "b.local" "10.0.0.2" 60] |} sample_full)) =
  ["a.local:AAAA"; "b.local:A"].
Proof.
  assert (reachable IndexJs sample_full) as Hr by (by eexists _, _, _).
  rewrite (response_fifo IndexJs sample_full _ Hr).
  - by vm_compute.
  - by vm_compute.
  - apply (bool_decide_unpack _). by vm_compute.
  - intros k Hk.
    repeat (apply elem_of_cons in Hk as [->|Hk]; [by vm_compute|]).
    by apply elem_of_nil in Hk.
Defined.

(** ** Diagnostics and clearing *)

(** X10.  What [getCache] reports.  It lists one line per cache entry;
    the remaining time it gives is never negative and counts whole seconds
    rounded down: an entry reported with [secs > 0] expires between [secs]
    and [secs + 1] seconds from now and is fresh for [resolve]; an entry
    reported with 0 has less than a second left, or has expired. *)
Theorem getCache_reports (i : impl) (st : State) (key addr : string) (secs : Z) :
  reachable i st →
  (key, (addr, secs)) ∈ getCache st →
  length (getCache st) = getCacheSize st ∧
  0 ≤ secs ∧
  ∃ e, JsMap.get key (cache st) = Some e ∧ address e = addr ∧
       (0 < secs →
          clock st + secs * 1000 ≤ expires e < clock st + (secs + 1) * 1000 ∧
          cache_fresh key st = Some e) ∧
       (secs = 0 → expires e < clock st + 1000).
Proof.
  intros HI%reachable_Inv Hin.
  split; [by rewrite /getCache length_fmap|].
  apply list_elem_of_fmap in Hin as ([k e] & [= -> -> ->] & Hin).
  split; [lia|].
  exists e. split; [apply JsMapFacts.elem_get; [apply HI|done]|].
  split; [done|].
  pose proof (Z.div_mod (expires e - clock st) 1000) as Hdm.
  pose proof (Z.mod_pos_bound (expires e - clock st) 1000) as Hmb.
  split.
  - intros Hpos. split; [lia|].
    apply cache_fresh_Some. split; [apply JsMapFacts.elem_get; [apply HI|done]|lia].
  - intros Hz. lia.
Qed.

Lemma getCache_reports_witness :
  ∃ e, JsMap.get "test.local:A" (cache sample_cached) = Some e ∧
       address e = "192.168.1.100" ∧ 61000 ≤ expires e < 62000.
Proof.
  assert (reachable IndexJs sample_cached) as Hr by (by eexists _, _, _).
  destruct (getCache_reports IndexJs sample_cached "test.local:A" "192.168.1.100" 60 Hr)
    as (_ & _ & e & He & Ha & Hs & _).
  - vm_compute. by left.
  - exists e. split_and!; [exact He|exact Ha|..];
      (destruct Hs as [[H1 H2] _]; [lia|]); vm_compute in H1, H2 |- *; done.
Defined.

(** X11.  [clearCache] forgets every entry and touches nothing else: the
    pending queries, their promises and their timers stay.  The next
    [resolve] of a running resolver is never answered from the cache: it
    joins the pending query of its key or sends a new query. *)
Theorem clearCache_forgets (i : impl) (st : State) (m : Mdns) (name type : string) :
  mdns st = Some m →
  let st' := clearCache st in
  let key := cacheKey (normalizeName i name) type in
  getCacheSize st' = 0%nat ∧ getCache st' = [] ∧
  pendingQueries st' = pendingQueries st ∧ promises st' = promises st ∧
  timers st' = timers st ∧ transport st' = transport st ∧
  resolve i name type st' =
    match JsMap.get key (pendingQueries st) with
    | Some pending => (ReturnsPromise (pq_promise pending), st')
    | None => issue_query (normalizeName i name) type key st'
    end.
Proof.
  intros Hm st' key. split_and!; try done.
  by rewrite /resolve /= Hm /cache_fresh /=.
Qed.

Lemma clearCache_forgets_witness :
  (resolve IndexJs "test" "A" sample_cached).1 = Returns "192.168.1.100" ∧
  (resolve IndexJs "test" "A" (clearCache sample_cached)).1 = ReturnsPromise 0.
Proof.
  split; [by vm_compute|].
  destruct (clearCache_forgets IndexJs sample_cached sample_mdns "test" "A" eq_refl)
    as (_ & _ & _ & _ & _ & _ & ->).
  by vm_compute.
Defined.

(** ** Stopping, in index.js *)

(** X12.  index.js, with an instance whose [destroy] takes a callback:
    between [stop()] and the callback the resolver still counts as running.
    [start] throws, and a [resolve] that misses the cache sends its query
    on the instance that is being destroyed, after the [destroy] call.  The
    stop does not reject that query: when the callback has run the resolver
    is stopped, and the promise is still pending, in the table, with its
    timer armed. *)
Theorem query_during_shutdown (st : State) (m : Mdns) (name type : string) :
  reachable IndexJs st →
  mdns st = Some m → destroy_takes_callback m = true →
  let name' := normalizeName IndexJs name in
  let key := cacheKey name' type in
  cache_fresh key st = None →
  let st1 := stop IndexJs st in
  let r := resolve IndexJs name type st1 in
  let st2 := destroy_done r.2 in
  let p := length (promises st) in
  mdns st1 = Some m ∧ (∀ m', start m' st1 = None) ∧
  r.1 = ReturnsPromise p ∧
  transport r.2 = transport st ++ [TDestroy; TQuery name' type] ∧
  mdns st2 = None ∧
  promises st2 !! p = Some Pending ∧
  (∃ pq, JsMap.get key (pendingQueries st2) = Some pq ∧ pq_promise pq = p ∧
         is_Some (timers st2 !! pq_timer pq)) ∧
  (resolve IndexJs name type st2).1 = Throws not_running_message.
Proof.
  intros Hr Hm Hcb name' key Hfresh st1 r st2 p.
  assert (st1 = set_closing (closing st ++ [m])
                  (call_transport TDestroy
                     (set_pending [] (set_immediates
                        (immediates st ++ (pendingQueries st).*2) st)))) as Hst1.
  { by rewrite /st1 /stop Hm Hcb each_pending_defer. }
  assert (r = issue_query name' type key st1) as Hr1.
  { rewrite /r /resolve Hst1 /= Hm -/name' -/key.
    change (cache_fresh key _) with (cache_fresh key st). by rewrite Hfresh. }
  assert (Inv st2) as HI2.
  { apply (Inv_run IndexJs [Stop; Resolve name type; DestroyDone] st).
    by apply (reachable_Inv IndexJs). }
  destruct (destroy_done_fields r.2) as (Hps & Hpq & _ & Hmd).
  assert (mdns st2 = None) as Hm2.
  { destruct Hmd as [Hn|[Hc _]]; [done|].
    rewrite Hr1 Hst1 /= in Hc. by destruct (closing st). }
  assert (JsMap.get key (pendingQueries st2) =
            Some {| pq_key := key; pq_timer := next_timer st; pq_promise := p |}) as Hget.
  { rewrite /st2 Hpq Hr1 Hst1 /=. by rewrite decide_True. }
  destruct (inv_pending st2 HI2 _ _ Hget) as (_ & _ & Hpend & td & Htd & _).
  split_and!.
  - by rewrite Hst1.
  - intros m'. by rewrite /start Hst1 /= Hm.
  - by rewrite Hr1 Hst1.
  - rewrite Hr1 Hst1 /=. by rewrite -app_assoc.
  - done.
  - done.
  - eexists. split_and!; [exact Hget|done|]. by exists td.
  - by rewrite /resolve Hm2.
Qed.

Lemma query_during_shutdown_witness :
  let st1 := stop IndexJs sample_pending in
  let st2 := destroy_done (resolve IndexJs "late" "A" st1).2 in
  mdns st2 = None ∧ promises st2 !! 2%nat = Some Pending.
Proof.
  assert (reachable IndexJs sample_pending) as Hr.
  { apply reachable_run. by eexists _, _, _. }
  destruct (query_during_shutdown sample_pending sample_mdns "late" "A" Hr)
    as (_ & _ & _ & _ & H1 & H2 & _); [by vm_compute..|].
  split; [exact H1|exact H2].
Defined.

(** X13.  index.js: a deferred rejection deletes by key.  When the
    callback queued by a [stop] runs after the same key has become pending
    again (the resolver was restarted and asked in between), it rejects the
    old promise and deletes the entry of the new query: the new promise
    stays pending with its timer armed, but no answer reaches it any
    more. *)
Theorem stale_reject_drops_newer_entry
    (st : State) (pq pq' : PendingQuery) (rest : list PendingQuery) :
  reachable IndexJs st →
  immediates st = pq :: rest →
  JsMap.get (pq_key pq) (pendingQueries st) = Some pq' →
  pq_promise pq' ≠ pq_promise pq →
  let st' := run_immediate st in
  JsMap.get (pq_key pq) (pendingQueries st') = None ∧
  promises st' !! pq_promise pq' = Some Pending ∧
  is_Some (timers st' !! pq_timer pq') ∧
  ∀ a, answer_key IndexJs a = pq_key pq →
    promises (handle_answer IndexJs a st') = promises st'.
Proof.
  intros HI%reachable_Inv Him Hpq' Hne st'.
  destruct (inv_pending st HI _ pq' Hpq') as (_ & Hpt' & Hpend' & td & Htd & _).
  destruct (inv_immediates st HI pq) as (Hpt & _); [rewrite Him; by left|].
  assert (st' = pending_reject pq stopped_message (set_immediates rest st)) as Hst'.
  { by rewrite /st' /run_immediate Him. }
  assert (JsMap.get (pq_key pq) (pendingQueries st') = None) as Hnone.
  { rewrite Hst' /=. apply JsMapFacts.get_delete_eq, HI. }
  split_and!.
  - done.
  - rewrite Hst' /= settle_in_other; [done|congruence].
  - exists td. rewrite Hst' /= lookup_delete_ne; [done|congruence].
  - intros a Ha. rewrite -Ha in Hnone.
    by destruct (handle_answer_pending_miss IndexJs a st' Hnone) as (-> & _).
Qed.

Lemma stale_reject_drops_newer_entry_witness :
  let m0 := {| destroy_takes_callback := false; socket_closes := true |} in
  let st := run IndexJs [Start m0; Resolve "x" "A"; Stop; Start m0; Resolve "x" "A"]
              (init sample_options 0) in
  let st' := run IndexJs [Immediate; Receive {| answers := Some [answer_A "x.local" "10.0.0.1" 60] |}]
               st in
  promises st' = [Rejected stopped_message; Pending].
Proof.
  intros m0 st st'.
  assert (reachable IndexJs st) as Hr by (by eexists _, _, _).
  destruct (stale_reject_drops_newer_entry st
              {| pq_key := "x.local:A"; pq_timer := 0; pq_promise := 0 |}
              {| pq_key := "x.local:A"; pq_timer := 1; pq_promise := 1 |} [] Hr)
    as (_ & _ & _ & H); [by vm_compute..|].
  specialize (H (answer_A "x.local" "10.0.0.1" 60) eq_refl).
  change st' with (handle_answer IndexJs (answer_A "x.local" "10.0.0.1" 60) (run_immediate st)).
  rewrite H. by vm_compute.
Defined.

(** ** The HTTP front *)

Lemma truthy_Some x v : truthy x = Some v → x = Some v ∧ v ≠ EmptyString.
Proof. destruct x as [[|c s]|]; simpl; [done| |done]. by intros [= <-]. Qed.

Lemma str_or_Some a b v :
  str_or a b = Some v → v ≠ EmptyString ∧ (a = Some v ∨ b = Some v).
Proof.
  rewrite /str_or. destruct (truthy a) as [w|] eqn:E.
  - intros [= <-]. apply truthy_Some in E as [-> ?]. auto.
  - intros [-> ?]%truthy_Some. auto.
Qed.

Lemma handle_asks i cors req hostname type st :
  asks req hostname type →
  _handleHttpRequest i cors req st =
    match resolve i hostname type st with
    | (Throws message, st') => (Replied (failed_reply (cors_headers cors) message), st')
    | (Returns addr, st') =>
        (Replied (resolved_reply (cors_headers cors) hostname type addr), st')
    | (ReturnsPromise p, st') => (Awaits p hostname type, st')
    end.
Proof.
  intros (Hm & Hp & Hh & Ht). rewrite /_handleHttpRequest Hh Ht.
  destruct (decide (req_method req = "OPTIONS")) as [E|_]; [by rewrite Hm in E|].
  destruct (decide (req_method req ≠ "GET")) as [E|_]; [done|].
  destruct (decide (req_pathname req = "/health")) as [E|_]; [by rewrite Hp in E|].
  by destruct (decide (req_pathname req = "/resolve")).
Qed.

(** X14.  Every reply, given at once or when the awaited promise settles,
    carries the three CORS headers when [cors] is on and none of them when
    it is off; every reply but the one to a preflight is JSON.  The status
    is one of 200, 204, 400, 404 and 405; it is 204 for [OPTIONS] only, and
    an error body repeats the status of the reply. *)
Theorem http_reply_headers
    (i : impl) (cors : bool) (req : HttpRequest) (st st' : State) (r : HttpReply) :
  http_reply cors (_handleHttpRequest i cors req st).1 st' = Some r →
  reply_headers r =
    cors_headers cors ++
    (if decide (req_method req = "OPTIONS") then []
     else [("Content-Type", "application/json")]) ∧
  (reply_status r = 204%nat ↔ req_method req = "OPTIONS") ∧
  (reply_status r = 200 ∨ reply_status r = 204 ∨ reply_status r = 400 ∨
   reply_status r = 404 ∨ reply_status r = 405)%nat ∧
  (∀ message code, reply_body r = ErrorBody message code →
     code = reply_status r ∧ (400 ≤ code)%nat).
Proof.
  rewrite /_handleHttpRequest.
  destruct (decide (req_method req = "OPTIONS")) as [Ho|Ho].
  { intros [= <-]. simpl. split_and!; [by rewrite app_nil_r|done|lia|done]. }
  assert (∀ code message,
    (code = 200 ∨ code = 400 ∨ code = 404 ∨ code = 405)%nat →
    (code = 200%nat → ∀ m c, message ≠ ErrorBody m c) →
    (∀ m c, message = ErrorBody m c → c = code) →
    let r := _sendJSON (cors_headers cors) code message in
    reply_headers r = cors_headers cors ++ [("Content-Type", "application/json")] ∧
    (reply_status r = 204%nat ↔ req_method req = "OPTIONS") ∧
    (reply_status r = 200 ∨ reply_status r = 204 ∨ reply_status r = 400 ∨
     reply_status r = 404 ∨ reply_status r = 405)%nat ∧
    (∀ m c, reply_body r = ErrorBody m c → c = reply_status r ∧ (400 ≤ c)%nat)) as Hjson.
  { intros code message Hcode H200 Herr. simpl. split_and!; [done| |lia|].
    - split; [lia|done].
    - intros m c Hb. pose proof (Herr m c Hb) as Hc. subst c. split; [done|].
      destruct Hcode as [Hcode|Hcode]; [|lia]. by destruct (H200 Hcode m code). }
  destruct (decide (req_method req ≠ "GET")).
  { intros [= <-]. apply Hjson; [lia|lia|by intros ?? [= _ <-]]. }
  destruct (decide (req_pathname req = "/health")).
  { intros [= <-]. apply Hjson; [lia|done|done]. }
  destruct (decide (req_pathname req = "/resolve")).
  { destruct (str_or _ _) as [hostname|].
    - destruct (resolve i hostname _ st) as [[message|addr|p] st1]; simpl.
      + intros [= <-]. apply Hjson; [lia|lia|by intros ?? [= _ <-]].
      + intros [= <-]. apply Hjson; [lia|done|done].
      + destruct (promises st' !! p) as [[|addr|message]|]; simpl; [done| | |done].
        * intros [= <-]. apply Hjson; [lia|done|done].
        * intros [= <-]. apply Hjson; [lia|lia|by intros ?? [= _ <-]].
    - intros [= <-]. apply Hjson; [lia|lia|by intros ?? [= _ <-]]. }
  destruct (decide (req_pathname req = "/")).
  { intros [= <-]. apply Hjson; [lia|done|done]. }
  intros [= <-]. apply Hjson; [lia|lia|by intros ?? [= _ <-]].
Qed.

Lemma http_reply_headers_witness :
  reply_headers (_sendError (cors_headers true) 405 "Method not allowed") =
    cors_headers true ++ [("Content-Type", "application/json")].
Proof.
  destruct (http_reply_headers IndexJs true
              {| req_method := "POST"; req_pathname := "/resolve";
                 req_params := [("name", "printer")] |}
              sample_cached sample_cached
              (_sendError (cors_headers true) 405 "Method not allowed"))
    as (Hh & _); [done|]. exact Hh.
Defined.

(** X15.  Only [GET /resolve] with a host name reaches the resolver.  Any
    other request leaves the state as it is; the one that goes through
    calls [resolve] once, with a host name and a type that are not empty,
    the host name being the value of [name] or of [hostname].  The health
    report counts the entries it lists, within the capacity of the cache,
    with remaining times that are not negative. *)
Theorem http_reaches_resolver_only_to_resolve
    (i : impl) (cors : bool) (req : HttpRequest) (st : State) :
  reachable i st →
  let res := _handleHttpRequest i cors req st in
  (res.2 = st ∨
   ∃ hostname type, asks req hostname type ∧
     hostname ≠ EmptyString ∧ type ≠ EmptyString ∧
     (params_get "name" (req_params req) = Some hostname ∨
      params_get "hostname" (req_params req) = Some hostname) ∧
     res.2 = (resolve i hostname type st).2) ∧
  (∀ r size entries, res.1 = Replied r → reply_body r = HealthBody size entries →
     req_pathname req = "/health" ∧ reply_status r = 200%nat ∧
     size = length entries ∧ Z.of_nat size ≤ Z.max 0 (cacheSize (options st)) ∧
     ∀ key addr secs, (key, (addr, secs)) ∈ entries → 0 ≤ secs).
Proof.
  intros HI%reachable_Inv res. split.
  - destruct (decide (req_method req = "GET" ∧ req_pathname req = "/resolve" ∧
                      is_Some (str_or (params_get "name" (req_params req))
                                      (params_get "hostname" (req_params req)))))
      as [(Hm & Hp & [hostname Hh])|Hno].
    + right. exists hostname, (default "A" (truthy (params_get "type" (req_params req)))).
      assert (asks req hostname (default "A" (truthy (params_get "type" (req_params req)))))
        as Hasks by done.
      destruct (str_or_Some _ _ _ Hh) as [Hne Hfrom].
      split_and!; [done|done| |done|].
      * destruct (truthy (params_get "type" (req_params req))) as [ty|] eqn:E; [|done].
        by apply truthy_Some in E as [_ ?].
      * rewrite /res (handle_asks i cors req _ _ st Hasks).
        by destruct (resolve i hostname _ st) as [[] ?].
    + left. rewrite /res /_handleHttpRequest.
      repeat (case_decide; [done|]). case_decide; [|by case_decide].
      destruct (str_or _ _) eqn:E; [|done]. destruct Hno. split_and!; [|done|done].
      by destruct (decide (req_method req = "GET")).
  - intros r size entries. rewrite /res /_handleHttpRequest.
    case_decide; [by intros [= <-]|]. case_decide; [by intros [= <-]|].
    case_decide.
    + intros [= <-] [= <- <-]. split_and!; [done|done| | |].
      * by rewrite /getCache length_fmap.
      * apply HI.
      * intros key addr secs ([k e] & [= _ _ ->] & _)%list_elem_of_fmap. lia.
    + case_decide.
      * destruct (str_or _ _); [|by intros [= <-]].
        destruct (resolve i _ _ st) as [[] ?]; by intros [= <-].
      * case_decide; by intros [= <-].
Qed.

Lemma http_reaches_resolver_only_to_resolve_witness :
  (_handleHttpRequest IndexJs true
     {| req_method := "GET"; req_pathname := "/resolve";
        req_params := [("name", EmptyString); ("type", "AAAA")] |} sample_cached).2 =
  sample_cached.
Proof.
  assert (reachable IndexJs sample_cached) as Hr by (by eexists _, _, _).
  destruct (http_reaches_resolver_only_to_resolve IndexJs true
              {| req_method := "GET"; req_pathname := "/resolve";
                 req_params := [("name", EmptyString); ("type", "AAAA")] |}
              sample_cached Hr) as [[H|(h & ty & (_ & _ & Hh & _) & _)] _].
  - exact H.
  - by vm_compute in Hh.
Defined.

(** ** What a promise is rejected with *)

Lemma named_same p n st st' :
  promises st' = promises st → timers st' = timers st → named p n st → named p n st'.
Proof. intros Hp Ht [H1 H2 H3]. split; rewrite ?Hp ?Ht; auto. Qed.

Lemma named_discard p n key t p' o st :
  fair st p' o → named p n st → named p n (discard key t p' o st).
Proof.
  intros Hfair [H1 H2 H3]. split; simpl.
  - by rewrite settle_in_length.
  - intros td [_ Htd]%lookup_delete_Some. auto.
  - intros message. destruct (decide (p' = p)) as [->|Hne].
    + destruct (promises st !! p) as [[| |message']|] eqn:E.
      * rewrite settle_in_pending //. intros [= ->].
        destruct Hfair as [->|(td & Htd & ->)]; [by right|]. left.
        by rewrite (H2 td Htd).
      * rewrite (settle_in_settled p p o _ _ E) //.
      * rewrite (settle_in_settled p p o _ _ E) //. intros [= <-]. auto.
      * by rewrite /settle_in E E.
    + rewrite settle_in_other //. auto.
Qed.

Lemma named_handle_answer p n i a st : named p n st → named p n (handle_answer i a st).
Proof.
  intros Hn. rewrite /handle_answer. destruct (is_address_type _); [|done].
  simpl. destruct (JsMap.get _ (pendingQueries st)) as [pq|].
  - eapply named_same; [..|apply (named_discard p n (pq_key pq) (pq_timer pq)
                                   (pq_promise pq) (Fulfilled (a_data a)) st I Hn)]; done.
  - by apply (named_same _ _ st).
Qed.

Lemma named_handleResponse p n i r st :
  named p n st → named p n (_handleResponse i r st).
Proof.
  rewrite /_handleResponse. destruct (answers r) as [l|]; [|done].
  revert st. induction l as [|a l IH]; intros st Hn; [done|].
  simpl. by apply IH, named_handle_answer.
Qed.

Lemma named_each_pending p n body fuel st :
  (∀ name pq st, named p n st → named p n (body name pq st)) →
  named p n st → named p n (each_pending body fuel st).
Proof.
  intros Hbody. revert st. induction fuel as [|fuel IH]; intros st Hn; [done|].
  simpl. destruct (pendingQueries st) as [|[name pq] rest]; [done|].
  apply IH. eapply named_same; [..|by apply (Hbody name pq)]; done.
Qed.

Lemma named_reject p n pq st :
  named p n st → named p n (pending_reject pq stopped_message st).
Proof.
  intros Hn. rewrite pending_reject_discard. apply named_discard; [|done]. by left.
Qed.

Lemma named_step p n i ev st : Inv st → named p n st → named p n (step i ev st).
Proof.
  intros HI Hn. destruct ev; simpl.
  - rewrite /start. destruct (mdns st); [done|]. by apply (named_same _ _ st).
  - destruct i; simpl.
    + assert (named p n (each_pending defer_reject (JsMap.size (pendingQueries st)) st))
        as Hn1.
      { apply named_each_pending; [|done]. intros. by apply (named_same _ _ st0). }
      destruct (mdns st) as [m|]; [|by eapply named_same; [..|exact Hn1]].
      destruct (destroy_takes_callback m); [by eapply named_same; [..|exact Hn1]|].
      rewrite /socket_close. destruct (socket_closes m);
        by eapply named_same; [..|exact Hn1].
    + eapply named_same; [..|apply named_each_pending]; [done|done| |].
      * intros. by apply named_reject.
      * destruct (mdns st); [|done]. by apply (named_same _ _ st).
  - rewrite /resolve. destruct (mdns st); [|done].
    destruct (cache_fresh _ st); [by apply (named_same _ _ st)|].
    destruct (JsMap.get _ (pendingQueries st)); [done|].
    destruct Hn as [H1 H2 H3]. pose proof (inv_counter st HI) as Hc.
    split; simpl.
    + rewrite length_app /=. lia.
    + intros td. rewrite lookup_insert_ne; [|lia]. auto.
    + intros message. rewrite lookup_app_l //. auto.
  - by apply named_handleResponse.
  - destruct (timers st !! t) as [td|] eqn:Htd; [|by rewrite /fire_timer Htd].
    destruct (decide (t_due td ≤ clock st)) as [Hd|Hd].
    + rewrite (fire_timer_discard t td) //. apply named_discard; [|done].
      right. exists td. by destruct (inv_timers st HI t td Htd) as (-> & _).
    + by rewrite /fire_timer Htd bool_decide_eq_false_2.
  - rewrite /run_immediate. destruct (immediates st) as [|pq rest]; [done|].
    apply named_reject. by apply (named_same _ _ st).
  - rewrite /destroy_done. destruct (closing st) as [|m rest]; [done|].
    rewrite /socket_close. destruct (socket_closes m); by apply (named_same _ _ st).
  - by apply (named_same _ _ st).
  - by apply (named_same _ _ st).
Qed.

Lemma named_run p n i evs st : Inv st → named p n st → named p n (run i evs st).
Proof.
  revert st. induction evs as [|ev evs IH]; intros st HI Hn; [done|].
  simpl. apply IH; [by apply Inv_step|by apply named_step].
Qed.

(** A promise that [resolve] has just created is the promise of its name. *)
Lemma named_new i name type st p :
  Inv st → (resolve i name type st).1 = ReturnsPromise p → promises st !! p = None →
  named p (normalizeName i name) (resolve i name type st).2.
Proof.
  intros HI. rewrite /resolve. destruct (mdns st); [|done].
  destruct (cache_fresh _ st); [done|].
  destruct (JsMap.get _ (pendingQueries st)) as [pq|] eqn:E.
  - simpl. intros [= <-] Hnone.
    destruct (inv_pending st HI _ pq E) as (_ & _ & Hpend & _). congruence.
  - simpl. intros [= <-] _. pose proof (inv_counter st HI) as Hc. split; simpl.
    + rewrite length_app /=. lia.
    + intros td. rewrite Hc lookup_insert_eq. by intros [= <-].
    + intros message. by rewrite lookup_app_r // Nat.sub_diag.
Qed.

(** X16.  A promise is rejected for two reasons only.  Whatever happens
    after [resolve] has created a promise for a name, if the promise ends
    rejected, the error is 'Timeout resolving' followed by the normalized
    name of that call, or 'Resolver stopped'. *)
Theorem rejections_name_the_query
    (i : impl) (name type : string) (st : State) (p : nat) (evs : list Event)
    (message : string) :
  reachable i st →
  (resolve i name type st).1 = ReturnsPromise p → promises st !! p = None →
  promises (run i evs (resolve i name type st).2) !! p = Some (Rejected message) →
  message = timeout_message (normalizeName i name) ∨ message = stopped_message.
Proof.
  intros HI%reachable_Inv Hp Hnew.
  apply named_rejected, named_run; [by apply Inv_resolve|by apply named_new].
Qed.

Lemma rejections_name_the_query_witness :
  promises (run ResolverJs [Tick 5000; TimerFires 0]
              (resolve ResolverJs "Printer" "A"
                 (run ResolverJs [Start sample_mdns] (init sample_options 0))).2) !! 0%nat =
    Some (Rejected "Timeout resolving Printer.local").
Proof.
  set (st := run ResolverJs [Start sample_mdns] (init sample_options 0)).
  assert (reachable ResolverJs st) as Hr by (by eexists _, _, _).
  destruct (promises (run ResolverJs [Tick 5000; TimerFires 0]
                        (resolve ResolverJs "Printer" "A" st).2) !! 0%nat)
    as [[| |message]|] eqn:E; [by vm_compute in E..| |by vm_compute in E].
  destruct (rejections_name_the_query ResolverJs "Printer" "A" st 0
              [Tick 5000; TimerFires 0] message Hr eq_refl eq_refl E) as [->| ->].
  - done.
  - by vm_compute in E.
Defined.

(** ** Requests, from the first byte to the reply *)

(** X17.  Requests for one name share one query.  Two [GET /resolve]
    requests whose host names normalize to one name, for one type, that
    find nothing fresh in the cache, wait for one promise, and one query is
    sent; neither is answered while the promise is pending.  When the
    record arrives, both are answered 200 with its address, each under the
    host name it asked for. *)
Theorem http_requests_share_a_query
    (i : impl) (cors : bool) (st : State) (m : Mdns) (req1 req2 : HttpRequest)
    (h1 h2 type : string) (a : Answer) :
  reachable i st → mdns st = Some m →
  asks req1 h1 type → asks req2 h2 type →
  normalizeName i h1 = normalizeName i h2 →
  let key := cacheKey (normalizeName i h1) type in
  cache_fresh key st = None → JsMap.get key (pendingQueries st) = None →
  is_address_type (a_type a) = true → answer_key i a = key →
  let r1 := _handleHttpRequest i cors req1 st in
  let r2 := _handleHttpRequest i cors req2 r1.2 in
  let st3 := handle_answer i a r2.2 in
  let p := length (promises st) in
  r1.1 = Awaits p h1 type ∧ r2.1 = Awaits p h2 type ∧
  sent_queries (transport r2.2) =
    sent_queries (transport st) ++ [(normalizeName i h1, type)] ∧
  http_reply cors r1.1 r2.2 = None ∧ http_reply cors r2.1 r2.2 = None ∧
  http_reply cors r1.1 st3 =
    Some (resolved_reply (cors_headers cors) h1 type (a_data a)) ∧
  http_reply cors r2.1 st3 =
    Some (resolved_reply (cors_headers cors) h2 type (a_data a)).
Proof.
  intros HI%reachable_Inv Hm Hreq1 Hreq2 Hnorm key Hfresh Hfree Ha Hkey r1 r2 st3 p.
  set (pq := {| pq_key := key; pq_timer := next_timer st; pq_promise := p |}).
  assert (resolve i h1 type st = issue_query (normalizeName i h1) type key st) as Hres1.
  { by rewrite /resolve Hm -/key Hfresh Hfree. }
  assert (r1 = (Awaits p h1 type, (issue_query (normalizeName i h1) type key st).2)) as Hr1.
  { by rewrite /r1 (handle_asks i cors req1 h1 type st Hreq1) Hres1. }
  set (st1 := (issue_query (normalizeName i h1) type key st).2) in *.
  assert (JsMap.get key (pendingQueries st1) = Some pq) as Hpq.
  { rewrite /st1 /=. apply JsMapFacts.get_set_eq. }
  assert (resolve i h2 type st1 = (ReturnsPromise p, st1)) as Hres2.
  { rewrite /resolve -Hnorm -/key. change (mdns st1) with (mdns st). rewrite Hm.
    change (cache_fresh key st1) with (cache_fresh key st). by rewrite Hfresh Hpq. }
  assert (r2 = (Awaits p h2 type, st1)) as Hr2.
  { by rewrite /r2 Hr1 /= (handle_asks i cors req2 h2 type st1 Hreq2) Hres2. }
  assert (promises st1 !! p = Some Pending) as Hpend.
  { rewrite /st1 /=. by rewrite lookup_app_r // Nat.sub_diag. }
  assert (promises st3 !! p = Some (Fulfilled (a_data a))) as Hful.
  { rewrite /st3 Hr2 /=. rewrite -Hkey in Hpq.
    destruct (handle_answer_pending_hit i a st1 pq Ha Hpq) as (-> & _).
    by apply settle_in_pending. }
  rewrite Hr2 Hr1 /= Hpend Hful /=.
  split_and!; try done. by rewrite sent_queries_app.
Qed.

Lemma http_requests_share_a_query_witness :
  let req1 := {| req_method := "GET"; req_pathname := "/resolve";
                 req_params := [("name", "Printer")] |} in
  let req2 := {| req_method := "GET"; req_pathname := "/resolve";
                 req_params := [("hostname", "printer.local"); ("type", EmptyString)] |} in
  let r1 := _handleHttpRequest IndexJs true req1 sample_cached in
  let r2 := _handleHttpRequest IndexJs true req2 r1.2 in
  r1.1 = Awaits 0 "Printer" "A" ∧ r2.1 = Awaits 0 "printer.local" "A" ∧
  sent_queries (transport r2.2) = [("printer.local", "A")].
Proof.
  intros req1 req2 r1 r2.
  assert (reachable IndexJs sample_cached) as Hr by (by eexists _, _, _).
  destruct (http_requests_share_a_query IndexJs true sample_cached sample_mdns req1 req2
              "Printer" "printer.local" "A" (answer_A "PRINTER.local" "10.0.0.9" 10) Hr)
    as (H1 & H2 & H3 & _); [by vm_compute..|].
  split_and!; [exact H1|exact H2|]. rewrite -/r1 -/r2 in H3. rewrite H3. by vm_compute.
Defined.

(** X18.  A request that fails is answered 404 with the message of the
    error.  On a resolver that is not running the reply comes at once,
    'Resolver is not running. Call start() first.', and nothing is sent.
    A request that waits for a promise created for it is answered, when the
    promise is rejected, with 'Timeout resolving' and the normalized name,
    or with 'Resolver stopped'. *)
Theorem http_failures_are_404
    (i : impl) (cors : bool) (st : State) (req : HttpRequest) (hostname type : string) :
  reachable i st → asks req hostname type →
  let res := _handleHttpRequest i cors req st in
  (mdns st = None →
     res = (Replied (failed_reply (cors_headers cors) not_running_message), st)) ∧
  (∀ p evs message,
     res.1 = Awaits p hostname type → promises st !! p = None →
     promises (run i evs res.2) !! p = Some (Rejected message) →
     http_reply cors res.1 (run i evs res.2) =
       Some (failed_reply (cors_headers cors) message) ∧
     reply_status (failed_reply (cors_headers cors) message) = 404%nat ∧
     (message = timeout_message (normalizeName i hostname) ∨ message = stopped_message)).
Proof.
  intros HI%reachable_Inv Hasks res. rewrite /res (handle_asks i cors req _ _ st Hasks).
  split.
  - intros Hm. by rewrite /resolve Hm.
  - intros p evs message.
    destruct (resolve i hostname type st) as [[msg|addr|p'] st1] eqn:Hres; [done..|].
    simpl. intros [= ->] Hnew Hrej. rewrite Hrej /=. split_and!; [done..|].
    pose proof (named_new i hostname type st p HI) as Hn. rewrite Hres /= in Hn.
    apply (named_rejected p _ (run i evs st1)); [|done].
    apply named_run; [|by apply Hn].
    pose proof (Inv_resolve i hostname type st HI) as HI1. by rewrite Hres in HI1.
Qed.

Lemma http_failures_are_404_witness :
  _handleHttpRequest ResolverJs false
    {| req_method := "GET"; req_pathname := "/resolve"; req_params := [("name", "x")] |}
    (init sample_options 0) =
  (Replied {| reply_status := 404;
              reply_headers := [("Content-Type", "application/json")];
              reply_body := ErrorBody not_running_message 404 |},
   init sample_options 0).
Proof.
  assert (reachable ResolverJs (init sample_options 0)) as Hr by (by exists sample_options, 0, []).
  destruct (http_failures_are_404 ResolverJs false (init sample_options 0)
              {| req_method := "GET"; req_pathname := "/resolve";
                 req_params := [("name", "x")] |} "x" "A" Hr) as [H _]; [by vm_compute|].
  by rewrite H.
Defined.

(** X19.  The host name of a 200 reply.  The handler adds [.local] to the
    host name of the request by a test of its own, which src/server.js
    shares with its resolver: there the reply names the name that was
    resolved.  index.js resolves the lower-cased name: the reply keeps the
    letters of the request, and for a host name that ends with [.local]
    in other than lower case the reply names a host, with a second
    [.local], that is not the one that was resolved, whatever the case. *)
Theorem http_reply_hostname (hostname : string) :
  reply_hostname hostname = normalizeName ResolverJs hostname ∧
  (Str.endsWith hostname local_suffix = true →
   reply_hostname hostname = hostname ∧
   normalizeName IndexJs hostname = Str.toLowerCase hostname) ∧
  (Str.endsWith hostname local_suffix = false →
   Str.endsWith (Str.toLowerCase hostname) local_suffix = true →
   reply_hostname hostname = hostname +:+ local_suffix ∧
   normalizeName IndexJs hostname = Str.toLowerCase hostname ∧
   ¬ case_variant (reply_hostname hostname) (normalizeName IndexJs hostname)).
Proof.
  split; [done|]. split.
  - intros He. rewrite /reply_hostname /normalizeName He. split; [done|].
    apply StrFacts.endsWith_spec in He as [s ->].
    rewrite StrFacts.toLowerCase_app.
    by rewrite (proj2 (StrFacts.endsWith_spec _ _) (ex_intro _ _ eq_refl)).
  - intros He Hl. rewrite /reply_hostname /normalizeName He Hl. split_and!; [done..|].
    rewrite /case_variant StrFacts.toLowerCase_app StrFacts.toLowerCase_idemp.
    intros Heq. apply (f_equal String.length) in Heq.
    rewrite StrFacts.app_length in Heq.
    change (String.length (Str.toLowerCase local_suffix)) with 6%nat in Heq. lia.
Qed.

Lemma http_reply_hostname_witness :
  reply_hostname "PRINTER.LOCAL" = "PRINTER.LOCAL.local" ∧
  normalizeName IndexJs "PRINTER.LOCAL" = "printer.local".
Proof.
  destruct (http_reply_hostname "PRINTER.LOCAL") as (_ & _ & H).
  destruct H as (H1 & H2 & _); [by vm_compute..|].
  split; [by rewrite H1|by rewrite H2].
Defined.

(** ** The command line *)

Lemma parse_loop_items parseInt items hostname o :
  Forall wf_item items →
  hostname = None ∨ (∃ h, hostname = Some h ∧ h ≠ EmptyString) →
  parse_loop parseInt (render items) hostname o =
    (match hostname with
     | Some h => Some h
     | None => head (positionals items)
     end,
     foldl (λ o it, set_flag parseInt it o) o items).
Proof.
  intros Hwf. revert hostname o.
  induction Hwf as [|it items Hit Hwf IH]; intros hostname o Hh.
  { by destruct hostname. }
  destruct it as [flag value|arg]; rewrite /render /=.
  - rewrite -/(render items). rewrite /wf_item /cli_flags !elem_of_cons elem_of_nil in Hit.
    rewrite IH //. do 2 f_equal.
    repeat (case_decide; [done|]). naive_solver.
  - rewrite -/(render items). destruct Hit as [Hnf Hne].
    rewrite /cli_flags !not_elem_of_cons in Hnf.
    repeat (case_decide; [naive_solver|]).
    destruct Hh as [->|(h & -> & Hh)].
    + simpl. rewrite IH //. right. by exists arg.
    + assert (truthy (Some h) = Some h) as -> by (by destruct h).
      rewrite IH //. right. by exists h.
Qed.

(** X20.  [parseArgs] reads a command line as it is meant.  When the
    arguments after the command are options of the known flags, each with
    a value, and positional arguments that are not empty, in any order, the
    host name is the first positional argument, the later ones are
    ignored, and each option holds the value of its last occurrence; the
    value of an option is taken as it stands, whatever it looks like. *)
Theorem parseArgs_items
    (parseInt : option string → option Z) (command : string) (items : list CliItem) :
  Forall wf_item items →
  parseArgs parseInt (command :: render items) =
    (Some command, head (positionals items),
     foldl (λ o it, set_flag parseInt it o) no_cli_options items).
Proof.
  intros Hwf. rewrite /parseArgs /=.
  rewrite (parse_loop_items parseInt items None no_cli_options Hwf); [done|by left].
Qed.

Lemma parseArgs_items_witness :
  parseArgs (λ _, Some 250)
    ["resolve"; "--type"; "--ttl"; "printer"; "--timeout"; "250"; "other";
     "--type"; "AAAA"] =
  (Some "resolve", Some "printer",
   {| cli_type := Some "AAAA"; cli_timeout := Some 250; cli_ttl := None;
      cli_port := None; cli_host := None |}).
Proof.
  rewrite (parseArgs_items (λ _, Some 250) "resolve"
             [Opt "--type" "--ttl"; Pos "printer"; Opt "--timeout" "250"; Pos "other";
              Opt "--type" "AAAA"]); [done|].
  repeat (apply Forall_cons; split;
          [first [ by split; [apply (bool_decide_unpack _); vm_compute|]
                 | apply (bool_decide_unpack _); by vm_compute ]|]).
  apply Forall_nil_2.
Defined.

(** The parts of the statement on the dispatch, in each of its branches. *)
Ltac usage_iff :=
  simpl; split;
  [ first [ done | intros _; auto ]
  | first [ done | intros [?|[?|?]]; simplify_eq; done ] ].

Ltac exit_iff :=
  simpl; split;
  [ first [ done
          | intros _;
            first [ by left
                  | right; eexists; split; [done|];
                    rewrite !not_elem_of_cons; split_and!;
                    (done || apply not_elem_of_nil) ] ]
  | intros [[? ?]|(? & ? & Hc)]; simplify_eq; try done; try congruence;
    exfalso; apply Hc; rewrite !elem_of_cons; auto 10 ].

Ltac no_resolver := intros ? [(? & ? & ?)|(? & ? & ?)]; simplify_eq.
Ltac no_action := intros ??? ?; simplify_eq.

(** X21.  What the command line hands over is never falsy.  The usage is
    printed with exit code 0 exactly when there is no argument or the
    first one is [--help] or [-h]; the exit code is 1 exactly for [resolve]
    without a host name and for an unknown command.  A [resolve] runs with
    a host name and a type that are not empty; [resolve] and [serve]
    construct their resolver with a timeout and a TTL that are not 0 (the
    defaults 5000 and 120 stand in for a missing, unreadable or zero
    value) and the default cache size; [serve] listens on a port that is
    not 0 and a host that is not empty. *)
Theorem cli_dispatch (parseInt : option string → option Z) (args : list string) :
  let action := cli_main parseInt args in
  (action = PrintUsage ↔
     args = [] ∨ head args = Some "--help" ∨ head args = Some "-h") ∧
  (exit_code action = Some 1%nat ↔
     (head args = Some "resolve" ∧ truthy (parseArgs parseInt args).1.2 = None) ∨
     (∃ command, head args = Some command ∧
        command ∉ ["--help"; "-h"; "resolve"; "monitor"; "serve"])) ∧
  (∀ resolver,
     (∃ hostname type, action = ResolveHostname hostname resolver type) ∨
     (∃ port host, action = Serve port host resolver) →
     timeout (constructor_options resolver) ≠ 0 ∧
     ttl (constructor_options resolver) ≠ 0 ∧
     cacheSize (constructor_options resolver) = 1000 ∧
     (cli_timeout (parseArgs parseInt args).2 = None →
        timeout (constructor_options resolver) = 5000) ∧
     (cli_ttl (parseArgs parseInt args).2 = None →
        ttl (constructor_options resolver) = 120)) ∧
  (∀ hostname resolver type, action = ResolveHostname hostname resolver type →
     hostname ≠ EmptyString ∧ type ≠ EmptyString ∧
     (parseArgs parseInt args).1.2 = Some hostname) ∧
  (∀ port host resolver, action = Serve port host resolver →
     port ≠ 0 ∧ host ≠ EmptyString).
Proof.
  assert (∀ o : CliOptions,
    timeout (constructor_options (cli_resolver_options o)) ≠ 0 ∧
    ttl (constructor_options (cli_resolver_options o)) ≠ 0 ∧
    cacheSize (constructor_options (cli_resolver_options o)) = 1000 ∧
    (cli_timeout o = None → timeout (constructor_options (cli_resolver_options o)) = 5000) ∧
    (cli_ttl o = None → ttl (constructor_options (cli_resolver_options o)) = 120)) as Hopts.
  { intros o. rewrite /constructor_options /cli_resolver_options /= /num_or.
    destruct (cli_timeout o) as [t|], (cli_ttl o) as [l|];
      repeat case_bool_decide; split_and!; done. }
  assert (∀ x : option string, truthy x = None ∨ ∃ v, truthy x = Some v ∧ x = Some v ∧
                                                     v ≠ EmptyString) as Htruthy.
  { intros [[|c s]|]; [by left| |by left]. right. by eexists. }
  destruct args as [|first rest].
  { simpl. split_and!; [usage_iff|exit_iff|no_resolver|no_action..]. }
  rewrite /cli_main.
  destruct (parseArgs parseInt (first :: rest)) as [[command hostname] o] eqn:Hparse.
  simpl.
  destruct (decide (first = "--help")) as [->|Hhelp].
  { split_and!; [usage_iff|exit_iff|no_resolver|no_action..]. }
  destruct (decide (first = "-h")) as [->|Hh].
  { split_and!; [usage_iff|exit_iff|no_resolver|no_action..]. }
  destruct (decide (first = "resolve")) as [->|Hres].
  { destruct (Htruthy hostname) as [Hn|(v & Hv & -> & Hne)].
    - rewrite Hn. split_and!; [usage_iff|exit_iff|no_resolver|no_action..].
    - rewrite Hv. split_and!; [usage_iff|exit_iff| |..].
      + intros resolver [(? & ? & ?)|(? & ? & ?)]; simplify_eq. apply Hopts.
      + intros ??? [= <- _ <-]. split_and!; [done| |done].
        destruct (Htruthy (cli_type o)) as [->|(w & -> & _ & ?)]; done.
      + no_action. }
  destruct (decide (first = "monitor")) as [->|Hmon].
  { split_and!; [usage_iff|exit_iff|no_resolver|no_action..]. }
  destruct (decide (first = "serve")) as [->|Hserve].
  { split_and!; [usage_iff|exit_iff| |..].
    + intros resolver [(? & ? & ?)|(? & ? & ?)]; simplify_eq. apply Hopts.
    + no_action.
    + intros ??? [= <- <- _]. split.
      * rewrite /num_or. destruct (cli_port o); [by case_bool_decide|done].
      * destruct (Htruthy (cli_host o)) as [->|(w & -> & _ & ?)]; done. }
  split_and!; [usage_iff|exit_iff|no_resolver|no_action..].
Qed.

(** ** The events a monitor sees *)

Lemma handle_answer_emitted i a st :
  emitted (handle_answer i a st) =
    emitted st ++
    (if is_address_type (a_type a) then [resolved_event i (options st) a] else []).
Proof.
  rewrite /handle_answer. destruct (is_address_type _); [|by rewrite app_nil_r].
  simpl. by destruct (JsMap.get _ (pendingQueries st)).
Qed.

(** X22.  A response emits one [resolved] event for each of its address
    records, in the order of the records, with the name as it is cached and
    the TTL that is applied, and no other event; this is what the monitor
    of the command line prints. *)
Theorem response_events (i : impl) (l : list Answer) (st : State) :
  emitted (_handleResponse i {| answers := Some l |} st) =
    emitted st ++
    (resolved_event i (options st) <$>
       filter (λ a, is_address_type (a_type a) = true) l).
Proof.
  rewrite /_handleResponse /=.
  assert (∀ st', options st' = options st →
    emitted (foldl (λ s a, handle_answer i a s) st' l) =
      emitted st' ++ (resolved_event i (options st) <$>
                        filter (λ a, is_address_type (a_type a) = true) l)) as H.
  { induction l as [|a l IH]; intros st' Ho; [by rewrite app_nil_r|].
    simpl. rewrite IH; [|by rewrite handle_answer_options].
    rewrite handle_answer_emitted Ho. destruct (is_address_type (a_type a)) eqn:Ha.
    - by rewrite filter_cons_True //= -app_assoc.
    - rewrite filter_cons_False; [|by rewrite Ha]. by rewrite app_nil_r. }
  by apply H.
Qed.

(** ** The two copies of the resolver *)

(** X23.  index.js and src/resolver.js differ in the case of names and in
    [stop] only: on every other event, with names in lower case, the two
    copies take the same step, and so do they over a whole run. *)
Theorem copies_agree_on_lower_case (evs : list Event) (st : State) :
  Forall lower_case_event evs →
  run IndexJs evs st = run ResolverJs evs st.
Proof.
  intros Hevs. revert st. induction Hevs as [|ev evs Hev _ IH]; intros st; [done|].
  simpl. rewrite -/(run IndexJs evs _) -/(run ResolverJs evs _).
  assert (step IndexJs ev st = step ResolverJs ev st) as ->; [|apply IH].
  destruct ev; simpl in *; try done.
  - by rewrite /resolve /normalizeName Hev.
  - rewrite /_handleResponse. destruct (answers response) as [l|]; [|done].
    specialize (Hev l eq_refl). revert st.
    induction Hev as [|a l Ha _ IHl]; intros st; [done|].
    simpl. rewrite IHl. f_equal.
    by rewrite /handle_answer /answerName Ha.
Qed.

Lemma copies_agree_on_lower_case_witness :
  run IndexJs [Resolve "x" "A"; Receive {| answers := Some [answer_A "x.local" "10.0.0.1" 5] |}]
    sample_cached =
  run ResolverJs [Resolve "x" "A"; Receive {| answers := Some [answer_A "x.local" "10.0.0.1" 5] |}]
    sample_cached.
Proof.
  apply copies_agree_on_lower_case.
  repeat apply Forall_cons_2; [done| |done].
  intros l [= <-]. by repeat apply Forall_cons_2.
Defined.

(** ** What the cache holds, and for how long *)

Lemma still_refl st : still st st.
Proof. by split. Qed.

Lemma still_trans st1 st2 st3 : still st1 st2 → still st2 st3 → still st1 st3.
Proof. intros [] []. split; congruence. Qed.

Lemma still_each_pending body fuel st :
  (∀ name pq st, still st (body name pq st)) → still st (each_pending body fuel st).
Proof.
  intros Hbody. revert st. induction fuel as [|fuel IH]; intros st; [apply still_refl|].
  simpl. destruct (pendingQueries st) as [|[name pq] rest]; [apply still_refl|].
  eapply still_trans; [|apply IH].
  eapply still_trans; [apply (Hbody name pq)|by split].
Qed.

Lemma still_stop i st : still st (stop i st).
Proof.
  destruct i; simpl.
  - rewrite each_pending_defer. destruct (mdns st) as [m|]; [|by split].
    destruct (destroy_takes_callback m); [by split|].
    rewrite /socket_close. by destruct (socket_closes m).
  - eapply still_trans; [|by split; simpl].
    eapply still_trans; [|apply still_each_pending; intros; by split].
    by destruct (mdns st).
Qed.

(** Every event but a response and [clearCache] leaves the cache alone, and
    no event but the passing of time moves the clock. *)
Lemma still_step i ev st :
  (∀ r, ev ≠ Receive r) →
  (cache (step i ev st) = cache st ∨ ev = ClearCache ∧ cache (step i ev st) = []) ∧
  clock st ≤ clock (step i ev st).
Proof.
  intros Hev. destruct ev; simpl.
  - split; [left|]; rewrite /start; by destruct (mdns st).
  - split; [left; apply still_stop|]. by rewrite (still_clock _ _ (still_stop i st)).
  - rewrite /resolve. destruct (mdns st); [|by split; [left|]].
    destruct (cache_fresh _ st); [by split; [left|]|].
    destruct (JsMap.get _ (pendingQueries st)); by split; [left|].
  - by destruct (Hev response).
  - rewrite /fire_timer. destruct (timers st !! t); [|by split; [left|]].
    case_bool_decide; by split; [left|].
  - rewrite /run_immediate. destruct (immediates st); by split; [left|].
  - rewrite /destroy_done. destruct (closing st) as [|m rest]; [by split; [left|]|].
    rewrite /socket_close. destruct (socket_closes m); by split; [left|].
  - split; [by right|done].
  - split; [by left|simpl; lia].
Qed.

(** X24.  An entry that has expired is never served again unless a record
    arrives: through every run without a response, a key that is not fresh
    stays not fresh, since no other event writes to the cache and the clock
    never goes back. *)
Theorem expired_entries_stay_expired
    (i : impl) (evs : list Event) (st : State) (key : string) :
  (∀ r, Receive r ∉ evs) →
  cache_fresh key st = None →
  cache_fresh key (run i evs st) = None ∧ clock st ≤ clock (run i evs st).
Proof.
  revert st. induction evs as [|ev evs IH]; intros st Hevs Hfresh; [done|].
  simpl. rewrite -/(run i evs _).
  destruct (still_step i ev st) as [Hcache Hclk].
  { intros r ->. apply (Hevs r). by left. }
  destruct (IH (step i ev st)) as [H1 H2].
  - intros r Hin. apply (Hevs r). by right.
  - apply cache_fresh_None_iff. intros e He.
    destruct Hcache as [Hc|[_ Hc]]; rewrite Hc in He; [|done].
    pose proof (cache_fresh_None key st e Hfresh He). lia.
  - split; [done|lia].
Qed.

Lemma expired_entries_stay_expired_witness :
  cache_fresh "test.local:A"
    (run IndexJs [Resolve "test" "A"; Tick 5000; TimerFires 0; Tick 1]
       (run IndexJs [Tick 60000] sample_cached)) = None.
Proof.
  apply expired_entries_stay_expired; [|by vm_compute].
  intros r Hin. repeat (apply elem_of_cons in Hin as [?|Hin]; [done|]).
  by apply elem_of_nil in Hin.
Defined.

Lemma address_keys_handle_answer i a st :
  JsMap.wf (cache st) →
  (∀ k e, JsMap.get k (cache st) = Some e → address_key i k) →
  ∀ k e, JsMap.get k (cache (handle_answer i a st)) = Some e → address_key i k.
Proof.
  intros Hwf Hkeys k e. destruct (is_address_type (a_type a)) eqn:Ha.
  - rewrite handle_answer_cache //. destruct (decide (answer_key i a = k)) as [<-|Hne].
    + intros _. exists (answerName i a), (a_type a). split_and!; [done..|].
      intros ->. apply StrFacts.toLowerCase_idemp.
    + intros He. apply (Hkeys k e). by eapply cache_put_get_other.
  - rewrite handle_answer_ignored //. apply Hkeys.
Qed.

(** X25.  The cache holds address records only: in every state the
    resolver goes through, each key of the cache is the key of a name and
    of the type A or AAAA, and in index.js the name is in lower case. *)
Theorem cache_holds_address_records (i : impl) (st : State) (k : string) (e : CacheEntry) :
  reachable i st → JsMap.get k (cache st) = Some e → address_key i k.
Proof.
  intros (o & now & evs & ->). revert k e.
  induction evs as [|ev evs IH] using rev_ind; [done|].
  rewrite /run foldl_app /= -/(run i evs (init o now)).
  set (st := run i evs (init o now)) in *.
  assert (Inv st) as HI by apply Inv_run, Inv_init.
  assert ((∃ r, ev = Receive r) ∨ ∀ r, ev ≠ Receive r) as [[r ->]|Hno].
  { destruct ev; first [by left; eexists|by right]. }
  - simpl. rewrite /_handleResponse. destruct (answers r) as [l|]; [|done].
    assert (∀ st', Inv st' →
      (∀ k e, JsMap.get k (cache st') = Some e → address_key i k) →
      ∀ k e, JsMap.get k (cache (foldl (λ s a, handle_answer i a s) st' l)) = Some e →
             address_key i k) as Hl.
    { induction l as [|a l IHl]; intros st' HI' Hk'; [done|].
      simpl. apply IHl; [by apply Inv_handle_answer|].
      apply address_keys_handle_answer; [apply HI'|done]. }
    by apply Hl.
  - intros k e. destruct (still_step i ev st) as [[Hc|[_ Hc]] _].
    + done.
    + rewrite Hc. apply IH.
    + by rewrite Hc.
Qed.

Lemma cache_holds_address_records_witness :
  address_key IndexJs "test.local:A".
Proof.
  assert (reachable IndexJs sample_cached) as Hr by (by eexists _, _, _).
  apply (cache_holds_address_records IndexJs sample_cached "test.local:A"
           {| address := "192.168.1.100"; expires := 61000 |} Hr).
  by vm_compute.
Defined.

(** ** Timers and the end of the process *)

Lemma timers_listed_same st st' :
  immediates st' = immediates st → timers st' = timers st →
  pendingQueries st' = pendingQueries st → timers_listed st → timers_listed st'.
Proof. intros Hi Ht Hp [H1 H2]. split; rewrite ?Hi ?Ht ?Hp; auto. Qed.

(** Settling the entry of a key keeps the other timers listed. *)
Lemma timers_listed_discard key t p o st pq :
  JsMap.get key (pendingQueries st) = Some pq → pq_timer pq = t →
  timers_listed st → timers_listed (discard key t p o st).
Proof.
  intros Hpq Ht [H1 H2]. split; [done|]. simpl.
  intros t' td' [Hne Htd']%lookup_delete_Some.
  destruct (H2 t' td' Htd') as (pq' & Hpq' & Ht').
  exists pq'. split; [|done]. rewrite JsMapFacts.get_delete_ne; [done|].
  intros Heq. congruence.
Qed.

Lemma timers_listed_each_pending fuel st :
  Inv st → timers_listed st → timers_listed (each_pending reject_now fuel st).
Proof.
  revert st. induction fuel as [|fuel IH]; intros st HI HT; [done|].
  simpl. destruct (pendingQueries st) as [|[name pq] rest] eqn:Hp; [done|].
  assert (JsMap.get name (pendingQueries st) = Some pq) as Hget.
  { by rewrite Hp /= decide_True. }
  destruct (inv_pending st HI name pq Hget) as (Hkey & _).
  apply IH.
  - by apply Inv_pending_delete, Inv_reject_now.
  - assert (timers_listed (reject_now name pq st)) as [H1 H2].
    { rewrite /reject_now pending_reject_discard Hkey.
      by apply (timers_listed_discard name _ _ _ st pq). }
    split; [done|]. simpl in *. intros t td Htd.
    destruct (H2 t td Htd) as (pq' & Hpq' & Ht'). exists pq'. split; [|done].
    rewrite Hkey in Hpq'.
    destruct (decide (name = t_key td)) as [Heq|Hne].
    + pose proof (JsMapFacts.get_delete_eq name (pendingQueries st)
                    (inv_pending_wf st HI)) as Hd.
      rewrite -Heq in Hpq'. congruence.
    + rewrite Hkey JsMapFacts.get_delete_ne; [|done]. done.
Qed.

Lemma timers_listed_stop st :
  Inv st → timers_listed st → timers_listed (stop ResolverJs st).
Proof.
  intros HI HT. simpl.
  eapply timers_listed_same; [..|apply timers_listed_each_pending]; [done..| |].
  - destruct (mdns st); [|done]. by apply Inv_set_mdns, Inv_call_transport.
  - destruct (mdns st); [|done]. by apply (timers_listed_same st).
Qed.

Lemma timers_listed_handle_answer a st :
  Inv st → timers_listed st → timers_listed (handle_answer ResolverJs a st).
Proof.
  intros HI HT. rewrite /handle_answer. destruct (is_address_type _); [|done].
  simpl. destruct (JsMap.get _ (pendingQueries st)) as [pq|] eqn:E.
  - destruct (inv_pending st HI _ pq E) as (Hkey & _).
    eapply timers_listed_same;
      [..|apply (timers_listed_discard (pq_key pq) (pq_timer pq) (pq_promise pq)
                   (Fulfilled (a_data a)) st pq)]; try done.
    by rewrite Hkey.
  - by apply (timers_listed_same st).
Qed.

Lemma timers_listed_step ev st :
  Inv st → timers_listed st → timers_listed (step ResolverJs ev st).
Proof.
  intros HI HT. destruct ev.
  - simpl. rewrite /start. destruct (mdns st); [done|]. by apply (timers_listed_same st).
  - by apply timers_listed_stop.
  - simpl. rewrite /resolve. destruct (mdns st); [|done].
    destruct (cache_fresh _ st); [by apply (timers_listed_same st)|].
    destruct (JsMap.get _ (pendingQueries st)) eqn:E; [done|].
    destruct HT as [H1 H2]. split; [done|]. simpl. intros t td.
    destruct (decide (next_timer st = t)) as [<-|Hne].
    + rewrite lookup_insert_eq. intros [= <-]. simpl. eexists.
      split; [apply JsMapFacts.get_set_eq|done].
    + rewrite lookup_insert_ne //. intros Htd.
      destruct (H2 t td Htd) as (pq' & Hpq' & Ht'). exists pq'. split; [|done].
      rewrite JsMapFacts.get_set_ne; [done|]. intros Heq. congruence.
  - simpl. rewrite /_handleResponse. destruct (answers response) as [l|]; [|done].
    revert st HI HT. induction l as [|a l IH]; intros st HI HT; [done|].
    simpl. apply IH; [by apply Inv_handle_answer|by apply timers_listed_handle_answer].
  - simpl. destruct (timers st !! t) as [td|] eqn:Htd; [|by rewrite /fire_timer Htd].
    destruct (decide (t_due td ≤ clock st)) as [Hd|Hd].
    + rewrite (fire_timer_discard t td) //.
      destruct (listed_timers st HT t td Htd) as (pq & Hpq & Ht).
      by apply (timers_listed_discard _ _ _ _ st pq).
    + by rewrite /fire_timer Htd bool_decide_eq_false_2.
  - simpl. by rewrite /run_immediate (listed_immediates st HT).
  - simpl. rewrite /destroy_done. destruct (closing st) as [|m rest]; [done|].
    rewrite /socket_close. destruct (socket_closes m); by apply (timers_listed_same st).
  - by apply (timers_listed_same st).
  - by apply (timers_listed_same st).
Qed.

(** X26.  src/resolver.js leaves no timer behind.  In every state it goes
    through, each armed timer is the timer of the pending query listed
    under its key, so [stop], which rejects every listed query, clears
    every timer: nothing keeps the process alive.  index.js clears no timer
    in [stop]: its timers stay armed until the deferred rejections run. *)
Theorem resolver_js_stop_clears_timers (st : State) :
  reachable ResolverJs st →
  (∀ t td, timers st !! t = Some td →
     ∃ pq, JsMap.get (t_key td) (pendingQueries st) = Some pq ∧ pq_timer pq = t) ∧
  timers (stop ResolverJs st) = ∅ ∧
  timers (stop IndexJs st) = timers st.
Proof.
  intros (o & now & evs & ->).
  assert (Inv (run ResolverJs evs (init o now)) ∧
          timers_listed (run ResolverJs evs (init o now))) as [HI HT].
  { induction evs as [|ev evs [HI HT]] using rev_ind; [split; [apply Inv_init|by split]|].
    rewrite /run foldl_app /= -/(run ResolverJs evs (init o now)).
    split; [by apply Inv_step|by apply timers_listed_step]. }
  split_and!.
  - apply HT.
  - apply map_eq. intros t. rewrite lookup_empty.
    destruct (timers (stop ResolverJs _) !! t) as [td|] eqn:Htd; [|done].
    destruct (listed_timers _ (timers_listed_stop _ HI HT) t td Htd) as (pq & Hpq & _).
    destruct (stop_resolver_fields _ HI) as (Hnil & _). by rewrite Hnil in Hpq.
  - rewrite /stop each_pending_defer. destruct (mdns _) as [m|]; [|done].
    destruct (destroy_takes_callback m); [done|].
    rewrite /socket_close. by destruct (socket_closes m).
Qed.

Lemma resolver_js_stop_clears_timers_witness :
  let st := run ResolverJs [Start sample_mdns; Resolve "x" "A"; Resolve "y" "A"]
              (init sample_options 0) in
  size (timers st) = 2%nat ∧ timers (stop ResolverJs st) = ∅.
Proof.
  intros st. split; [by vm_compute|].
  assert (reachable ResolverJs st) as Hr by (by eexists _, _, _).
  by destruct (resolver_js_stop_clears_timers st Hr) as (_ & H & _).
Defined.

(** ** Queries in flight *)

Lemma discard_pending key t p o st q :
  o ≠ Pending → promises (discard key t p o st) !! q = Some Pending →
  promises st !! q = Some Pending ∧ q ≠ p.
Proof.
  intros Ho. simpl. destruct (decide (p = q)) as [->|Hne].
  - destruct (promises st !! q) as [[| |]|] eqn:E.
    + rewrite settle_in_pending //. intros [= ->]. done.
    + rewrite (settle_in_settled q q o _ _ E) //.
    + rewrite (settle_in_settled q q o _ _ E) //.
    + by rewrite /settle_in E E.
  - rewrite settle_in_other //.
Qed.

Lemma get_delete_Some {V} (k k' : string) (v : V) (m : JsMap.t string V) :
  JsMap.wf m → JsMap.get k' (JsMap.delete k m) = Some v →
  k ≠ k' ∧ JsMap.get k' m = Some v.
Proof.
  intros Hwf. destruct (decide (k = k')) as [->|Hne].
  - by rewrite JsMapFacts.get_delete_eq.
  - by rewrite JsMapFacts.get_delete_ne.
Qed.

(** *** Timers and entries, in both copies *)

Lemma timers_listed_handle_answer_any i a st :
  Inv st → timers_listed st → timers_listed (handle_answer i a st).
Proof.
  intros HI HT. rewrite /handle_answer. destruct (is_address_type _); [|done].
  simpl. destruct (JsMap.get _ (pendingQueries st)) as [pq|] eqn:E.
  - destruct (inv_pending st HI _ pq E) as (Hkey & _).
    eapply timers_listed_same;
      [..|apply (timers_listed_discard (pq_key pq) (pq_timer pq) (pq_promise pq)
                   (Fulfilled (a_data a)) st pq)]; try done.
    by rewrite Hkey.
  - by apply (timers_listed_same st).
Qed.

Lemma timers_listed_step_any i ev st :
  i = ResolverJs ∨ ev ≠ Stop →
  Inv st → timers_listed st → timers_listed (step i ev st).
Proof.
  intros Hev HI HT. destruct ev.
  - simpl. rewrite /start. destruct (mdns st); [done|]. by apply (timers_listed_same st).
  - destruct Hev as [->|?]; [|done]. by apply timers_listed_stop.
  - simpl. rewrite /resolve. destruct (mdns st); [|done].
    destruct (cache_fresh _ st); [by apply (timers_listed_same st)|].
    destruct (JsMap.get _ (pendingQueries st)) eqn:E; [done|].
    destruct HT as [H1 H2]. split; [done|]. simpl. intros t td.
    destruct (decide (next_timer st = t)) as [<-|Hne].
    + rewrite lookup_insert_eq. intros [= <-]. simpl. eexists.
      split; [apply JsMapFacts.get_set_eq|done].
    + rewrite lookup_insert_ne //. intros Htd.
      destruct (H2 t td Htd) as (pq' & Hpq' & Ht'). exists pq'. split; [|done].
      rewrite JsMapFacts.get_set_ne; [done|]. intros Heq. congruence.
  - simpl. rewrite /_handleResponse. destruct (answers response) as [l|]; [|done].
    revert st HI HT. induction l as [|a l IH]; intros st HI HT; [done|].
    simpl. apply IH; [by apply Inv_handle_answer|by apply timers_listed_handle_answer_any].
  - simpl. destruct (timers st !! t) as [td|] eqn:Htd; [|by rewrite /fire_timer Htd].
    destruct (decide (t_due td ≤ clock st)) as [Hd|Hd].
    + rewrite (fire_timer_discard t td) //.
      destruct (listed_timers st HT t td Htd) as (pq & Hpq & Ht).
      by apply (timers_listed_discard _ _ _ _ st pq).
    + by rewrite /fire_timer Htd bool_decide_eq_false_2.
  - simpl. by rewrite /run_immediate (listed_immediates st HT).
  - simpl. rewrite /destroy_done. destruct (closing st) as [|m rest]; [done|].
    rewrite /socket_close. destruct (socket_closes m); by apply (timers_listed_same st).
  - by apply (timers_listed_same st).
  - by apply (timers_listed_same st).
Qed.

Lemma timers_listed_reachable st : reachable ResolverJs st → timers_listed st.
Proof.
  intros (o & now & evs & ->).
  assert (Inv (run ResolverJs evs (init o now)) ∧
          timers_listed (run ResolverJs evs (init o now))) as [_ HT]; [|done].
  induction evs as [|ev evs [HI HT]] using rev_ind; [split; [apply Inv_init|by split]|].
  rewrite /run foldl_app /= -/(run ResolverJs evs (init o now)).
  split; [by apply Inv_step|apply timers_listed_step_any; auto].
Qed.

(** Two armed timers do not carry one key. *)
Lemma timers_listed_keys st t1 t2 td1 td2 :
  timers_listed st → timers st !! t1 = Some td1 → timers st !! t2 = Some td2 →
  t_key td1 = t_key td2 → t1 = t2.
Proof.
  intros HT H1 H2 Hk.
  destruct (listed_timers st HT t1 td1 H1) as (pq1 & Hpq1 & <-).
  destruct (listed_timers st HT t2 td2 H2) as (pq2 & Hpq2 & <-).
  congruence.
Qed.

(** *** A pending promise stays in the table *)

Lemma promises_grow i ev st :
  Inv st → (length (promises st) ≤ length (promises (step i ev st)))%nat.
Proof.
  intros HI. pose proof (ext_next _ _ (ext_step i ev st)) as Hn.
  rewrite (inv_counter st HI) (inv_counter _ (Inv_step i ev st HI)) in Hn. done.
Qed.

Lemma listed_discard p key k t p' o st :
  JsMap.wf (pendingQueries st) → o ≠ Pending →
  (∀ pq, JsMap.get k (pendingQueries st) = Some pq → pq_promise pq = p') →
  listed p key st → listed p key (discard k t p' o st).
Proof.
  intros Hwf Ho Hk HL [Hp Hne]%discard_pending; [|done].
  destruct (HL Hp) as (pq & Hpq & Hpp). exists pq. split; [|done].
  simpl. rewrite JsMapFacts.get_delete_ne; [done|].
  intros <-. apply Hne. rewrite -Hpp. by apply Hk.
Qed.

Lemma listed_same p key st st' :
  promises st' = promises st → pendingQueries st' = pendingQueries st →
  listed p key st → listed p key st'.
Proof. intros Hp Hq HL. rewrite /listed Hp Hq. apply HL. Qed.

Lemma listed_handle_answer i a p key st :
  Inv st → listed p key st → listed p key (handle_answer i a st).
Proof.
  intros HI HL. rewrite /handle_answer. destruct (is_address_type _); [|done].
  simpl. destruct (JsMap.get _ (pendingQueries st)) as [pq|] eqn:E.
  - destruct (inv_pending st HI _ pq E) as (Hkey & _).
    eapply listed_same;
      [..|apply (listed_discard p key (pq_key pq) (pq_timer pq) (pq_promise pq)
                   (Fulfilled (a_data a)) st)]; try done.
    + apply HI.
    + intros pq'. rewrite Hkey E. by intros [= <-].
  - by apply (listed_same _ _ st).
Qed.

Lemma listed_step i ev p key st :
  i = ResolverJs ∨ ev ≠ Stop →
  Inv st → timers_listed st → (p < length (promises st))%nat →
  listed p key st → listed p key (step i ev st).
Proof.
  intros Hev HI HT Hlt HL. destruct ev.
  - simpl. rewrite /start. destruct (mdns st); [done|]. by apply (listed_same _ _ st).
  - destruct Hev as [->|?]; [|done]. intros Hp. exfalso.
    destruct (promises st !! p) as [[| |]|] eqn:E.
    + destruct (HL E) as (pq & Hpq & <-).
      destruct (stop_resolver_fields st HI) as (_ & _ & _ & _ & Hrej).
      change (step ResolverJs Stop st) with (stop ResolverJs st) in Hp.
      rewrite (Hrej key pq Hpq) in Hp. done.
    + change (step ResolverJs Stop st) with (stop ResolverJs st) in Hp.
      by rewrite (ext_promises _ _ (ext_stop ResolverJs st) p _ E) in Hp.
    + change (step ResolverJs Stop st) with (stop ResolverJs st) in Hp.
      by rewrite (ext_promises _ _ (ext_stop ResolverJs st) p _ E) in Hp.
    + apply lookup_ge_None in E. lia.
  - simpl. rewrite /resolve. destruct (mdns st); [|done].
    destruct (cache_fresh _ st); [by apply (listed_same _ _ st)|].
    destruct (JsMap.get _ (pendingQueries st)) eqn:E; [done|].
    rewrite /listed /=. rewrite lookup_app_l //. intros Hp.
    destruct (HL Hp) as (pq & Hpq & Hpp). exists pq. split; [|done].
    rewrite JsMapFacts.get_set_ne; [done|]. intros Heq. congruence.
  - simpl. rewrite /_handleResponse. destruct (answers response) as [l|]; [|done].
    clear HT Hlt. revert st HI HL. induction l as [|a l IH]; intros st HI HL; [done|].
    simpl. apply IH; [by apply Inv_handle_answer|by apply listed_handle_answer].
  - simpl. destruct (timers st !! t) as [td|] eqn:Htd; [|by rewrite /fire_timer Htd].
    destruct (decide (t_due td ≤ clock st)) as [Hd|Hd].
    + rewrite (fire_timer_discard t td) //.
      destruct (listed_timers st HT t td Htd) as (pq & Hpq & Ht).
      destruct (inv_timers st HI t td Htd) as (Htp & _).
      destruct (inv_pending st HI _ pq Hpq) as (_ & Hpt & _).
      apply listed_discard; [apply HI|done| |done].
      intros pq'. rewrite Hpq. intros [= <-]. congruence.
    + by rewrite /fire_timer Htd bool_decide_eq_false_2.
  - simpl. by rewrite /run_immediate (listed_immediates st HT).
  - simpl. rewrite /destroy_done. destruct (closing st) as [|m rest]; [done|].
    rewrite /socket_close. destruct (socket_closes m); by apply (listed_same _ _ st).
  - by apply (listed_same _ _ st).
  - by apply (listed_same _ _ st).
Qed.

Lemma listed_run i evs p key st :
  i = ResolverJs ∨ Stop ∉ evs →
  Inv st → timers_listed st → (p < length (promises st))%nat →
  listed p key st →
  listed p key (run i evs st) ∧ timers_listed (run i evs st).
Proof.
  revert st. induction evs as [|ev evs IH]; intros st Hevs HI HT Hlt HL; [done|].
  simpl. rewrite -/(run i evs _).
  assert (i = ResolverJs ∨ ev ≠ Stop) as Hev.
  { destruct Hevs as [?|Hevs]; [by left|]. right. intros ->. apply Hevs. by left. }
  apply IH.
  - destruct Hevs as [?|Hevs]; [by left|]. right. intros ?. apply Hevs. by right.
  - by apply Inv_step.
  - by apply timers_listed_step_any.
  - pose proof (promises_grow i ev st HI). lia.
  - by apply listed_step.
Qed.

Lemma timers_listed_run_any i evs st :
  i = ResolverJs ∨ Stop ∉ evs →
  Inv st → timers_listed st → timers_listed (run i evs st).
Proof.
  revert st. induction evs as [|ev evs IH]; intros st Hevs HI HT; [done|].
  simpl. rewrite -/(run i evs _). apply IH.
  - destruct Hevs as [?|Hevs]; [by left|]. right. intros ?. apply Hevs. by right.
  - by apply Inv_step.
  - apply timers_listed_step_any; [|done..].
    destruct Hevs as [?|Hevs]; [by left|]. right. intros ->. apply Hevs. by left.
Qed.

(** *** Every pending promise has its timer *)

Lemma armed_same st st' :
  promises st' = promises st → timers st' = timers st → armed st → armed st'.
Proof. intros Hp Ht HA. rewrite /armed Hp Ht. apply HA. Qed.

Lemma armed_discard key t p o st :
  o ≠ Pending → closure_ok st key t p → armed st → armed (discard key t p o st).
Proof.
  intros Ho [-> _] HA q [Hq Hne]%discard_pending; [|done].
  simpl. rewrite lookup_delete_ne; [|done]. by apply HA.
Qed.

Lemma armed_handle_answer i a st : Inv st → armed st → armed (handle_answer i a st).
Proof.
  intros HI HA. rewrite /handle_answer. destruct (is_address_type _); [|done].
  simpl. destruct (JsMap.get _ (pendingQueries st)) as [pq|] eqn:E.
  - eapply armed_same;
      [..|apply (armed_discard (pq_key pq) (pq_timer pq) (pq_promise pq)
                   (Fulfilled (a_data a)) st)]; try done.
    by eapply closure_ok_pending.
  - by apply (armed_same st).
Qed.

Lemma armed_each_pending fuel st :
  Inv st → armed st → armed (each_pending reject_now fuel st).
Proof.
  revert st. induction fuel as [|fuel IH]; intros st HI HA; [done|].
  simpl. destruct (pendingQueries st) as [|[name pq] rest] eqn:Hp; [done|].
  assert (JsMap.get name (pendingQueries st) = Some pq) as Hget.
  { by rewrite Hp /= decide_True. }
  apply IH.
  - by apply Inv_pending_delete, Inv_reject_now.
  - apply (armed_same (reject_now name pq st)); [done..|].
    rewrite /reject_now pending_reject_discard.
    apply armed_discard; [done| |done]. by eapply closure_ok_pending.
Qed.

Lemma armed_step i ev st : Inv st → armed st → armed (step i ev st).
Proof.
  intros HI HA. destruct ev.
  - simpl. rewrite /start. destruct (mdns st); [done|]. by apply (armed_same st).
  - destruct i.
    + apply (armed_same st); [|by rewrite /= each_pending_defer; destruct (mdns st) as [m|];
        [destruct (destroy_takes_callback m); [|rewrite /socket_close; destruct (socket_closes m)]|]|done].
      apply stop_index_fields.
    + simpl. eapply armed_same; [..|apply armed_each_pending]; [done..| |].
      * destruct (mdns st); [|done]. by apply Inv_set_mdns, Inv_call_transport.
      * destruct (mdns st); [|done]. by apply (armed_same st).
  - simpl. rewrite /resolve. destruct (mdns st); [|done].
    destruct (cache_fresh _ st); [by apply (armed_same st)|].
    destruct (JsMap.get _ (pendingQueries st)) eqn:E; [done|].
    intros q. simpl. rewrite -(inv_counter st HI).
    destruct (decide (q = next_timer st)) as [->|Hne].
    + rewrite lookup_insert_eq. by eexists.
    + rewrite lookup_insert_ne //. intros Hq. apply HA.
      destruct (decide (q < length (promises st))%nat) as [Hlt|Hge].
      * by rewrite lookup_app_l in Hq.
      * apply lookup_lt_Some in Hq. rewrite length_app /= in Hq.
        pose proof (inv_counter st HI). lia.
  - simpl. rewrite /_handleResponse. destruct (answers response) as [l|]; [|done].
    revert st HI HA. induction l as [|a l IH]; intros st HI HA; [done|].
    simpl. apply IH; [by apply Inv_handle_answer|by apply armed_handle_answer].
  - simpl. destruct (timers st !! t) as [td|] eqn:Htd; [|by rewrite /fire_timer Htd].
    destruct (decide (t_due td ≤ clock st)) as [Hd|Hd].
    + rewrite (fire_timer_discard t td) //.
      apply armed_discard; [done| |done]. by apply closure_ok_timer.
    + by rewrite /fire_timer Htd bool_decide_eq_false_2.
  - simpl. rewrite /run_immediate. destruct (immediates st) as [|pq rest] eqn:Hq; [done|].
    rewrite pending_reject_discard.
    apply armed_discard; [done| |by apply (armed_same st)].
    destruct (closure_ok_immediate st pq HI) as [H1 H2]; [rewrite Hq; by left|].
    by split.
  - simpl. rewrite /destroy_done. destruct (closing st) as [|m rest]; [done|].
    rewrite /socket_close. destruct (socket_closes m); by apply (armed_same st).
  - by apply (armed_same st).
  - by apply (armed_same st).
Qed.

Lemma armed_reachable i st : reachable i st → armed st.
Proof.
  intros (o & now & evs & ->).
  assert (Inv (run i evs (init o now)) ∧ armed (run i evs (init o now))) as [_ HA]; [|done].
  induction evs as [|ev evs [HI HA]] using rev_ind.
  - split; [apply Inv_init|]. intros p. by rewrite /= lookup_nil.
  - rewrite /run foldl_app /= -/(run i evs (init o now)).
    split; [by apply Inv_step|by apply armed_step].
Qed.

(** ** One query in flight for a key *)

(** index.js: a query is under way, the resolver is stopped and started
    again before the deferred rejection has run; a call for the key sends
    a second query. *)
Lemma single_flight_after_stop :
  ¬ single_flight IndexJs timers_listed (λ _, True).
Proof.
  intros H.
  set (st := run IndexJs [Start sync_mdns] (init sample_options 1000)).
  assert (reachable IndexJs st) as Hr by (by eexists _, _, _).
  assert (timers_listed st) as HT by (by split).
  pose proof (H st "x" "A" [Stop; Start sync_mdns] "x" "A" Hr
                ltac:(by eexists) HT I) as H'.
  vm_compute in H'. specialize (H' eq_refl eq_refl eq_refl eq_refl).
  discriminate H'.
Qed.

(** index.js: the deferred rejection of a query stopped earlier runs after
    a new query for its key has started; it takes the new entry out of the
    table, and a call for the key sends another query. *)
Lemma single_flight_stale :
  ¬ single_flight IndexJs (λ _, True) (λ evs, Stop ∉ evs).
Proof.
  intros H.
  set (st := run IndexJs [Start sync_mdns; Resolve "x" "A"; Stop; Start sync_mdns]
               (init sample_options 1000)).
  assert (reachable IndexJs st) as Hr by (by eexists _, _, _).
  assert (Stop ∉ [Immediate]) as Hevs.
  { by intros [?|?%elem_of_nil]%elem_of_cons. }
  pose proof (H st "x" "A" [Immediate] "x" "A" Hr ltac:(by eexists) I Hevs) as H'.
  vm_compute in H'. specialize (H' eq_refl eq_refl eq_refl eq_refl).
  discriminate H'.
Qed.

(** index.js: [resolve("x")], then [stop()] and [start()]: the promise of
    the query is still pending, its rejection being deferred, and
    [resolve("x")] sends a second query. *)
Lemma single_flight_claim_fails : ¬ single_flight_claim.
Proof.
  intros H.
  set (st := run IndexJs [Start sync_mdns] (init sample_options 1000)).
  assert (reachable IndexJs st) as Hr by (by eexists _, _, _).
  pose proof (H IndexJs st "x" "A" [Stop; Start sync_mdns] "x" "A" Hr
                ltac:(by eexists) I I) as H'.
  vm_compute in H'. specialize (H' eq_refl eq_refl eq_refl eq_refl).
  discriminate H'.
Qed.

(** C1, amended.  A [resolve] call that finds neither a fresh cache entry
    nor a pending entry for its key creates one pending entry, with a new
    pending promise, and sends one query on the transport.  In
    src/resolver.js whatever happens next, and in index.js as long as the
    resolver is not stopped, provided that no timer or deferred rejection
    of a query stopped earlier was outstanding when the query started:
    the table holds a key at most once, every promise that is still
    pending is the promise of the entry the table holds under the key of
    its timer, and for as long as the promise of the query is pending its
    entry is in the table under its key and a call for the key sends
    nothing, changes nothing and returns that same promise. *)
Theorem single_query_per_key (i : impl) (name type : string) (st : State)
    (evs : list Event) :
  reachable i st → is_Some (mdns st) →
  cache_fresh (cacheKey (normalizeName i name) type) st = None →
  JsMap.get (cacheKey (normalizeName i name) type) (pendingQueries st) = None →
  (i = IndexJs → timers_listed st ∧ Stop ∉ evs) →
  let name' := normalizeName i name in
  let key := cacheKey name' type in
  let p := length (promises st) in
  let r := resolve i name type st in
  let st2 := run i evs r.2 in
  (r.1 = ReturnsPromise p ∧ promises r.2 = promises st ++ [Pending] ∧
   pendingQueries r.2 =
     pendingQueries st ++
       [(key, {| pq_key := key; pq_timer := next_timer st; pq_promise := p |})] ∧
   transport r.2 = transport st ++ [TQuery name' type]) ∧
  NoDup (JsMap.keys (pendingQueries st2)) ∧
  (∀ q, promises st2 !! q = Some Pending →
     ∃ td pq, timers st2 !! q = Some td ∧
       JsMap.get (t_key td) (pendingQueries st2) = Some pq ∧ pq_promise pq = q) ∧
  (promises st2 !! p = Some Pending →
     (∃ pq, JsMap.get key (pendingQueries st2) = Some pq ∧ pq_promise pq = p) ∧
     ∀ name2 type2, cacheKey (normalizeName i name2) type2 = key →
       (resolve i name2 type2 st2).2 = st2 ∧
       (is_Some (mdns st2) → (resolve i name2 type2 st2).1 = ReturnsPromise p)).
Proof.
  intros Hr [m Hrun] Hf Hnone Hclean name' key p r st2.
  pose proof (reachable_Inv i st Hr) as HI.
  assert (r = issue_query name' type key st) as Hnew.
  { by rewrite /r /resolve Hrun -/name' -/key Hf Hnone. }
  assert (r.2 = step i (Resolve name type) st) as Hstep by done.
  assert (Inv r.2) as HI1 by (rewrite Hstep; by apply Inv_step).
  assert (Inv st2) as HI2 by by apply Inv_run.
  assert (i = ResolverJs ∨ Stop ∉ evs) as Hevs.
  { destruct i; [right; by apply Hclean|by left]. }
  assert (timers_listed r.2) as HT1.
  { destruct i.
    - rewrite Hstep. apply timers_listed_step_any; [by right|done|by apply Hclean].
    - apply timers_listed_reachable. rewrite Hstep.
      by apply (reachable_run ResolverJs [Resolve name type]). }
  assert (listed p key r.2) as HL1.
  { intros _. rewrite Hnew /=. eexists. split; [apply JsMapFacts.get_set_eq|done]. }
  assert (p < length (promises r.2))%nat as Hlt.
  { rewrite Hnew /= length_app /=. lia. }
  destruct (listed_run i evs p key r.2 Hevs HI1 HT1 Hlt HL1) as [HL2 HT2].
  split_and!.
  - by rewrite Hnew.
  - by rewrite Hnew.
  - rewrite Hnew /=. by apply JsMapFacts.set_absent.
  - by rewrite Hnew.
  - apply HI2.
  - intros q Hq.
    destruct (armed_reachable i st2 (reachable_run i evs r.2
                ltac:(rewrite Hstep; by apply (reachable_run i [Resolve name type])))
                q Hq) as [td Htd].
    destruct (listed_timers st2 HT2 q td Htd) as (pq & Hpq & Ht).
    exists td, pq. split_and!; [done..|].
    destruct (inv_pending st2 HI2 _ pq Hpq) as (_ & Hpt & _). congruence.
  - intros Hp. destruct (HL2 Hp) as (pq & Hpq & Hpp).
    split; [by exists pq|]. intros name2 type2 Hkey.
    rewrite /resolve. destruct (mdns st2) as [m2|] eqn:Hm2.
    + rewrite Hkey (pending_not_fresh st2 key pq HI2 Hpq) Hpq /= Hpp. done.
    + split; [done|]. by intros [? ?].
Qed.

Lemma single_query_per_key_witness :
  let evs := [Tick 10; Resolve "other" "A";
              Receive {| answers := Some [answer_A "other.local" "10.0.0.7" 60] |}] in
  let st2 := run IndexJs evs (resolve IndexJs "host" "A" sample_cached).2 in
  transport (resolve IndexJs "host" "A" sample_cached).2 = [TQuery "host.local" "A"] ∧
  (resolve IndexJs "HOST.local" "A" st2).2 = st2 ∧
  (resolve IndexJs "HOST.local" "A" st2).1 = ReturnsPromise 0.
Proof.
  intros evs st2.
  assert (reachable IndexJs sample_cached) as Hr by (by eexists _, _, _).
  assert (is_Some (mdns sample_cached)) as Hm by (by eexists).
  assert (IndexJs = IndexJs → timers_listed sample_cached ∧ Stop ∉ evs) as Hclean.
  { intros _. split; [by split|].
    rewrite /evs !elem_of_cons elem_of_nil. by intros [?|[?|[?|?]]]. }
  destruct (single_query_per_key IndexJs "host" "A" sample_cached evs Hr Hm
              ltac:(by vm_compute) ltac:(by vm_compute) Hclean)
    as ((_ & _ & _ & Ht) & _ & _ & Hagain).
  split; [exact Ht|].
  destruct Hagain as [_ Hagain]; [by vm_compute|].
  destruct (Hagain "HOST.local" "A" ltac:(by vm_compute)) as [H1 H2].
  split; [exact H1|]. apply H2. by vm_compute.
Defined.

(** In index.js no [Stop] is needed for the timers to be listed: a resolver
    that was never stopped has them so. *)
Lemma timers_listed_never_stopped o now evs :
  Stop ∉ evs → timers_listed (run IndexJs evs (init o now)).
Proof.
  intros Hevs. apply timers_listed_run_any; [by right|apply Inv_init|by split].
Qed.

(** ** Stopping *)

Lemma stop_index_timers st : timers (stop IndexJs st) = timers st.
Proof.
  rewrite /= each_pending_defer. destruct (mdns st) as [m|]; [|done].
  destruct (destroy_takes_callback m); [done|].
  rewrite /socket_close. by destruct (socket_closes m).
Qed.

Lemma run_immediates_empties st : immediates (run_immediates st) = [].
Proof.
  rewrite /run_immediates.
  assert (∀ n st, immediates (Nat.iter n run_immediate st) = drop n (immediates st)) as H.
  { clear st. intros n. induction n as [|n IH]; intros st; [done|].
    rewrite Nat.iter_succ_r IH /run_immediate.
    destruct (immediates st) as [|pq rest] eqn:E; [by rewrite E drop_nil|done]. }
  rewrite H. by apply drop_all.
Qed.

Lemma deferred_same p n tb st st' :
  promises st' = promises st → timers st' = timers st →
  immediates st' = immediates st → pendingQueries st' = pendingQueries st →
  deferred p n tb st → deferred p n tb st'.
Proof. intros Hp Ht Hi Hq [H1 H2 H3]. split; rewrite ?Hp ?Ht ?Hi ?Hq; auto. Qed.

Lemma deferred_discard p n tb key t p' o st q :
  JsMap.wf (pendingQueries st) → o ≠ Pending →
  (p' = p → promises st !! p = Some Pending →
     o = Rejected stopped_message ∨ (tb = true ∧ o = Rejected (timeout_message n))) →
  (p' ≠ p → ∀ pq, pq ∈ immediates st → pq_promise pq = p → pq ∈ q) →
  deferred p n tb st → deferred p n tb (discard key t p' o (set_immediates q st)).
Proof.
  intros Hwf Ho Hsame Hq [H1 H2 H3]. split; simpl.
  - by rewrite settle_in_length.
  - intros k pq [_ Hk]%get_delete_Some; [|done]. by eapply H2.
  - destruct (decide (p' = p)) as [->|Hne].
    + destruct H3 as [(Hp & _)|[Hp|[Htb Hp]]].
      * rewrite settle_in_pending //.
        destruct (Hsame eq_refl Hp) as [->|[-> ->]]; [right; by left|right; by right].
      * right. left. by apply (settle_in_settled p p o _ _ Hp).
      * right. right. split; [done|]. by apply (settle_in_settled p p o _ _ Hp).
    + rewrite settle_in_other //.
      destruct H3 as [(Hp & (pq & Hin & Hpq) & Ht)|H3]; [|by right].
      left. split_and!; [done|exists pq; split; [by apply Hq|done]|].
      intros td [_ Htd]%lookup_delete_Some. by apply Ht.
Qed.

Lemma deferred_handle_answer p n tb i a st :
  Inv st → deferred p n tb st → deferred p n tb (handle_answer i a st).
Proof.
  intros HI HD. rewrite /handle_answer. destruct (is_address_type _); [|done].
  simpl. destruct (JsMap.get _ (pendingQueries st)) as [pq|] eqn:E.
  - eapply deferred_same;
      [..|apply (deferred_discard p n tb (pq_key pq) (pq_timer pq) (pq_promise pq)
                   (Fulfilled (a_data a)) st (immediates st))]; try done.
    + apply HI.
    + intros Heq. by destruct (deferred_free p n tb st HD _ pq E).
  - by apply (deferred_same _ _ _ st).
Qed.

Lemma deferred_step p n tb ev st :
  Inv st → (tb = false → ev ≠ TimerFires p) →
  deferred p n tb st → deferred p n tb (step IndexJs ev st).
Proof.
  intros HI Hev HD. destruct ev.
  - simpl. rewrite /start. destruct (mdns st); [done|]. by apply (deferred_same _ _ _ st).
  - destruct (stop_index_fields st) as (Hsp & Hsq & _ & Hsi & _).
    destruct HD as [H1 H2 H3].
    split; change (step IndexJs Stop st) with (stop IndexJs st);
      rewrite ?Hsp ?Hsq ?Hsi ?stop_index_timers; [done..|].
    destruct H3 as [(Hp & (pq & Hin & Hpq) & Ht)|H3]; [|by right].
    left. split_and!; [done| |done]. exists pq. split; [|done].
    apply elem_of_app. by left.
  - simpl. rewrite /resolve. destruct (mdns st); [|done].
    destruct (cache_fresh _ st); [by apply (deferred_same _ _ _ st)|].
    destruct (JsMap.get _ (pendingQueries st)) eqn:E; [done|].
    destruct HD as [H1 H2 H3]. split; simpl.
    + rewrite length_app /=. lia.
    + intros k pq. match goal with |- JsMap.get k (JsMap.set ?key _ _) = _ → _ =>
        destruct (decide (key = k)) as [<-|Hne] end.
      * rewrite JsMapFacts.get_set_eq. intros [= <-]. simpl. lia.
      * rewrite JsMapFacts.get_set_ne //. apply H2.
    + rewrite lookup_app_l //.
      destruct H3 as [(Hp & Hin & Ht)|H3]; [|by right].
      left. split_and!; [done..|].
      intros td. rewrite lookup_insert_ne; [|pose proof (inv_counter st HI); lia]. apply Ht.
  - simpl. rewrite /_handleResponse. destruct (answers response) as [l|]; [|done].
    clear Hev. revert st HI HD. induction l as [|a l IH]; intros st HI HD; [done|].
    simpl. apply IH; [by apply Inv_handle_answer|by apply deferred_handle_answer].
  - simpl. destruct (timers st !! t) as [td|] eqn:Htd; [|by rewrite /fire_timer Htd].
    destruct (decide (t_due td ≤ clock st)) as [Hd|Hd].
    + rewrite (fire_timer_discard t td) //.
      destruct (inv_timers st HI t td Htd) as (Htp & _).
      eapply deferred_same;
        [..|apply (deferred_discard p n tb (t_key td) t (t_promise td)
                     (Rejected (timeout_message (t_name td))) st (immediates st))];
        try done.
      * apply HI.
      * intros Heq Hp. right. destruct tb.
        -- split; [done|]. destruct (deferred_outcome p n _ st HD) as [(_ & _ & Ht)|[?|[_ ?]]];
             [|congruence..]. rewrite (Ht td); [done|]. congruence.
        -- destruct (Hev eq_refl). congruence.
    + by rewrite /fire_timer Htd bool_decide_eq_false_2.
  - simpl. rewrite /run_immediate. destruct (immediates st) as [|pq1 rest] eqn:Hq; [done|].
    rewrite pending_reject_discard.
    apply deferred_discard; [apply HI|done|by left| |done].
    intros Hne pq. rewrite Hq. intros [->|?]%elem_of_cons; [done|done].
  - simpl. rewrite /destroy_done. destruct (closing st) as [|m rest]; [done|].
    rewrite /socket_close. destruct (socket_closes m); by apply (deferred_same _ _ _ st).
  - by apply (deferred_same _ _ _ st).
  - by apply (deferred_same _ _ _ st).
Qed.

Lemma deferred_run p n tb evs st :
  Inv st → (tb = false → TimerFires p ∉ evs) →
  deferred p n tb st → deferred p n tb (run IndexJs evs st).
Proof.
  revert st. induction evs as [|ev evs IH]; intros st HI Hevs HD; [done|].
  simpl. rewrite -/(run IndexJs evs _). apply IH.
  - by apply Inv_step.
  - intros Htb ?. apply (Hevs Htb). by right.
  - apply deferred_step; [done| |done]. intros Htb ->. apply (Hevs Htb). by left.
Qed.

(** What is left of a deferred promise once the queue is empty. *)
Lemma deferred_settled p n tb st :
  deferred p n tb st → immediates st = [] →
  promises st !! p = Some (Rejected stopped_message) ∨
  (tb = true ∧ promises st !! p = Some (Rejected (timeout_message n))).
Proof.
  intros [_ _ [(_ & (pq & Hin & _) & _)|[?|?]]] Hq; [|by left|by right].
  rewrite Hq in Hin. by apply elem_of_nil in Hin.
Qed.

(** The entries [stop()] of index.js takes out of the table are deferred. *)
Lemma stop_deferred st k pq tb :
  Inv st → JsMap.get k (pendingQueries st) = Some pq →
  ∃ td, promises st !! pq_promise pq = Some Pending ∧
    timers st !! pq_promise pq = Some td ∧ t_key td = k ∧
    deferred (pq_promise pq) (t_name td) tb (stop IndexJs st).
Proof.
  intros HI Hget.
  destruct (inv_pending st HI k pq Hget) as (Hkey & Hpt & Hp & td & Htd & Htk).
  exists td. rewrite Hpt. split_and!; [by rewrite -Hpt|done..|].
  destruct (stop_index_fields st) as (Hsp & Hsq & _ & Hsi & _).
  split; rewrite ?Hsp ?Hsq ?Hsi ?stop_index_timers.
  - apply lookup_lt_Some in Hp. by rewrite -Hpt.
  - done.
  - left. split_and!.
    + by rewrite -Hpt.
    + exists pq. split; [|done]. apply elem_of_app. right.
      apply list_elem_of_fmap. exists (k, pq). split; [done|].
      by apply JsMapFacts.get_Some_elem.
    + intros td'. rewrite Htd. by intros [= <-].
Qed.

(** index.js: the timeout of a query runs between [stop()] and the deferred
    rejection. *)
Lemma stop_claim_fails : ¬ stop_claim.
Proof.
  intros H.
  set (st := run IndexJs [Start sample_mdns; Resolve "x" "A"; Tick 5000]
               (init sample_options 1000)).
  assert (reachable IndexJs st) as Hr by (by eexists _, _, _).
  pose proof (H IndexJs st "x.local:A" {| pq_key := "x.local:A"; pq_timer := 0; pq_promise := 0 |}
                [TimerFires 0; Immediate; DestroyDone] Hr) as H'.
  vm_compute in H'. specialize (H' eq_refl eq_refl). discriminate H'.
Qed.

(** index.js: a promise that is pending without an entry in the table is
    not touched by [stop()]; it is left to its timeout. *)
Lemma stop_passes_by_unlisted :
  let st := run IndexJs [Start sync_mdns; Resolve "x" "A"; Stop; Start sync_mdns;
                         Resolve "x" "A"; Immediate] (init sample_options 1000) in
  promises st !! 1%nat = Some Pending ∧ pendingQueries st = [] ∧
  promises (destroy_done (run_immediates (stop IndexJs st))) !! 1%nat = Some Pending ∧
  ∃ td, timers (stop IndexJs st) !! 1%nat = Some td.
Proof. intros st. split_and!; [by vm_compute..|]. eexists. by vm_compute. Qed.

(** C5, amended.  [stop] empties the pending table, calls [destroy] on
    the transport of a running resolver and leaves the cache as it is; once
    the callback of [destroy] has run (index.js, when [destroy] takes one)
    the resolver holds no transport.  In src/resolver.js [stop] itself
    rejects every promise that is pending, with 'Resolver stopped'.  In
    index.js [stop] defers the rejection of each entry of the table with
    [setImmediate]: whatever happens after [stop], once the deferred
    callbacks have run the promise of each entry is rejected, with
    'Resolver stopped' or with the timeout of its name, and with
    'Resolver stopped' when its timer did not run in between.  Every
    promise that is pending after [stop] has its timer armed. *)
Theorem stop_rejects_all (i : impl) (st : State) :
  reachable i st →
  let st' := stop i st in
  let st'' := destroy_done (run_immediates st') in
  pendingQueries st' = [] ∧ pendingQueries st'' = [] ∧
  cache st' = cache st ∧ cache st'' = cache st ∧
  (∀ m, mdns st = Some m → ∃ calls, transport st' = transport st ++ TDestroy :: calls) ∧
  mdns st'' = None ∧
  (i = ResolverJs →
     ∀ p, promises st !! p = Some Pending →
       promises st' !! p = Some (Rejected stopped_message)) ∧
  (∀ k pq, JsMap.get k (pendingQueries st) = Some pq →
     ∃ td, promises st !! pq_promise pq = Some Pending ∧
       timers st !! pq_promise pq = Some td ∧ t_key td = k ∧
       ∀ evs, let st3 := run_immediates (run i evs st') in
         (promises st3 !! pq_promise pq = Some (Rejected stopped_message) ∨
          i = IndexJs ∧
          promises st3 !! pq_promise pq = Some (Rejected (timeout_message (t_name td)))) ∧
         (TimerFires (pq_promise pq) ∉ evs →
            promises st3 !! pq_promise pq = Some (Rejected stopped_message))) ∧
  (∀ p, promises st' !! p = Some Pending → is_Some (timers st' !! p)).
Proof.
  intros Hr st' st''. pose proof (reachable_Inv i st Hr) as HI.
  destruct (destroy_done_fields (run_immediates st')) as (Hdp & Hdq & Hdc & Hdm).
  destruct (run_immediates_list (immediates st') st' eq_refl)
    as (Hrc & Hrm & Hrt & Hrcl & Hrq & Hrrej).
  fold (run_immediates st') in Hrc, Hrm, Hrt, Hrcl, Hrq, Hrrej.
  rewrite -/st'' in Hdp Hdq Hdc Hdm.
  assert (∀ p, promises st' !! p = Some Pending → is_Some (timers st' !! p)) as Harmed.
  { apply (armed_reachable i). by apply (reachable_run i [Stop]). }
  destruct i.
  - destruct (stop_index_fields st) as (Hsp & Hsq & Hsc & Hsi & Hsm & Hst).
    rewrite -/st' in Hsp Hsq Hsc Hsi Hsm Hst.
    split_and!; try done.
    + rewrite Hdq. by apply Hrq.
    + by rewrite Hdc Hrc.
    + destruct Hdm as [?|[Hcl Hm]]; [done|].
      rewrite Hm Hrm. rewrite Hrcl in Hcl. by destruct Hsm.
    + intros k pq Hget.
      destruct (stop_deferred st k pq true HI Hget) as (td & Hp & Htd & Hk & _).
      exists td. split_and!; [done..|]. intros evs st3.
      assert (∀ tb, (tb = false → TimerFires (pq_promise pq) ∉ evs) →
                promises st3 !! pq_promise pq = Some (Rejected stopped_message) ∨
                (tb = true ∧ promises st3 !! pq_promise pq =
                                 Some (Rejected (timeout_message (t_name td))))) as Hend.
      { intros tb Htb.
        destruct (stop_deferred st k pq tb HI Hget) as (td' & _ & Htd' & _ & HD).
        assert (td' = td) as -> by congruence.
        apply deferred_settled; [|apply run_immediates_empties].
        rewrite /st3 (run_immediates_run IndexJs).
        apply deferred_run.
        { by apply Inv_run, Inv_stop. }
        { intros _. by intros [[=] _]%elem_of_replicate. }
        apply deferred_run; [by apply Inv_stop|done|done]. }
      split.
      * destruct (Hend true) as [?|[_ ?]]; [done|by left|by right].
      * intros Hevs. destruct (Hend false) as [?|[? _]]; done.
  - destruct (stop_resolver_fields st HI) as (Hsq & Hsc & Hsm & Hst & Hsrej).
    rewrite -/st' in Hsq Hsc Hsm Hst Hsrej.
    split_and!; try done.
    + rewrite Hdq. by apply Hrq.
    + by rewrite Hdc Hrc.
    + intros m Hm. exists []. by apply (Hst m).
    + destruct Hdm as [?|[_ Hm]]; [done|]. by rewrite Hm Hrm.
    + intros _ p Hp.
      destruct (armed_reachable ResolverJs st Hr p Hp) as [td Htd].
      destruct (listed_timers st (timers_listed_reachable st Hr) p td Htd)
        as (pq & Hpq & Ht).
      destruct (inv_pending st HI _ pq Hpq) as (_ & Hpt & _).
      rewrite -Ht -Hpt. by eapply Hsrej.
    + intros k pq Hget.
      destruct (inv_pending st HI k pq Hget) as (Hkey & Hpt & Hp & td & Htd & Htk).
      exists td. rewrite Hpt. split_and!; [by rewrite -Hpt|done..|].
      intros evs st3.
      assert (promises st3 !! pq_timer pq = Some (Rejected stopped_message)) as Hend.
      { rewrite /st3 (run_immediates_run ResolverJs).
        do 2 (apply settled_stays; [|done]). rewrite -Hpt. by eapply Hsrej. }
      split; [by left|done].
Qed.

Lemma stop_rejects_all_witness :
  let st' := stop IndexJs sample_pending in
  let st3 := run_immediates (run IndexJs [Tick 5000; TimerFires 0; DestroyDone] st') in
  pendingQueries st' = [] ∧ cache st' = cache sample_pending ∧
  promises sample_pending = [Pending; Pending] ∧
  promises st3 !! 0%nat = Some (Rejected "Timeout resolving x.local") ∧
  promises st3 !! 1%nat = Some (Rejected "Resolver stopped").
Proof.
  intros st' st3.
  assert (reachable IndexJs sample_pending) as Hr.
  { apply reachable_run. by eexists _, _, _. }
  destruct (stop_rejects_all IndexJs sample_pending Hr)
    as (Hq & _ & Hc & _ & _ & _ & _ & Hrej & _).
  split_and!; [exact Hq|exact Hc|by vm_compute|..].
  - destruct (Hrej "x.local:A" {| pq_key := "x.local:A"; pq_timer := 0; pq_promise := 0 |}
                ltac:(by vm_compute)) as (tdx & _ & Htdx & _ & Hx).
    destruct (Hx [Tick 5000; TimerFires 0; DestroyDone]) as [[Hx1|[_ Hx1]] _].
    + exfalso. revert Hx1. by vm_compute.
    + assert (t_name tdx = "x.local") as Hname.
      { vm_compute in Htdx. by injection Htdx as <-. }
      rewrite Hname in Hx1. exact Hx1.
  - destruct (Hrej "y.local:AAAA"
                {| pq_key := "y.local:AAAA"; pq_timer := 1; pq_promise := 1 |}
                ltac:(by vm_compute)) as (tdy & _ & _ & _ & Hy).
    destruct (Hy [Tick 5000; TimerFires 0; DestroyDone]) as [_ Hy2].
    apply Hy2. rewrite !elem_of_cons elem_of_nil. by intros [?|[?|[?|?]]].
Defined.
